(** * Continuous double auction engine: order books, matching, reconciliation

    Shallow embedding of [src/services/auction_engine.py] (class
    [AuctionEngine], dataclass [OrderBookEntry]) together with the parts of
    the Python runtime it leans on: [heapq.heappush] / [heapq.heappop]
    (CPython [Lib/heapq.py]), dictionary and list indexing with their
    [KeyError] / [IndexError], and the [query_intents] filter of
    [src/services/indexer.py].

    Python integers are unbounded, so prices, quantities and timestamps are
    [Z]; list positions are [nat].  The two book dictionaries are
    [gmap string (list OrderBookEntry)]; every heap is the Python list it is
    in the source, read and written by position. *)

From Stdlib Require Import ZArith Lia Ascii String.
From stdpp Require Import base decidable option list sorting strings gmap.
From Equations Require Import Equations.

Local Open Scope Z_scope.

(** ** Exceptions and results *)

(** The Python exceptions the code can meet.  [NotAnInt] is not one of
    them: it marks a JSON price or quantity that is not an integer, which
    the [int] annotations of the dataclass exclude (see [json_int]). *)
Inductive exn : Type :=
| IndexError
| KeyError
| AttributeError
| JSONDecodeError
| ValueError
| TimeExhausted
| ConnectionError
| NotAnInt.

Inductive res (A : Type) : Type :=
| Ok (a : A)
| Raise (e : exn).
Arguments Ok {A} a.
Arguments Raise {A} e.

Definition res_bind {A B} (m : res A) (k : A → res B) : res B :=
  match m with
  | Ok a => k a
  | Raise e => Raise e
  end.

(** ** [heapq] on Python lists *)

Module Heapq.
Section Heapq.
Context {A : Type}.
(** [lt x y] is Python's [x < y], i.e. [x.__lt__(y)]. *)
Variable lt : A → A → bool.

(** [heap[i]] as an expression. *)
Definition getitem (heap : list A) (i : nat) : res A :=
  match heap !! i with
  | Some x => Ok x
  | None => Raise IndexError
  end.

(** [heap[i] = x] as a statement. *)
Definition setitem (heap : list A) (i : nat) (x : A) : res (list A) :=
  if decide (i < length heap)%nat then Ok (<[i:=x]> heap) else Raise IndexError.

(** The [while pos > startpos] loop of [_siftdown], followed by the final
    [heap[pos] = newitem]. *)
Equations? siftdown_loop (newitem : A) (startpos : nat) (heap : list A) (pos : nat)
  : res (list A) by wf pos Nat.lt :=
  siftdown_loop newitem startpos heap pos with decide (startpos < pos)%nat => {
    | left _ =>
        match getitem heap (Nat.shiftr (pos - 1) 1) with
        | Raise e => Raise e
        | Ok parent =>
            if lt newitem parent then
              match setitem heap pos parent with
              | Raise e => Raise e
              | Ok heap' => siftdown_loop newitem startpos heap' (Nat.shiftr (pos - 1) 1)
              end
            else setitem heap pos newitem
        end
    | right _ => setitem heap pos newitem }.
Proof.
  change (Nat.shiftr (pos - 1) 1) with (Nat.div2 (pos - 1)).
  rewrite Nat.div2_div.
  assert (((pos - 1) / 2) * 2 <= pos - 1)%nat; [|lia].
  rewrite Nat.mul_comm. apply Nat.Div0.mul_div_le.
Qed.

Definition _siftdown (heap : list A) (startpos pos : nat) : res (list A) :=
  res_bind (getitem heap pos) (λ newitem, siftdown_loop newitem startpos heap pos).

(** The two lines of [_siftup] that set [childpos] to the index of the
    smaller child: [rightpos = childpos + 1] and the conditional
    [childpos = rightpos]. *)
Definition smaller_child (heap : list A) (childpos endpos : nat) : res nat :=
  let rightpos := (childpos + 1)%nat in
  if decide (rightpos < endpos)%nat then
    match getitem heap childpos with
    | Raise e => Raise e
    | Ok c =>
        match getitem heap rightpos with
        | Raise e => Raise e
        | Ok r => Ok (if negb (lt c r) then rightpos else childpos)
        end
    end
  else Ok childpos.

Definition inspect {B} (b : B) : {b' | b = b'} := exist _ b eq_refl.

(** The [while childpos < endpos] loop of [_siftup].  It returns the list
    and the leaf position [pos] at which the loop stops. *)
Equations? siftup_loop (endpos : nat) (heap : list A) (pos : nat)
  : res (list A * nat) by wf (endpos - pos)%nat Nat.lt :=
  siftup_loop endpos heap pos with decide (2 * pos + 1 < endpos)%nat => {
    | left _ with inspect (smaller_child heap (2 * pos + 1) endpos) => {
        | exist _ (Raise e) _ => Raise e
        | exist _ (Ok childpos) Hc =>
            match getitem heap childpos with
            | Raise e => Raise e
            | Ok child =>
                match setitem heap pos child with
                | Raise e => Raise e
                | Ok heap' => siftup_loop endpos heap' childpos
                end
            end }
    | right _ => Ok (heap, pos) }.
Proof.
  assert (2 * pos + 1 <= childpos)%nat; [|lia].
  unfold smaller_child in Hc.
  destruct (decide _); [|by inversion Hc].
  destruct (getitem heap _); [|done].
  destruct (getitem heap _); [|done].
  destruct (negb _); inversion Hc; lia.
Qed.

(** [_siftup(heap, pos)]. *)
Definition _siftup (heap : list A) (pos : nat) : res (list A) :=
  let endpos := length heap in
  let startpos := pos in
  res_bind (getitem heap pos) (λ newitem,
  res_bind (siftup_loop endpos heap pos) (λ '(heap1, pos1),
  res_bind (setitem heap1 pos1 newitem) (λ heap2,
  _siftdown heap2 startpos pos1))).

(** [heappush(heap, item)]: [heap.append(item)] then [_siftdown]. *)
Definition heappush (heap : list A) (item : A) : res (list A) :=
  let heap1 := heap ++ [item] in
  _siftdown heap1 0 (length heap1 - 1).

(** [heappop(heap)]: [heap.pop()] raises [IndexError] on the empty list. *)
Definition heappop (heap : list A) : res (A * list A) :=
  match last heap with
  | None => Raise IndexError
  | Some lastelt =>
      let heap1 := removelast heap in
      match heap1 with
      | [] => Ok (lastelt, heap1)
      | _ :: _ =>
          res_bind (getitem heap1 0) (λ returnitem,
          res_bind (setitem heap1 0 lastelt) (λ heap2,
          res_bind (_siftup heap2 0) (λ heap3,
          Ok (returnitem, heap3))))
      end
  end.
End Heapq.
End Heapq.

(** ** Data model *)

(** [class IntentType(Enum)]. *)
Inductive IntentType : Type := BID | ASK.

#[global] Instance IntentType_eq_dec : EqDecision IntentType.
Proof. solve_decision. Defined.

(** [@dataclass class OrderBookEntry]. *)
Record OrderBookEntry : Type := mkEntry {
  intent_id : string;
  actor : string;
  price : Z;
  quantity : Z;
  intent_type : IntentType;
  timestamp : Z;
  settlement_asset : string;
  ap2_mandate_id : string
}.

(** [OrderBookEntry.__lt__]: the branch is chosen by the type of [self]
    alone, and only prices are compared. *)
Definition entry_lt (self other : OrderBookEntry) : bool :=
  match intent_type self with
  | BID => bool_decide (price self > price other)
  | ASK => bool_decide (price self < price other)
  end.

(** The two dictionaries of [AuctionEngine.__init__].  [pending_matches]
    is initialised there and never touched again, so it is left out. *)
Record AuctionEngine : Type := mkEngine {
  bid_books : gmap string (list OrderBookEntry);
  ask_books : gmap string (list OrderBookEntry)
}.

Definition new_engine : AuctionEngine := mkEngine ∅ ∅.

(** ** Methods as state transformers that may raise *)

Definition M (A : Type) : Type := AuctionEngine → res A * AuctionEngine.

Definition ret {A} (a : A) : M A := λ self, (Ok a, self).
Definition bind {A B} (m : M A) (k : A → M B) : M B := λ self,
  match m self with
  | (Ok a, self') => k a self'
  | (Raise e, self') => (Raise e, self')
  end.
Definition lift {A} (r : res A) : M A := λ self, (r, self).
Definition get_self : M AuctionEngine := λ self, (Ok self, self).
Definition set_bid_books (b : gmap string (list OrderBookEntry)) : M unit :=
  λ self, (Ok (), mkEngine b (ask_books self)).
Definition set_ask_books (b : gmap string (list OrderBookEntry)) : M unit :=
  λ self, (Ok (), mkEngine (bid_books self) b).

Declare Scope engine_scope.
Delimit Scope engine_scope with engine.
Notation "'let*' x ':=' m 'in' k" := (bind m (λ x, k))
  (at level 10, x name, m at level 100, k at level 200, only parsing) : engine_scope.
Notation "'do' m 'in' k" := (bind m (λ _, k))
  (at level 10, m at level 100, k at level 200, only parsing) : engine_scope.
Local Open Scope engine_scope.

(** [d[k]] on a dictionary: [KeyError] when the key is absent. *)
Definition dict_getitem {V} (d : gmap string V) (k : string) : res V :=
  match d !! k with
  | Some v => Ok v
  | None => Raise KeyError
  end.

(** [heapq.heappush(self.bid_books[asset], entry)]: the list object stored
    under [asset] is updated in place.  [heappush] does not raise
    ([heappush_perm]), so what a raise would leave in the list is not
    modelled. *)
Definition heappush_bid (asset : string) (entry : OrderBookEntry) : M unit :=
  let* self := get_self in
  let* heap := lift (dict_getitem (bid_books self) asset) in
  let* heap' := lift (Heapq.heappush entry_lt heap entry) in
  set_bid_books (<[asset := heap']> (bid_books self)).

Definition heappush_ask (asset : string) (entry : OrderBookEntry) : M unit :=
  let* self := get_self in
  let* heap := lift (dict_getitem (ask_books self) asset) in
  let* heap' := lift (Heapq.heappush entry_lt heap entry) in
  set_ask_books (<[asset := heap']> (ask_books self)).

(** [heapq.heappop(self.bid_books[asset])].  It raises on the empty list
    only, before anything is written. *)
Definition heappop_bid (asset : string) : M OrderBookEntry :=
  let* self := get_self in
  let* heap := lift (dict_getitem (bid_books self) asset) in
  let* r := lift (Heapq.heappop entry_lt heap) in
  do set_bid_books (<[asset := r.2]> (bid_books self)) in
  ret r.1.

Definition heappop_ask (asset : string) : M OrderBookEntry :=
  let* self := get_self in
  let* heap := lift (dict_getitem (ask_books self) asset) in
  let* r := lift (Heapq.heappop entry_lt heap) in
  do set_ask_books (<[asset := r.2]> (ask_books self)) in
  ret r.1.

(** [AuctionEngine.add_intent]. *)
Definition add_intent (entry : OrderBookEntry) : M unit :=
  let asset := settlement_asset entry in
  match intent_type entry with
  | BID =>
      let* self := get_self in
      do (if bool_decide (asset ∉ dom (bid_books self))
          then set_bid_books (<[asset := []]> (bid_books self))
          else ret ()) in
      heappush_bid asset entry
  | ASK =>
      let* self := get_self in
      do (if bool_decide (asset ∉ dom (ask_books self))
          then set_ask_books (<[asset := []]> (ask_books self))
          else ret ()) in
      heappush_ask asset entry
  end.

(** Truth value of a list: [not l] holds exactly for the empty list. *)
Definition py_not {A} (l : list A) : bool :=
  match l with [] => true | _ => false end.

(** [AuctionEngine.try_match]. *)
Definition try_match (asset : string)
  : M (option (OrderBookEntry * OrderBookEntry * Z)) :=
  let* self := get_self in
  if bool_decide (asset ∉ dom (bid_books self))
     || bool_decide (asset ∉ dom (ask_books self))
  then ret None
  else
    let* bids := lift (dict_getitem (bid_books self) asset) in
    let* asks := lift (dict_getitem (ask_books self) asset) in
    if py_not bids || py_not asks then ret None
    else
      let* best_bid := lift (Heapq.getitem bids 0) in
      let* best_ask := lift (Heapq.getitem asks 0) in
      if bool_decide (price best_bid >= price best_ask) then
        let match_price := (price best_bid + price best_ask) `div` 2 in
        do heappop_bid asset in
        do heappop_ask asset in
        ret (Some (best_bid, best_ask, match_price))
      else ret None.

(** ** Settlement submission *)

(** [bytes.fromhex]: ASCII whitespace is skipped between bytes, every byte
    is two hexadecimal digits, anything else is a [ValueError]. *)
Definition hex_digit (c : ascii) : option N :=
  let n := N_of_ascii c in
  if bool_decide (48 <= n <= 57)%N then Some (n - 48)%N
  else if bool_decide (97 <= n <= 102)%N then Some (n - 87)%N
  else if bool_decide (65 <= n <= 70)%N then Some (n - 55)%N
  else None.

Definition is_ascii_space (c : ascii) : bool :=
  let n := N_of_ascii c in
  bool_decide (n = 32 ∨ 9 <= n <= 13)%N.

Fixpoint fromhex_chars (s : list ascii) : res (list N) :=
  match s with
  | [] => Ok []
  | c :: s' =>
      if is_ascii_space c then fromhex_chars s'
      else
        match hex_digit c, s' with
        | Some hi, d :: s'' =>
            match hex_digit d with
            | Some lo => res_bind (fromhex_chars s'') (λ bs, Ok ((16 * hi + lo)%N :: bs))
            | None => Raise ValueError
            end
        | _, _ => Raise ValueError
        end
  end.

Definition bytes_fromhex (s : string) : res (list N) :=
  fromhex_chars (list_ascii_of_string s).

(** What the node answers to one submission.  Every call on [self.w3] or
    [self.account] inside the [try] block either returns or raises:
    - [chain_contract]: [eth.contract(address=..., abi=...)];
    - [chain_build]: [createMatch(...)], [get_transaction_count],
      [gas_price] and [build_transaction];
    - [chain_sign]: [account.sign_transaction];
    - [chain_send]: [send_raw_transaction], returning the transaction hash
      (kept as the text that [tx_hash.hex()] yields);
    - [chain_wait]: [wait_for_transaction_receipt(tx_hash, timeout=120)]
      followed by [receipt['status']]; running out of time raises
      [TimeExhausted]. *)
Record chain_reply : Type := mkReply {
  chain_contract : res unit;
  chain_build : res unit;
  chain_sign : res unit;
  chain_send : res string;
  chain_wait : res Z
}.

(** The [try] block of [create_match_onchain]. *)
Definition create_match_try (reply : chain_reply)
    (bid_intent_id ask_intent_id : string) (match_price : Z) : res (option string) :=
  res_bind (chain_contract reply) (λ _,
  res_bind (bytes_fromhex bid_intent_id) (λ _,
  res_bind (bytes_fromhex ask_intent_id) (λ _,
  res_bind (chain_build reply) (λ _,
  res_bind (chain_sign reply) (λ _,
  res_bind (chain_send reply) (λ tx_hash,
  res_bind (chain_wait reply) (λ status,
  if bool_decide (status = 1) then Ok (Some tx_hash) else Ok None))))))).

(** [AuctionEngine.create_match_onchain]: [except Exception] turns every
    raise into [None]. *)
Definition create_match_onchain (reply : chain_reply)
    (bid_intent_id ask_intent_id : string) (match_price : Z) : option string :=
  match create_match_try reply bid_intent_id ask_intent_id match_price with
  | Ok r => r
  | Raise _ => None
  end.

(** One call of [create_match_onchain] made by the engine, with what it
    returned: [Some tx] is a confirmed match. *)
Record Submission : Type := mkSubmission {
  sub_bid : string;
  sub_ask : string;
  sub_price : Z;
  sub_result : option string
}.

(** ** The matching loop for one asset *)

(** The [while True] loop of [match_continuously].  [chain k] is the
    node's answer to the [k]-th submission of the run.  [None] means that
    the loop was still going when [fuel] iterations were used up. *)
Fixpoint match_loop (fuel : nat) (chain : nat → chain_reply) (k : nat) (asset : string)
  : M (option (list Submission)) :=
  match fuel with
  | O => ret None
  | S fuel' =>
      let* match_result := try_match asset in
      match match_result with
      | Some (bid_entry, ask_entry, match_price) =>
          let tx := create_match_onchain (chain k)
                      (intent_id bid_entry) (intent_id ask_entry) match_price in
          let sub := mkSubmission (intent_id bid_entry) (intent_id ask_entry)
                       match_price tx in
          let* rest := match_loop fuel' chain (S k) asset in
          ret (cons sub <$> rest)
      | None => ret (Some [])
      end
  end.

(** [AuctionEngine.match_continuously].  Every iteration but the last pops
    one bid, so one more iteration than there are bids is enough; that the
    bound is never reached is proved with the loop. *)
Definition match_continuously (chain : nat → chain_reply) (k : nat) (asset : string)
  : M (option (list Submission)) := λ self,
  match_loop (S (length (default [] (bid_books self !! asset)))) chain k asset self.

(** ** Reconciliation *)

(** The value [json.loads] returns.  Numbers are the integral ones. *)
#[local] Unset Elimination Schemes.
Inductive json : Type :=
| JNull
| JBool (b : bool)
| JInt (z : Z)
| JStr (s : string)
| JArr (l : list json)
| JObj (kv : list (string * json)).
#[local] Set Elimination Schemes.

(** The [payload] text column, by what line 220 makes of it: [None] and the
    empty text are falsy; any other text goes through [json.loads], which
    returns a value or raises [JSONDecodeError]. *)
Inductive payload_text : Type :=
| PayloadFalsy
| PayloadText (parsed : option json).

(** [class IntentDB(Base)], the columns the engine reads or filters on. *)
Record IntentDB : Type := mkIntentDB {
  db_intent_id : string;
  db_actor : string;
  db_timestamp : Z;
  db_ap2_mandate_id : string;
  db_settlement_asset : string;
  db_is_active : bool;
  db_is_matched : bool;
  db_payload : payload_text
}.

(** [ArcIndexer]: the rows of table [intents], in the order [query.all()]
    returns them. *)
Record ArcIndexer : Type := mkIndexer { session : list IntentDB }.

(** [ArcIndexer.query_intents]. *)
Definition query_intents (indexer : ArcIndexer)
    (by_actor : option string) (is_active is_matched : option bool) : list IntentDB :=
  let q0 := session indexer in
  let q1 := match by_actor with
            | Some a => if bool_decide (a = "") then q0
                        else filter (λ r, db_actor r = a) q0
            | None => q0
            end in
  let q2 := match is_active with
            | Some b => filter (λ r, db_is_active r = b) q1
            | None => q1
            end in
  match is_matched with
  | Some b => filter (λ r, db_is_matched r = b) q2
  | None => q2
  end.

(** A JSON object is kept as the list of its members; a key is looked up
    from the front. *)
Fixpoint assoc_lookup (k : string) (kv : list (string * json)) : option json :=
  match kv with
  | [] => None
  | (k', v) :: kv' => if bool_decide (k' = k) then Some v else assoc_lookup k kv'
  end.

(** [obj.get(key, dflt)]: only a [dict] has the method. *)
Definition json_get (obj : json) (key : string) (dflt : json) : res json :=
  match obj with
  | JObj kv => Ok (default dflt (assoc_lookup key kv))
  | _ => Raise AttributeError
  end.

(** [price == 0]. [False == 0] holds in Python. *)
Definition json_eq_zero (v : json) : bool :=
  match v with
  | JInt z => bool_decide (z = 0)
  | JBool b => negb b
  | _ => false
  end.

(** [str.lower()], on the ASCII letters. *)
Definition ascii_lower (c : ascii) : ascii :=
  let n := N_of_ascii c in
  if bool_decide (65 <= n <= 90)%N then ascii_of_N (n + 32) else c.

Fixpoint string_lower (s : string) : string :=
  match s with
  | EmptyString => EmptyString
  | String c s' => String (ascii_lower c) (string_lower s')
  end.

(** [v.lower()]: only a [str] has the method. *)
Definition json_lower (v : json) : res string :=
  match v with
  | JStr s => Ok (string_lower s)
  | _ => Raise AttributeError
  end.

(** A JSON value stored in an [int] field of the dataclass.  [bool] is a
    subclass of [int]; any other value is outside the field's declared type
    and is reported as [NotAnInt] instead of being followed into the book.
    The code itself makes no check: it builds the entry with the value as
    it is and goes on.  An entry here holds integers only, so the model ends
    where the code goes on, and every statement about the loader is made
    for rows that do not come to this ([typed_intent], [intent_fields]). *)
Definition json_int (v : json) : res Z :=
  match v with
  | JInt z => Ok z
  | JBool b => Ok (Z.b2z b)
  | _ => Raise NotAnInt
  end.

(** Lines 217-241, the body of the [for] loop up to the construction of the
    entry; [None] is the [continue] of line 228. *)
Definition parse_intent (intent_db : IntentDB) : res (option OrderBookEntry) :=
  res_bind (match db_payload intent_db with
            | PayloadFalsy => Ok (JObj [])
            | PayloadText None => Raise JSONDecodeError
            | PayloadText (Some j) => Ok j
            end) (λ payload,
  res_bind (json_get payload "constraints" (JObj [])) (λ constraints,
  res_bind (json_get constraints "type" (JStr "bid")) (λ intent_type_str,
  res_bind (json_get constraints "price" (JInt 0)) (λ price,
  res_bind (json_get constraints "quantity" (JInt 1)) (λ quantity,
  if json_eq_zero price then Ok None
  else
    res_bind (json_lower intent_type_str) (λ lowered,
    let intent_type := if bool_decide (lowered = "bid") then BID else ASK in
    res_bind (json_int price) (λ p,
    res_bind (json_int quantity) (λ q,
    Ok (Some (mkEntry (db_intent_id intent_db) (db_actor intent_db) p q intent_type
                (db_timestamp intent_db) (db_settlement_asset intent_db)
                (db_ap2_mandate_id intent_db))))))))))).

(** The [for intent_db in intents] loop. *)
Fixpoint load_loop (intents : list IntentDB) : M unit :=
  match intents with
  | [] => ret ()
  | intent_db :: rest =>
      let* parsed := lift (parse_intent intent_db) in
      do (match parsed with
          | None => ret ()
          | Some entry => add_intent entry
          end) in
      load_loop rest
  end.

(** [AuctionEngine.load_intents_from_indexer]. *)
Definition load_intents_from_indexer (indexer : ArcIndexer) : M unit :=
  let intents := query_intents indexer None (Some true) (Some false) in
  load_loop intents.

(** ** One iteration of [run_matching_loop] *)

(** [set(self.bid_books.keys()) | set(self.ask_books.keys())].  Python
    leaves the iteration order of a set open, and for texts it changes from
    one run of the interpreter to the next; here it is the order of
    [elements].  The order decides in which order the assets' matches are
    submitted, not which matches are made or what the books hold afterwards:
    [match_continuously] touches its own asset only. *)
Definition all_assets (self : AuctionEngine) : list string :=
  elements (dom (bid_books self) ∪ dom (ask_books self)).

Fixpoint match_assets (chain : nat → chain_reply) (k : nat) (assets : list string)
  : M (option (list Submission)) :=
  match assets with
  | [] => ret (Some [])
  | asset :: rest =>
      let* r := match_continuously chain k asset in
      match r with
      | None => ret None
      | Some subs =>
          let* r' := match_assets chain (k + length subs) rest in
          ret (app subs <$> r')
      end
  end.

(** The body of the [while True] of [run_matching_loop], without the sleep.
    [except Exception] swallows whatever the loader raised; the matching
    calls raise nothing. *)
Definition run_cycle (indexer : ArcIndexer) (chain : nat → chain_reply) (k : nat)
  : AuctionEngine → option (list Submission) * AuctionEngine := λ self,
  match load_intents_from_indexer indexer self with
  | (Raise _, self') => (Some [], self')
  | (Ok _, self') =>
      match match_assets chain k (all_assets self') self' with
      | (Ok r, self2) => (r, self2)
      | (Raise _, self2) => (Some [], self2)
      end
  end.

(** Successive iterations; the indexer is read afresh each time. *)
Fixpoint run_cycles (indexers : list ArcIndexer) (chain : nat → chain_reply) (k : nat)
    (self : AuctionEngine) : option (list Submission) * AuctionEngine :=
  match indexers with
  | [] => (Some [], self)
  | indexer :: rest =>
      match run_cycle indexer chain k self with
      | (None, self') => (None, self')
      | (Some subs, self') =>
          match run_cycles rest chain (k + length subs) self' with
          | (r, self2) => (app subs <$> r, self2)
          end
      end
  end.

(** ** Order book snapshot *)

(** [sorted(l, key=key)] and [sorted(l, key=key, reverse=True)].  Python's
    sort is stable in both directions, which fixes the result; insertion in
    front of the first element that does not come strictly earlier computes
    it. *)
Definition key_le (reverse : bool) (a b : Z) : bool :=
  if reverse then bool_decide (b <= a) else bool_decide (a <= b).

Fixpoint sorted_insert {A} (key : A → Z) (reverse : bool) (x : A) (l : list A) : list A :=
  match l with
  | [] => [x]
  | y :: l' =>
      if key_le reverse (key x) (key y) then x :: y :: l'
      else y :: sorted_insert key reverse x l'
  end.

Definition py_sorted {A} (key : A → Z) (reverse : bool) (l : list A) : list A :=
  foldr (sorted_insert key reverse) [] l.

Record SnapshotRow : Type := mkRow {
  row_intent_id : string;
  row_price : Z;
  row_quantity : Z
}.

Record Snapshot : Type := mkSnapshot {
  snap_asset : string;
  snap_bids : list SnapshotRow;
  snap_asks : list SnapshotRow;
  snap_spread : option Z
}.

Definition snapshot_row (e : OrderBookEntry) : SnapshotRow :=
  mkRow (intent_id e) (price e) (quantity e).

(** [AuctionEngine.get_order_book_snapshot]. *)
Definition get_order_book_snapshot (asset : string) : M Snapshot :=
  let* self := get_self in
  let bids := take 10 (py_sorted price true (default [] (bid_books self !! asset))) in
  let asks := take 10 (py_sorted price false (default [] (ask_books self !! asset))) in
  ret (mkSnapshot asset (snapshot_row <$> bids) (snapshot_row <$> asks)
         (match bids, asks with
          | b :: _, a :: _ => Some (price a - price b)
          | _, _ => None
          end)).

(** ** The indexer's intent events *)

(** One [IntentRegistered] event, by what the handler reads of its [args];
    the [bytes32] values are kept as the text their [.hex()] gives.  The
    handler also writes the columns [intent_hash] and [valid_until]; nothing
    modelled here reads them, and [IntentDB] above does not carry them.
    [validUntil] is kept in the event all the same: like [timestamp] it is a
    [uint256] that goes into an [Integer] column (see [storable]). *)
Record IntentRegistered : Type := mkRegistered {
  reg_intent_id : string;
  reg_actor : string;
  reg_timestamp : Z;
  reg_valid_until : Z;
  reg_ap2_mandate_id : string;
  reg_settlement_asset : string
}.

(** [self.session.query(IntentDB).filter_by(intent_id=intent_id).first()].
    The session flushes what was added before it queries, so a row added
    earlier in the same loop is found. *)
Definition first_by_id (rows : list IntentDB) (id : string) : option IntentDB :=
  head (filter (λ r, db_intent_id r = id) rows).

(** The row built at lines 202-213; its payload is [json.dumps({})]. *)
Definition registered_row (ev : IntentRegistered) : IntentDB :=
  mkIntentDB (reg_intent_id ev) (reg_actor ev) (reg_timestamp ev)
    (reg_ap2_mandate_id ev) (reg_settlement_asset ev) true false
    (PayloadText (Some (JObj []))).

(** The [for event in events] loop of [_index_intent_registered];
    [session.add] puts the new row after the rows there are.  This is what
    the loop does with events that are [storable]: the integers of any other
    event do not fit the [Integer] columns, the database refuses the row
    when the session flushes it, and the session is of no use afterwards.
    What is stated of a row being in the table assumes [storable]. *)
Fixpoint index_registered_loop (events : list IntentRegistered) (rows : list IntentDB)
  : list IntentDB :=
  match events with
  | [] => rows
  | ev :: rest =>
      match first_by_id rows (reg_intent_id ev) with
      | Some _ => index_registered_loop rest rows
      | None => index_registered_loop rest (rows ++ [registered_row ev])
      end
  end.

(** [ArcIndexer._index_intent_registered].  [entries] is what
    [create_filter(...).get_all_entries()] gives; when it raises, the
    [except] logs and the table stays as it is. *)
Definition _index_intent_registered (entries : res (list IntentRegistered))
    (indexer : ArcIndexer) : ArcIndexer :=
  match entries with
  | Ok events => mkIndexer (index_registered_loop events (session indexer))
  | Raise _ => indexer
  end.

(** [intent = ...filter_by(intent_id=intent_id).first()] followed by an
    assignment to a column of [intent]: the first row with the id is
    changed, and nothing happens when there is none. *)
Fixpoint update_first (id : string) (f : IntentDB → IntentDB) (rows : list IntentDB)
  : list IntentDB :=
  match rows with
  | [] => []
  | r :: rest =>
      if bool_decide (db_intent_id r = id) then f r :: rest
      else r :: update_first id f rest
  end.

(** [intent.is_active = False]. *)
Definition set_inactive (r : IntentDB) : IntentDB :=
  mkIntentDB (db_intent_id r) (db_actor r) (db_timestamp r) (db_ap2_mandate_id r)
    (db_settlement_asset r) false (db_is_matched r) (db_payload r).

(** [intent.is_matched = True]. *)
Definition set_matched (r : IntentDB) : IntentDB :=
  mkIntentDB (db_intent_id r) (db_actor r) (db_timestamp r) (db_ap2_mandate_id r)
    (db_settlement_asset r) (db_is_active r) true (db_payload r).

(** [ArcIndexer._index_intent_cancelled], on the [intentId]s of the events
    (their [actor] is not read). *)
Definition _index_intent_cancelled (entries : res (list string))
    (indexer : ArcIndexer) : ArcIndexer :=
  match entries with
  | Ok ids => mkIndexer (foldl (λ rows id, update_first id set_inactive rows)
                           (session indexer) ids)
  | Raise _ => indexer
  end.

(** [ArcIndexer._index_intent_matched]. *)
Definition _index_intent_matched (entries : res (list string))
    (indexer : ArcIndexer) : ArcIndexer :=
  match entries with
  | Ok ids => mkIndexer (foldl (λ rows id, update_first id set_matched rows)
                           (session indexer) ids)
  | Raise _ => indexer
  end.


(** ** The indexer's match events *)

(** [class MatchDB(Base)], table [matches]. *)
Record MatchDB : Type := mkMatchDB {
  db_match_id : string;
  db_bid_intent_id : string;
  db_ask_intent_id : string;
  db_bidder : string;
  db_asker : string;
  db_match_price : Z;
  db_created_at : Z;
  db_settle_by : Z;
  db_status : string;
  db_ap2_proof_hash : option string
}.

(** One [MatchCreated] event, by its [args], together with what
    [self.w3.eth.get_block(event['blockNumber'])['timestamp']] gives when
    the handler asks for it. *)
Record MatchCreated : Type := mkCreated {
  cre_match_id : string;
  cre_bid_intent_id : string;
  cre_ask_intent_id : string;
  cre_bidder : string;
  cre_asker : string;
  cre_match_price : Z;
  cre_block_timestamp : res Z
}.

(** One [MatchSettled] event. *)
Record MatchSettled : Type := mkSettled {
  stl_match_id : string;
  stl_ap2_proof_hash : string
}.

Definition first_match_by_id (rows : list MatchDB) (id : string) : option MatchDB :=
  head (filter (λ r, db_match_id r = id) rows).

(** The row built at lines 285-295; [ap2_proof_hash] is left to its
    default. *)
Definition created_row (ev : MatchCreated) (block_timestamp : Z) : MatchDB :=
  mkMatchDB (cre_match_id ev) (cre_bid_intent_id ev) (cre_ask_intent_id ev)
    (cre_bidder ev) (cre_asker ev) (cre_match_price ev)
    block_timestamp (block_timestamp + 172800) "pending" None.

(** The [for event in events] loop of [_index_match_created].  The check
    for a row there is comes before [get_block]; when [get_block] raises,
    the loop is left for the [except], and the rows added so far stay in the
    session.  As with [index_registered_loop], a [matchPrice] or a block
    timestamp that does not fit an [Integer] column is refused by the
    database when the row is flushed; the loop is followed here for values
    that fit. *)
Fixpoint index_created_loop (events : list MatchCreated) (rows : list MatchDB)
  : list MatchDB :=
  match events with
  | [] => rows
  | ev :: rest =>
      match first_match_by_id rows (cre_match_id ev) with
      | Some _ => index_created_loop rest rows
      | None =>
          match cre_block_timestamp ev with
          | Ok block_timestamp =>
              index_created_loop rest (rows ++ [created_row ev block_timestamp])
          | Raise _ => rows
          end
      end
  end.

(** [ArcIndexer._index_match_created], on table [matches]. *)
Definition _index_match_created (entries : res (list MatchCreated))
    (matches : list MatchDB) : list MatchDB :=
  match entries with
  | Ok events => index_created_loop events matches
  | Raise _ => matches
  end.

(** [match.status = "settled"] and
    [match.ap2_proof_hash = args['ap2ProofHash'].hex()]. *)
Definition settle (proof_hash : string) (r : MatchDB) : MatchDB :=
  mkMatchDB (db_match_id r) (db_bid_intent_id r) (db_ask_intent_id r)
    (db_bidder r) (db_asker r) (db_match_price r)
    (db_created_at r) (db_settle_by r) "settled" (Some proof_hash).

Fixpoint update_first_match (id : string) (f : MatchDB → MatchDB) (rows : list MatchDB)
  : list MatchDB :=
  match rows with
  | [] => []
  | r :: rest =>
      if bool_decide (db_match_id r = id) then f r :: rest
      else r :: update_first_match id f rest
  end.

(** [ArcIndexer._index_match_settled], on table [matches]. *)
Definition _index_match_settled (entries : res (list MatchSettled))
    (matches : list MatchDB) : list MatchDB :=
  match entries with
  | Ok events =>
      foldl (λ rows ev,
               update_first_match (stl_match_id ev) (settle (stl_ap2_proof_hash ev)) rows)
        matches events
  | Raise _ => matches
  end.

(** Lines 175-176 of [index_events], round after round. *)
Definition index_match_rounds
    (rounds : list (res (list MatchCreated) * res (list MatchSettled)))
    (matches : list MatchDB) : list MatchDB :=
  foldl (λ rows round, _index_match_settled round.2 (_index_match_created round.1 rows))
    matches rounds.

(** * Specification vocabulary *)

(** ** Heap order

    [key] is the priority a comparison stands for: an item may not sit
    below one of larger key.  Position [(j - 1) / 2] is the parent of
    position [j]. *)
Section HeapOrder.
Context {A : Type}.
Variable key : A → Z.

Definition ordered (heap : list A) (i j : nat) : Prop :=
  ∀ a b, heap !! i = Some a → heap !! j = Some b → key a <= key b.

Definition heap_ordered (heap : list A) : Prop :=
  ∀ j, (0 < j)%nat → ordered heap ((j - 1) / 2) j.

(** Invariant of the loop of [_siftdown]: position [pos] is a hole that
    [newitem] is to fill. *)
Definition down_inv (heap : list A) (pos : nat) (newitem : A) : Prop :=
  (∀ j, (0 < j)%nat → j ≠ pos → ordered heap ((j - 1) / 2) j)
  ∧ (∀ y, heap !! pos = Some y → key newitem <= key y)
  ∧ (∀ j, (0 < pos)%nat → (0 < j)%nat → ((j - 1) / 2)%nat = pos →
          ordered heap ((pos - 1) / 2) j).

(** Invariant of the loop of [_siftup]: the hole at [pos] moves down. *)
Definition up_inv (heap : list A) (pos : nat) : Prop :=
  (∀ j, (0 < j)%nat → ((j - 1) / 2)%nat ≠ pos → ordered heap ((j - 1) / 2) j)
  ∧ (∀ j, (0 < pos)%nat → (0 < j)%nat → ((j - 1) / 2)%nat = pos →
          ordered heap ((pos - 1) / 2) j).
End HeapOrder.

(** The engine as a call leaves it. *)
Definition state_after {A} (m : M A) (self : AuctionEngine) : AuctionEngine :=
  (m self).2.

(** The engine after [n] successive calls of [try_match] on [asset]. *)
Definition after_matches (asset : string) (n : nat) (self : AuctionEngine)
  : AuctionEngine :=
  Nat.iter n (state_after (try_match asset)) self.

(** ** Books

    A bid heap is ordered by falling price, an ask heap by rising price. *)
Definition bid_key (e : OrderBookEntry) : Z := - price e.
Definition ask_key (e : OrderBookEntry) : Z := price e.
Definition is_bid (e : OrderBookEntry) : Prop := intent_type e = BID.
Definition is_ask (e : OrderBookEntry) : Prop := intent_type e = ASK.

(** The list stored for [asset], the empty list when there is none. *)
Definition bids_of (self : AuctionEngine) (asset : string) : list OrderBookEntry :=
  default [] (bid_books self !! asset).
Definition asks_of (self : AuctionEngine) (asset : string) : list OrderBookEntry :=
  default [] (ask_books self !! asset).

Definition books_ok (self : AuctionEngine) : Prop :=
  (∀ asset heap, bid_books self !! asset = Some heap →
     Forall is_bid heap ∧ heap_ordered bid_key heap)
  ∧ (∀ asset heap, ask_books self !! asset = Some heap →
     Forall is_ask heap ∧ heap_ordered ask_key heap).

(** States the engine gets into: it starts with empty dictionaries, and
    its books are only ever touched by [add_intent] and [try_match]. *)
Inductive reachable : AuctionEngine → Prop :=
| reach_new : reachable new_engine
| reach_add entry self r self' :
    reachable self → add_intent entry self = (r, self') → reachable self'
| reach_match asset self r self' :
    reachable self → try_match asset self = (r, self') → reachable self'.

(** Price-time priority among bids, as the specification words it: the bid
    that is matched has the highest price, and among the bids at that price
    the earliest timestamp. *)
Definition price_time_priority_bids : Prop :=
  ∀ self asset bid_entry ask_entry match_price self',
    reachable self →
    try_match asset self = (Ok (Some (bid_entry, ask_entry, match_price)), self') →
    ∀ e, e ∈ bids_of self asset →
      price e < price bid_entry
      ∨ (price e = price bid_entry ∧ timestamp bid_entry <= timestamp e).

(** ** Sorted lists and crossable pairs *)

Definition key_ordered {A} (key : A → Z) (reverse : bool) (a b : A) : Prop :=
  key_le reverse (key a) (key b) = true.

(** The number of matches a book admits: pair the bid prices from the
    highest down with the ask prices from the lowest up, and count the
    leading pairs that cross. *)
Fixpoint count_crossing (bid_prices ask_prices : list Z) : nat :=
  match bid_prices, ask_prices with
  | b :: bs, a :: as_ =>
      if bool_decide (b >= a) then S (count_crossing bs as_) else 0%nat
  | _, _ => 0%nat
  end.

Definition crossable_pairs (self : AuctionEngine) (asset : string) : nat :=
  count_crossing (py_sorted id true (price <$> bids_of self asset))
                 (py_sorted id false (price <$> asks_of self asset)).

(** ** Reconciliation *)

(** The intents the loader asks the indexer for. *)
Definition active_unmatched (indexer : ArcIndexer) : list IntentDB :=
  filter (λ r, db_is_active r = true ∧ db_is_matched r = false) (session indexer).

(** The entries the loader builds from its input, in input order. *)
Definition built_entries (intents : list IntentDB) : list OrderBookEntry :=
  omap (λ intent_db, match parse_intent intent_db with
                     | Ok (Some entry) => Some entry
                     | _ => None
                     end) intents.

(** The entries of one side and one asset. *)
Definition side_entries (side : IntentType) (asset : string)
    (entries : list OrderBookEntry) : list OrderBookEntry :=
  filter (λ e, intent_type e = side ∧ settlement_asset e = asset) entries.

(** The loader replaces the books, as the specification words it. *)
Definition loader_replaces : Prop :=
  ∀ indexer self self',
    load_intents_from_indexer indexer self = (Ok (), self') →
    ∀ asset,
      bids_of self' asset ≡ₚ side_entries BID asset (built_entries (active_unmatched indexer))
      ∧ asks_of self' asset ≡ₚ side_entries ASK asset (built_entries (active_unmatched indexer)).

(** No entry with a price of zero or less gets into the books, as the
    specification words it. *)
Definition loader_skips_nonpositive : Prop :=
  ∀ indexer r self',
    load_intents_from_indexer indexer new_engine = (r, self') →
    ∀ asset e, e ∈ bids_of self' asset ++ asks_of self' asset → 0 < price e.

(** A well-formed intent: its payload is empty or a JSON object whose
    [constraints], when present, is an object with a textual [type] and
    integral [price] and [quantity], each of which may be missing.  The
    result is the three values with the defaults of the loader filled in. *)
Definition intent_fields (intent_db : IntentDB) : option (string * Z * Z) :=
  match db_payload intent_db with
  | PayloadFalsy => Some ("bid"%string, 0, 1)
  | PayloadText (Some (JObj kv)) =>
      match default (JObj []) (assoc_lookup "constraints" kv) with
      | JObj c =>
          match default (JStr "bid") (assoc_lookup "type" c),
                default (JInt 0) (assoc_lookup "price" c),
                default (JInt 1) (assoc_lookup "quantity" c) with
          | JStr ty, JInt p, JInt q => Some (ty, p, q)
          | _, _, _ => None
          end
      | _ => None
      end
  | _ => None
  end.

(** What becomes of a well-formed intent: nothing when its price is zero,
    otherwise an entry, a bid when its type reads "bid" in any letter case
    and an ask for every other text. *)
Definition intent_entry (intent_db : IntentDB) : option OrderBookEntry :=
  match intent_fields intent_db with
  | Some (ty, p, q) =>
      if bool_decide (p = 0) then None
      else Some (mkEntry (db_intent_id intent_db) (db_actor intent_db) p q
                   (if bool_decide (string_lower ty = "bid") then BID else ASK)
                   (db_timestamp intent_db) (db_settlement_asset intent_db)
                   (db_ap2_mandate_id intent_db))
  | None => None
  end.

(** ** Cycles *)

(** Every entry the engine holds, over both sides and all assets. *)
Definition book_entries (self : AuctionEngine) : list OrderBookEntry :=
  concat (map_to_list (bid_books self)).*2 ++ concat (map_to_list (ask_books self)).*2.

(** The submissions the node confirmed. *)
Definition confirmed (subs : list Submission) : list Submission :=
  filter (λ sub, is_Some (sub_result sub)) subs.

(** The intent ids the submissions consume: the bid and the ask of each. *)
Definition consumed_ids (subs : list Submission) : list string :=
  concat ((λ sub, [sub_bid sub; sub_ask sub]) <$> subs).

(** No double match, as the specification words it: over any number of
    cycles of a new engine, with stores in which [intent_id] is a key, no id
    is consumed by two confirmed matches. *)
Definition no_double_match : Prop :=
  ∀ indexers chain subs self',
    Forall (λ indexer, NoDup (db_intent_id <$> session indexer)) indexers →
    run_cycles indexers chain 0 new_engine = (Some subs, self') →
    NoDup (consumed_ids (confirmed subs)).

(** ** Further vocabulary *)

(** Every list is filed under the side and the asset of its entries. *)
Definition books_filed (self : AuctionEngine) : Prop :=
  (∀ asset heap, bid_books self !! asset = Some heap →
     Forall (λ e, intent_type e = BID ∧ settlement_asset e = asset) heap)
  ∧ (∀ asset heap, ask_books self !! asset = Some heap →
     Forall (λ e, intent_type e = ASK ∧ settlement_asset e = asset) heap).

(** No bid of the asset reaches the price of any of its asks. *)
Definition uncrossed (self : AuctionEngine) (asset : string) : Prop :=
  ∀ b a, b ∈ bids_of self asset → a ∈ asks_of self asset → price b < price a.

(** What a submission says of the match, without the answer of the node. *)
Definition sub_triple (sub : Submission) : string * string * Z :=
  (sub_bid sub, sub_ask sub, sub_price sub).

(** The table keeps [intent_id] a key. *)
Definition ids_unique (indexer : ArcIndexer) : Prop :=
  NoDup (db_intent_id <$> session indexer).

(** [m'] is the match [m], stored as settled. *)
Definition settled_as (m m' : MatchDB) : Prop :=
  db_match_id m' = db_match_id m
  ∧ db_bid_intent_id m' = db_bid_intent_id m
  ∧ db_ask_intent_id m' = db_ask_intent_id m
  ∧ db_match_price m' = db_match_price m
  ∧ db_status m' = "settled"%string.

(** An intent is typed when the price and the quantity of its constraints,
    where the payload gives them, are integers, as the dataclass declares
    them.  On a typed intent the loader raises where [parse_intent] raises
    and builds the entry that [parse_intent] builds. *)
Definition json_is_int (v : json) : bool :=
  match v with
  | JInt _ | JBool _ => true
  | _ => false
  end.

Definition typed_intent (intent_db : IntentDB) : bool :=
  match db_payload intent_db with
  | PayloadText (Some (JObj kv)) =>
      match default (JObj []) (assoc_lookup "constraints" kv) with
      | JObj c =>
          json_is_int (default (JInt 0) (assoc_lookup "price" c))
          && json_is_int (default (JInt 1) (assoc_lookup "quantity" c))
      | _ => true
      end
  | _ => true
  end.

(** The filters of [query_intents] on one row. *)
Definition passes (by_actor : option string) (is_active is_matched : option bool)
    (row : IntentDB) : bool :=
  match by_actor with
  | Some a => bool_decide (a = "") || bool_decide (db_actor row = a)
  | None => true
  end
  && match is_active with
     | Some b => bool_decide (db_is_active row = b)
     | None => true
     end
  && match is_matched with
     | Some b => bool_decide (db_is_matched row = b)
     | None => true
     end.

(** SQLite keeps an [Integer] column in 64 bits with a sign.  An event is
    storable when the two integers the handler writes fit. *)
Definition fits_integer_column (z : Z) : Prop := - 2 ^ 63 <= z < 2 ^ 63.

Definition storable (ev : IntentRegistered) : Prop :=
  fits_integer_column (reg_timestamp ev) ∧ fits_integer_column (reg_valid_until ev).

(** * Scenarios

    The concrete books, stores and node answers the examples below run on. *)

(** The scenario of the specification: a bid at 10100 and an ask at 10000. *)
Definition bid_10100 : OrderBookEntry :=
  mkEntry "b1" "buyer" 10100 1 BID 1 "BTC" "mandate".

Definition ask_10000 : OrderBookEntry :=
  mkEntry "a1" "seller" 10000 1 ASK 2 "BTC" "mandate".

Definition book_10100_10000 : AuctionEngine :=
  state_after (add_intent ask_10000) (state_after (add_intent bid_10100) new_engine).

(** The scenario of the specification: bids at 9800 and 10000, one ask at
    9900. *)
Definition bid_9800 : OrderBookEntry :=
  mkEntry "b1" "buyer1" 9800 1 BID 1 "BTC" "mandate".

Definition bid_10000 : OrderBookEntry :=
  mkEntry "b2" "buyer2" 10000 1 BID 2 "BTC" "mandate".

Definition ask_9900 : OrderBookEntry :=
  mkEntry "a1" "seller" 9900 1 ASK 3 "BTC" "mandate".

Definition book_9800_10000_9900 : AuctionEngine :=
  state_after (add_intent ask_9900)
    (state_after (add_intent bid_10000)
       (state_after (add_intent bid_9800) new_engine)).

(** Four bids at one price, entered in the order of their timestamps, two
    asks at that price, and one match made. *)
Definition tie_bid (id : string) (ts : Z) : OrderBookEntry :=
  mkEntry id "buyer" 100 1 BID ts "BTC" "mandate".

Definition tie_ask (id : string) (ts : Z) : OrderBookEntry :=
  mkEntry id "seller" 100 1 ASK ts "BTC" "mandate".

Definition tie_book : AuctionEngine :=
  state_after (try_match "BTC")
    (state_after (add_intent (tie_ask "a2" 6))
       (state_after (add_intent (tie_ask "a1" 5))
          (state_after (add_intent (tie_bid "b4" 4))
             (state_after (add_intent (tie_bid "b3" 3))
                (state_after (add_intent (tie_bid "b2" 2))
                   (state_after (add_intent (tie_bid "b1" 1)) new_engine)))))).

(** Every submission acknowledged with status 1. *)
Definition chain_always_ok (n : nat) : chain_reply :=
  mkReply (Ok ()) (Ok ()) (Ok ()) (Ok "ff") (Ok 1).

(** Intent rows on BTC, active and unmatched, with a type and a price. *)
Definition constraints_payload (ty : string) (p : Z) : payload_text :=
  PayloadText (Some (JObj [("constraints"%string,
                            JObj [("type"%string, JStr ty); ("price"%string, JInt p)])])).

Definition intent_row (id ty : string) (p : Z) : IntentDB :=
  mkIntentDB id "actor" 7 "mandate" "BTC" true false (constraints_payload ty p).

Definition indexer_one_bid : ArcIndexer := mkIndexer [intent_row "a1" "bid" 100].

(** A negative price, a zero price, a type that is neither "bid" nor
    "ask", and a matched intent. *)
Definition indexer_mixed : ArcIndexer :=
  mkIndexer [intent_row "a1" "BID" (-5); intent_row "b2" "bid" 0;
             intent_row "c3" "hold" 40;
             mkIntentDB "d4" "actor" 7 "mandate" "BTC" true true
               (constraints_payload "bid" 90)].

(** A payload that [json.loads] rejects, followed by a well-formed bid. *)
Definition indexer_malformed : ArcIndexer :=
  mkIndexer [mkIntentDB "e5" "actor" 7 "mandate" "BTC" true false (PayloadText None);
             intent_row "a1" "bid" 100].

(** First cycle: the store holds one bid, [a1] at 100, and nothing to match
    it with.  Second cycle: [a1] is still active and unmatched, and two asks
    have come in, [c3] at 50 and [d4] at 60. *)
Definition store_cycle_1 : ArcIndexer := mkIndexer [intent_row "a1" "bid" 100].

Definition store_cycle_2 : ArcIndexer :=
  mkIndexer [intent_row "a1" "bid" 100; intent_row "c3" "ask" 50; intent_row "d4" "ask" 60].

(** A book with an ask at 40 and a bid at 90 on BTC and a bid on ETH. *)
Definition book_two_assets : AuctionEngine :=
  state_after (add_intent (mkEntry "e1" "buyer" 7 1 BID 3 "ETH" "mandate"))
    (state_after (add_intent (mkEntry "b1" "buyer" 90 1 BID 2 "BTC" "mandate"))
       (state_after (add_intent (mkEntry "a1" "seller" 40 1 ASK 1 "BTC" "mandate"))
          new_engine)).

(** A table of three rows: a bid and an ask that cross, and a cancelled row. *)
Definition indexer_three_rows : ArcIndexer :=
  mkIndexer [intent_row "a1" "bid" 100; intent_row "c3" "ask" 50;
             mkIntentDB "f6" "actor" 7 "mandate" "BTC" false false
               (constraints_payload "ask" 10)].

(** A match as the handler stores it, and two events for matches not yet
    stored, the node failing on the first. *)
Definition match_m1 : MatchDB :=
  mkMatchDB "m1" "b1" "a1" "buyer" "seller" 75 1000 173800 "pending" None.

Definition created_m2_fails : MatchCreated :=
  mkCreated "m2" "b2" "a2" "buyer" "seller" 80 (Raise ConnectionError).

Definition created_m3 : MatchCreated :=
  mkCreated "m3" "b3" "a3" "buyer" "seller" 90 (Ok 2000).

(** * Facts about [heapq] *)

Section HeapqFacts.
Context {A : Type}.
Variable lt : A → A → bool.

Lemma getitem_Some (heap : list A) i x :
  heap !! i = Some x → Heapq.getitem heap i = Ok x.
Proof. unfold Heapq.getitem. by intros ->. Qed.

Lemma setitem_lt (heap : list A) i x :
  (i < length heap)%nat → Heapq.setitem heap i x = Ok (<[i:=x]> heap).
Proof. unfold Heapq.setitem. intros. by rewrite decide_True. Qed.

Lemma shiftr_1 n : Nat.shiftr n 1 = (n / 2)%nat.
Proof. change (Nat.shiftr n 1) with (Nat.div2 n). apply Nat.div2_div. Qed.

Lemma parent_lt pos : (0 < pos)%nat → ((pos - 1) / 2 < pos)%nat.
Proof.
  intros. assert (2 * ((pos - 1) / 2) <= pos - 1)%nat; [|lia].
  apply Nat.Div0.mul_div_le.
Qed.

Lemma siftdown_loop_unfold newitem startpos (heap : list A) pos :
  Heapq.siftdown_loop lt newitem startpos heap pos =
  if decide (startpos < pos)%nat then
    match Heapq.getitem heap ((pos - 1) / 2) with
    | Raise e => Raise e
    | Ok parent =>
        if lt newitem parent then
          match Heapq.setitem heap pos parent with
          | Raise e => Raise e
          | Ok heap' => Heapq.siftdown_loop lt newitem startpos heap' ((pos - 1) / 2)
          end
        else Heapq.setitem heap pos newitem
    end
  else Heapq.setitem heap pos newitem.
Proof.
  rewrite Heapq.siftdown_loop_equation_1.
  destruct (decide (startpos < pos)%nat);
    unfold Heapq.siftdown_loop_unfold_clause_1; rewrite ?shiftr_1; reflexivity.
Qed.

(** Exchanging the values written at two positions. *)
Lemma insert_cons_swap (l : list A) j a b :
  (j < length l)%nat → a :: <[j:=b]> l ≡ₚ b :: <[j:=a]> l.
Proof.
  revert j. induction l as [|c l IH]; intros j Hj; simpl in *; [lia|].
  destruct j as [|j]; simpl.
  - apply perm_swap.
  - rewrite (perm_swap c a), (perm_swap c b). f_equiv. apply IH. lia.
Qed.

Lemma insert_insert_swap (l : list A) i j p x :
  i ≠ j → (i < length l)%nat → l !! j = Some p →
  <[j:=x]> (<[i:=p]> l) ≡ₚ <[i:=x]> l.
Proof.
  revert i j. induction l as [|c l IH]; intros i j Hij Hi Hj; simpl in *; [lia|].
  destruct i as [|i], j as [|j]; simpl in *; try done.
  - rewrite insert_cons_swap by (by eapply lookup_lt_Some).
    by rewrite list_insert_id.
  - inversion Hj; subst. apply insert_cons_swap. lia.
  - f_equiv. apply IH; [lia|lia|done].
Qed.

Lemma siftdown_loop_perm newitem startpos (heap : list A) pos :
  (pos < length heap)%nat →
  ∃ heap', Heapq.siftdown_loop lt newitem startpos heap pos = Ok heap'
           ∧ heap' ≡ₚ <[pos:=newitem]> heap.
Proof.
  revert heap. induction pos as [pos IH] using lt_wf_ind. intros heap Hpos.
  rewrite siftdown_loop_unfold.
  destruct (decide (startpos < pos)%nat) as [Hs|Hs];
    [|rewrite setitem_lt by done; eauto].
  assert (Hp : ((pos - 1) / 2 < pos)%nat) by (apply parent_lt; lia).
  destruct (lookup_lt_is_Some_2 heap ((pos - 1) / 2)) as [parent Hparent]; [lia|].
  rewrite (getitem_Some _ _ _ Hparent).
  destruct (lt newitem parent); [|rewrite setitem_lt by done; eauto].
  rewrite setitem_lt by done.
  destruct (IH _ Hp (<[pos:=parent]> heap)) as (heap' & -> & Hperm).
  { rewrite length_insert. lia. }
  eexists; split; [done|]. rewrite Hperm.
  apply insert_insert_swap; [lia|done|done].
Qed.

Lemma siftdown_perm (heap : list A) startpos pos :
  (pos < length heap)%nat →
  ∃ heap', Heapq._siftdown lt heap startpos pos = Ok heap' ∧ heap' ≡ₚ heap.
Proof.
  intros Hpos. unfold Heapq._siftdown.
  destruct (lookup_lt_is_Some_2 heap pos Hpos) as [newitem Hn].
  rewrite (getitem_Some _ _ _ Hn). simpl.
  destruct (siftdown_loop_perm newitem startpos heap pos Hpos) as (heap' & -> & Hp).
  eexists; split; [done|]. by rewrite Hp, list_insert_id.
Qed.

Lemma smaller_child_total (heap : list A) childpos :
  (childpos < length heap)%nat →
  ∃ c, Heapq.smaller_child lt heap childpos (length heap) = Ok c
       ∧ (c = childpos ∨ c = S childpos) ∧ (c < length heap)%nat.
Proof.
  intros Hc. unfold Heapq.smaller_child.
  destruct (decide (childpos + 1 < length heap)%nat) as [Hr|Hr]; [|eauto].
  destruct (lookup_lt_is_Some_2 heap childpos Hc) as [c Hcv].
  destruct (lookup_lt_is_Some_2 heap (childpos + 1) Hr) as [r Hrv].
  rewrite (getitem_Some _ _ _ Hcv), (getitem_Some _ _ _ Hrv).
  destruct (negb (lt c r)); eexists; (split; [done|]); split; auto with lia.
Qed.

Lemma siftup_loop_stop endpos (heap : list A) pos :
  ¬ (2 * pos + 1 < endpos)%nat →
  Heapq.siftup_loop lt endpos heap pos = Ok (heap, pos).
Proof.
  intros H. rewrite Heapq.siftup_loop_equation_1.
  destruct (decide (2 * pos + 1 < endpos)%nat); [lia|done].
Qed.

Lemma siftup_loop_step endpos (heap : list A) pos c :
  (2 * pos + 1 < endpos)%nat →
  Heapq.smaller_child lt heap (2 * pos + 1) endpos = Ok c →
  Heapq.siftup_loop lt endpos heap pos =
  match Heapq.getitem heap c with
  | Raise e => Raise e
  | Ok child =>
      match Heapq.setitem heap pos child with
      | Raise e => Raise e
      | Ok heap' => Heapq.siftup_loop lt endpos heap' c
      end
  end.
Proof.
  intros H Hc. rewrite Heapq.siftup_loop_equation_1.
  destruct (decide (2 * pos + 1 < endpos)%nat); [|lia].
  unfold Heapq.siftup_loop_unfold_clause_1.
  destruct (Heapq.inspect _) as [[c'|e] Hc'];
    unfold Heapq.siftup_loop_unfold_clause_1_clause_1; [|congruence].
  replace c' with c by congruence. reflexivity.
Qed.

(** The loop of [_siftup] ends on a leaf, and putting any value there
    gives back the multiset obtained by putting it at the start. *)
Lemma siftup_loop_perm (heap : list A) pos :
  (pos < length heap)%nat →
  ∃ heap1 pos1,
    Heapq.siftup_loop lt (length heap) heap pos = Ok (heap1, pos1)
    ∧ length heap1 = length heap
    ∧ (pos1 < length heap)%nat
    ∧ (length heap <= 2 * pos1 + 1)%nat
    ∧ ∀ x, <[pos1:=x]> heap1 ≡ₚ <[pos:=x]> heap.
Proof.
  remember (length heap - pos)%nat as n eqn:Hn.
  revert heap pos Hn. induction n as [n IH] using lt_wf_ind.
  intros heap pos Hn Hpos.
  destruct (decide (2 * pos + 1 < length heap)%nat) as [Hlt|Hge].
  - destruct (smaller_child_total heap (2 * pos + 1) Hlt) as (c & Hc & Hcases & Hclt).
    rewrite (siftup_loop_step _ _ _ _ Hlt Hc).
    destruct (lookup_lt_is_Some_2 heap c Hclt) as [child Hchild].
    rewrite (getitem_Some _ _ _ Hchild), setitem_lt by done.
    destruct (IH (length heap - c)%nat ltac:(lia) (<[pos:=child]> heap) c)
      as (heap1 & pos1 & Heq & Hlen & Hp1 & Hleaf & Hperm).
    { by rewrite length_insert. }
    { by rewrite length_insert. }
    rewrite length_insert in *.
    exists heap1, pos1. repeat split; try done.
    intros x. rewrite Hperm. apply insert_insert_swap; [lia|done|done].
  - rewrite siftup_loop_stop by done. exists heap, pos. repeat split; try done. lia.
Qed.

Lemma siftup_perm (heap : list A) :
  (0 < length heap)%nat →
  ∃ heap', Heapq._siftup lt heap 0 = Ok heap' ∧ heap' ≡ₚ heap.
Proof.
  intros Hpos. unfold Heapq._siftup.
  destruct (lookup_lt_is_Some_2 heap 0 Hpos) as [newitem Hn].
  rewrite (getitem_Some _ _ _ Hn). simpl.
  destruct (siftup_loop_perm heap 0 Hpos) as (heap1 & pos1 & -> & Hlen & Hp1 & _ & Hperm).
  simpl. rewrite setitem_lt by lia. simpl.
  destruct (siftdown_perm (<[pos1:=newitem]> heap1) 0 pos1) as (heap' & -> & Hp).
  { rewrite length_insert. lia. }
  eexists; split; [done|]. by rewrite Hp, Hperm, list_insert_id.
Qed.

(** [heappush] never raises and adds exactly the pushed item. *)
Lemma heappush_perm (heap : list A) item :
  ∃ heap', Heapq.heappush lt heap item = Ok heap' ∧ heap' ≡ₚ item :: heap.
Proof.
  unfold Heapq.heappush.
  destruct (siftdown_perm (heap ++ [item]) 0 (length (heap ++ [item]) - 1))
    as (heap' & -> & Hp).
  { rewrite length_app. simpl. lia. }
  eexists; split; [done|]. rewrite Hp. by rewrite Permutation_app_comm.
Qed.

Lemma last_removelast (heap : list A) x :
  last heap = Some x → heap = removelast heap ++ [x].
Proof.
  intros Hl. destruct (decide (heap = [])) as [->|Hne]; [done|].
  rewrite (app_removelast_last x Hne) at 1. f_equal. f_equal.
  rewrite last_lookup in Hl. clear Hne.
  induction heap as [|a [|b l] IH]; simpl in *; [done|congruence|].
  apply IH. done.
Qed.

(** [heappop] raises only on the empty list; otherwise it returns the
    item at position 0 and keeps exactly the others. *)
Lemma heappop_perm (heap : list A) r0 :
  heap !! 0%nat = Some r0 →
  ∃ heap', Heapq.heappop lt heap = Ok (r0, heap') ∧ heap ≡ₚ r0 :: heap'.
Proof.
  intros H0. unfold Heapq.heappop.
  destruct (last heap) as [lastelt|] eqn:Hlast.
  2: { apply last_None in Hlast. by subst. }
  pose proof (last_removelast _ _ Hlast) as Heq.
  destruct (removelast heap) as [|a t] eqn:Hrm.
  - simpl in Heq. subst heap. simpl in H0. inversion H0; subst. eauto.
  - assert (a = r0) as -> by (rewrite Heq in H0; simpl in H0; congruence).
    cbn [Heapq.getitem lookup list_lookup res_bind].
    rewrite setitem_lt by (simpl; lia). simpl.
    destruct (siftup_perm (lastelt :: t)) as (heap' & -> & Hp); [simpl; lia|].
    simpl. eexists; split; [done|].
    rewrite Heq, Hp. simpl. f_equiv. symmetry. apply Permutation_cons_append.
Qed.

Lemma heappop_nil : Heapq.heappop lt [] = Raise IndexError.
Proof. reflexivity. Qed.
End HeapqFacts.

Ltac div2_facts :=
  repeat match goal with
  | |- context [(?n / 2)%nat] =>
      lazymatch goal with
      | _ : n = (2 * (n / 2) + n mod 2)%nat |- _ => fail
      | _ => pose proof (Nat.div_mod_eq n 2);
             pose proof (Nat.mod_upper_bound n 2 ltac:(lia))
      end
  | _ : context [(?n / 2)%nat] |- _ =>
      lazymatch goal with
      | _ : n = (2 * (n / 2) + n mod 2)%nat |- _ => fail
      | _ => pose proof (Nat.div_mod_eq n 2);
             pose proof (Nat.mod_upper_bound n 2 ltac:(lia))
      end
  end.
Ltac heap_lia := div2_facts; lia.

Ltac same_lookup :=
  repeat match goal with
  | H : Some ?x = Some ?y |- _ =>
      assert (x = y) by congruence; clear H; first [subst x | subst y]
  | H1 : ?t = Some ?x, H2 : ?t = Some ?y |- _ =>
      assert (y = x) by congruence; clear H2; first [subst y | subst x]
  end.

Section HeapOrderFacts.
Context {A : Type}.
Variable lt : A → A → bool.
Variable key : A → Z.
Variable good : A → Prop.
Hypothesis lt_key : ∀ a b, good a → good b → lt a b = bool_decide (key a < key b).

Lemma heap_ordered_nil : heap_ordered key [].
Proof. intros j _ a b Ha. done. Qed.

(** The item at position 0 has the least key. *)
Lemma heap_ordered_root (heap : list A) r :
  heap_ordered key heap → heap !! 0%nat = Some r →
  ∀ i y, heap !! i = Some y → key r <= key y.
Proof.
  intros Hh Hr i. induction i as [i IH] using lt_wf_ind. intros y Hy.
  destruct (decide (i = 0%nat)) as [->|Hi]; [replace y with r by congruence; lia|].
  assert (Hp : ((i - 1) / 2 < i)%nat) by heap_lia.
  destruct (lookup_lt_is_Some_2 heap ((i - 1) / 2)) as [p Hpv].
  { apply lookup_lt_Some in Hy. lia. }
  specialize (IH _ Hp p Hpv).
  specialize (Hh i ltac:(lia) p y Hpv Hy). lia.
Qed.

Lemma siftdown_loop_ordered newitem (heap heap' : list A) pos :
  Forall good heap → good newitem → (pos < length heap)%nat →
  down_inv key heap pos newitem →
  Heapq.siftdown_loop lt newitem 0 heap pos = Ok heap' →
  heap_ordered key heap'.
Proof.
  revert heap. induction pos as [pos IH] using lt_wf_ind.
  intros heap Hgood Hx Hpos (Ha & Hb & Hc).
  rewrite siftdown_loop_unfold.
  destruct (lookup_lt_is_Some_2 heap pos Hpos) as [old Hold].
  assert (Hfill : heap_ordered key (<[pos:=newitem]> heap)
                  ∨ (0 < pos)%nat ∧ ∃ p, heap !! ((pos - 1) / 2)%nat = Some p
                                         ∧ key newitem < key p).
  { destruct (decide (0 < pos)%nat) as [Hs|Hs].
    - destruct (lookup_lt_is_Some_2 heap ((pos - 1) / 2)) as [p Hp]; [heap_lia|].
      destruct (decide (key newitem < key p)); [right; eauto|left].
      intros j Hj a b Hav Hbv.
      destruct (decide (j = pos)) as [->|Hjp].
      + rewrite list_lookup_insert_eq in Hbv by done.
        rewrite list_lookup_insert_ne in Hav by heap_lia. same_lookup. lia.
      + rewrite list_lookup_insert_ne in Hbv by done.
        destruct (decide (((j - 1) / 2)%nat = pos)) as [Hpj|Hpj].
        * rewrite Hpj, list_lookup_insert_eq in Hav by done. same_lookup.
          specialize (Hb _ Hold). specialize (Ha j Hj Hjp old b).
          rewrite Hpj in Ha. specialize (Ha Hold Hbv). lia.
        * rewrite list_lookup_insert_ne in Hav by done. by eapply Ha.
    - left. assert (pos = 0%nat) as -> by lia.
      intros j Hj a b Hav Hbv.
      rewrite list_lookup_insert_ne in Hbv by lia.
      destruct (decide (((j - 1) / 2)%nat = 0%nat)) as [Hpj|Hpj].
      + rewrite Hpj, list_lookup_insert_eq in Hav by done. same_lookup.
        specialize (Hb _ Hold). specialize (Ha j Hj ltac:(lia) old b).
        rewrite Hpj in Ha. specialize (Ha Hold Hbv). lia.
      + rewrite list_lookup_insert_ne in Hav by done. eapply Ha; [done|lia|done..]. }
  destruct (decide (0 < pos)%nat) as [Hs|Hs].
  2: { rewrite setitem_lt by done. intros [= <-].
       destruct Hfill as [?|[? _]]; [done|lia]. }
  destruct (lookup_lt_is_Some_2 heap ((pos - 1) / 2)) as [p Hp]; [heap_lia|].
  rewrite (getitem_Some _ _ _ Hp).
  assert (good p) by (eapply Forall_lookup_1; eauto).
  rewrite lt_key by done.
  destruct (decide (key newitem < key p)) as [Hlt|Hge].
  2: { rewrite bool_decide_eq_false_2 by done. rewrite setitem_lt by done.
       intros [= <-]. destruct Hfill as [?|(_ & p' & ? & ?)]; [done|].
       same_lookup. lia. }
  rewrite bool_decide_eq_true_2 by done. rewrite setitem_lt by done.
  assert (Hpp : ((pos - 1) / 2 < pos)%nat) by heap_lia.
  apply (IH _ Hpp).
  - by apply Forall_insert.
  - done.
  - rewrite length_insert. lia.
  - split; [|split].
    + intros j Hj Hjp a b Hav Hbv.
      destruct (decide (j = pos)) as [->|Hjpos].
      * rewrite list_lookup_insert_eq in Hbv by done.
        rewrite list_lookup_insert_ne in Hav by lia. same_lookup. lia.
      * rewrite list_lookup_insert_ne in Hbv by done.
        destruct (decide (((j - 1) / 2)%nat = pos)) as [Hpj|Hpj].
        -- rewrite Hpj, list_lookup_insert_eq in Hav by done. same_lookup.
           by eapply (Hc j).
        -- rewrite list_lookup_insert_ne in Hav by done. by eapply Ha.
    + intros y. rewrite list_lookup_insert_ne by lia. intros. same_lookup. lia.
    + intros j Hppos Hj Hpj a b Hav Hbv.
      rewrite list_lookup_insert_ne in Hav by heap_lia.
      assert (key a <= key p) by (eapply (Ha ((pos - 1) / 2)%nat); [done|lia|done..]).
      destruct (decide (j = pos)) as [->|Hjpos].
      * rewrite list_lookup_insert_eq in Hbv by done. by same_lookup.
      * rewrite list_lookup_insert_ne in Hbv by done.
        assert (key p <= key b); [|lia].
        eapply (Ha j); [done|done| |done]. by rewrite Hpj.
Qed.

Lemma smaller_child_least (heap : list A) childpos c :
  Forall good heap → (childpos < length heap)%nat →
  Heapq.smaller_child lt heap childpos (length heap) = Ok c →
  ∀ j, j = childpos ∨ j = S childpos → ordered key heap c j.
Proof.
  intros Hgood Hc. unfold Heapq.smaller_child.
  destruct (decide (childpos + 1 < length heap)%nat) as [Hr|Hr].
  - destruct (lookup_lt_is_Some_2 heap childpos Hc) as [cv Hcv].
    destruct (lookup_lt_is_Some_2 heap (childpos + 1) Hr) as [rv Hrv].
    rewrite (getitem_Some _ _ _ Hcv), (getitem_Some _ _ _ Hrv).
    rewrite lt_key by (eapply Forall_lookup_1; eauto).
    replace (childpos + 1)%nat with (S childpos) in * by lia.
    destruct (decide (key cv < key rv)).
    + rewrite bool_decide_eq_true_2 by done. simpl. intros [= <-] j [->| ->] a b ? ?;
        same_lookup; lia.
    + rewrite bool_decide_eq_false_2 by done. simpl. intros [= <-] j [->| ->] a b ? ?;
        same_lookup; lia.
  - intros [= <-] j [->| ->] a b Hav Hbv; [same_lookup; lia|].
    apply lookup_lt_Some in Hbv. lia.
Qed.

Lemma siftup_loop_ordered (heap heap1 : list A) pos pos1 :
  Forall good heap → (pos < length heap)%nat → up_inv key heap pos →
  Heapq.siftup_loop lt (length heap) heap pos = Ok (heap1, pos1) →
  up_inv key heap1 pos1.
Proof.
  remember (length heap - pos)%nat as n eqn:Hn.
  revert heap pos Hn. induction n as [n IH] using lt_wf_ind.
  intros heap pos Hn Hgood Hpos (Ha & Hb).
  destruct (decide (2 * pos + 1 < length heap)%nat) as [Hlt|Hge].
  2: { rewrite siftup_loop_stop by done. intros [= <- <-]. by split. }
  destruct (smaller_child_total lt heap (2 * pos + 1) Hlt) as (c & Hc & Hcases & Hclt).
  pose proof (smaller_child_least _ _ _ Hgood Hlt Hc) as Hleast.
  rewrite (siftup_loop_step _ _ _ _ _ Hlt Hc).
  destruct (lookup_lt_is_Some_2 heap c Hclt) as [child Hchild].
  rewrite (getitem_Some _ _ _ Hchild), setitem_lt by done.
  intros Hrec.
  apply (IH (length heap - c)%nat ltac:(lia) (<[pos:=child]> heap) c).
  - by rewrite length_insert.
  - apply Forall_insert; [done|]. eapply Forall_lookup_1; eauto.
  - by rewrite length_insert.
  - split.
    + intros j Hj Hjc a b Hav Hbv.
      destruct (decide (j = pos)) as [->|Hjpos].
      * rewrite list_lookup_insert_eq in Hbv by done.
        rewrite list_lookup_insert_ne in Hav by heap_lia. same_lookup.
        eapply (Hb c); [done|lia|heap_lia|done..].
      * rewrite list_lookup_insert_ne in Hbv by done.
        destruct (decide (((j - 1) / 2)%nat = pos)) as [Hpj|Hpj].
        -- rewrite Hpj, list_lookup_insert_eq in Hav by done. same_lookup.
           eapply (Hleast j); [heap_lia|done..].
        -- rewrite list_lookup_insert_ne in Hav by done. by eapply Ha.
    + intros j Hc0 Hj Hpj a b Hav Hbv.
      replace ((c - 1) / 2)%nat with pos in Hav by heap_lia.
      rewrite list_lookup_insert_eq in Hav by done.
      rewrite list_lookup_insert_ne in Hbv by heap_lia. same_lookup.
      specialize (Ha j Hj ltac:(lia)). rewrite Hpj in Ha. by eapply Ha.
  - by rewrite length_insert.
Qed.

Lemma siftup_ordered (heap heap' : list A) :
  Forall good heap → (0 < length heap)%nat → up_inv key heap 0 →
  Heapq._siftup lt heap 0 = Ok heap' → heap_ordered key heap'.
Proof.
  intros Hgood Hpos Hinv. unfold Heapq._siftup.
  destruct (lookup_lt_is_Some_2 heap 0 Hpos) as [newitem Hn].
  rewrite (getitem_Some _ _ _ Hn). simpl.
  destruct (siftup_loop_perm lt heap 0 Hpos)
    as (heap1 & pos1 & Hloop & Hlen & Hp1 & Hleaf & Hperm).
  pose proof (siftup_loop_ordered _ _ _ _ Hgood Hpos Hinv Hloop) as [Ha Hb].
  rewrite Hloop. simpl. rewrite setitem_lt by lia. simpl.
  unfold Heapq._siftdown.
  rewrite (getitem_Some _ _ newitem) by (apply list_lookup_insert_eq; lia).
  simpl. apply siftdown_loop_ordered.
  - rewrite (Hperm newitem). by rewrite list_insert_id.
  - eapply Forall_lookup_1; eauto.
  - rewrite length_insert. lia.
  - split; [|split].
    + intros j Hj Hjp a b Hav Hbv.
      rewrite list_lookup_insert_ne in Hbv by done.
      destruct (decide (((j - 1) / 2)%nat = pos1)) as [Hpj|Hpj].
      * apply lookup_lt_Some in Hbv. heap_lia.
      * rewrite list_lookup_insert_ne in Hav by done. by eapply Ha.
    + intros y. rewrite list_lookup_insert_eq by lia. intros. same_lookup. lia.
    + intros j _ Hj Hpj a b _ Hbv. apply lookup_lt_Some in Hbv.
      rewrite length_insert in Hbv. heap_lia.
Qed.

(** [heappush] keeps the heap order. *)
Lemma heappush_ordered (heap heap' : list A) item :
  Forall good heap → good item → heap_ordered key heap →
  Heapq.heappush lt heap item = Ok heap' → heap_ordered key heap'.
Proof.
  intros Hgood Hitem Hh. unfold Heapq.heappush, Heapq._siftdown.
  rewrite length_app. simpl.
  replace (length heap + 1 - 1)%nat with (length heap) by lia.
  rewrite (getitem_Some _ _ item) by (by rewrite lookup_app_r, Nat.sub_diag by lia).
  simpl. apply siftdown_loop_ordered.
  - apply Forall_app. split; [done|]. by constructor.
  - done.
  - rewrite length_app. simpl. lia.
  - split; [|split].
    + intros j Hj Hjp a b Hav Hbv.
      destruct (decide (j < length heap)%nat) as [Hlt|Hge].
      * rewrite lookup_app_l in Hav, Hbv by heap_lia. by eapply Hh.
      * apply lookup_lt_Some in Hbv. rewrite length_app in Hbv. simpl in Hbv. lia.
    + intros y. rewrite lookup_app_r, Nat.sub_diag by lia. simpl. intros. same_lookup. lia.
    + intros j _ Hj Hpj a b _ Hbv. apply lookup_lt_Some in Hbv.
      rewrite length_app in Hbv. simpl in Hbv. heap_lia.
Qed.

(** [heappop] keeps the heap order. *)
Lemma heappop_ordered (heap heap' : list A) r :
  Forall good heap → heap_ordered key heap →
  Heapq.heappop lt heap = Ok (r, heap') → heap_ordered key heap'.
Proof.
  intros Hgood Hh. unfold Heapq.heappop.
  destruct (last heap) as [lastelt|] eqn:Hlast; [|done].
  pose proof (last_removelast _ _ Hlast) as Heq.
  destruct (removelast heap) as [|a t] eqn:Hrm.
  { intros [= <- <-]. apply heap_ordered_nil. }
  cbn [Heapq.getitem lookup list_lookup res_bind].
  rewrite setitem_lt by (simpl; lia). simpl.
  destruct (Heapq._siftup lt (lastelt :: t) 0) as [heap3|] eqn:Hup; [|done].
  simpl. intros [= <- <-].
  rewrite Heq, Forall_app, Forall_cons, Forall_singleton in Hgood.
  destruct Hgood as [[_ Hgt] Hgl].
  eapply siftup_ordered; [| |..|exact Hup].
  - by constructor.
  - simpl. lia.
  - split; [|intros; lia].
    intros j Hj Hpj x y Hx Hy.
    destruct j as [|j]; [lia|].
    destruct ((S j - 1) / 2)%nat as [|q] eqn:Hq; [done|].
    simpl in Hx, Hy.
    eapply (Hh (S j)); [lia| |].
    + rewrite Hq, Heq. simpl. rewrite lookup_app_l; [done|by eapply lookup_lt_Some].
    + rewrite Heq. simpl. rewrite lookup_app_l; [done|by eapply lookup_lt_Some].
Qed.
End HeapOrderFacts.

(** * Facts about the engine *)

Lemma entry_lt_bid a b :
  is_bid a → is_bid b → entry_lt a b = bool_decide (bid_key a < bid_key b).
Proof.
  unfold is_bid, entry_lt, bid_key. intros -> _.
  apply bool_decide_ext. lia.
Qed.

Lemma entry_lt_ask a b :
  is_ask a → is_ask b → entry_lt a b = bool_decide (ask_key a < ask_key b).
Proof. unfold is_ask, entry_lt, ask_key. by intros -> _. Qed.

Lemma bool_decide_not_dom {V} (m : gmap string V) k :
  bool_decide (k ∉ dom m) = match m !! k with Some _ => false | None => true end.
Proof.
  destruct (m !! k) eqn:E.
  - apply bool_decide_eq_false_2. intros H. apply H, elem_of_dom. eauto.
  - apply bool_decide_eq_true_2. by apply not_elem_of_dom.
Qed.

(** What [add_intent] does, in one equation per side. *)
Lemma add_intent_bid entry self :
  intent_type entry = BID →
  ∃ heap',
    Heapq.heappush entry_lt (bids_of self (settlement_asset entry)) entry = Ok heap'
    ∧ add_intent entry self =
      (Ok (), mkEngine (<[settlement_asset entry := heap']> (bid_books self))
                (ask_books self)).
Proof.
  intros Hty. unfold add_intent, bids_of. rewrite Hty.
  destruct (heappush_perm entry_lt (default [] (bid_books self !! settlement_asset entry))
              entry) as (heap' & Hpush & _).
  exists heap'. split; [done|].
  unfold bind, get_self, heappush_bid, bind, get_self, lift, set_bid_books, ret.
  rewrite bool_decide_not_dom.
  destruct (bid_books self !! settlement_asset entry) as [heap|] eqn:E; simpl in *.
  - unfold dict_getitem. rewrite E, Hpush. done.
  - unfold dict_getitem. rewrite lookup_insert_eq, Hpush. simpl.
    by rewrite insert_insert_eq.
Qed.

Lemma add_intent_ask entry self :
  intent_type entry = ASK →
  ∃ heap',
    Heapq.heappush entry_lt (asks_of self (settlement_asset entry)) entry = Ok heap'
    ∧ add_intent entry self =
      (Ok (), mkEngine (bid_books self)
                (<[settlement_asset entry := heap']> (ask_books self))).
Proof.
  intros Hty. unfold add_intent, asks_of. rewrite Hty.
  destruct (heappush_perm entry_lt (default [] (ask_books self !! settlement_asset entry))
              entry) as (heap' & Hpush & _).
  exists heap'. split; [done|].
  unfold bind, get_self, heappush_ask, bind, get_self, lift, set_ask_books, ret.
  rewrite bool_decide_not_dom.
  destruct (ask_books self !! settlement_asset entry) as [heap|] eqn:E; simpl in *.
  - unfold dict_getitem. rewrite E, Hpush. done.
  - unfold dict_getitem. rewrite lookup_insert_eq, Hpush. simpl.
    by rewrite insert_insert_eq.
Qed.

(** What [try_match] does, by the shape of the two books. *)
Lemma try_match_cross asset self best_bid bids best_ask asks :
  bid_books self !! asset = Some (best_bid :: bids) →
  ask_books self !! asset = Some (best_ask :: asks) →
  price best_bid >= price best_ask →
  ∃ bids' asks',
    Heapq.heappop entry_lt (best_bid :: bids) = Ok (best_bid, bids')
    ∧ Heapq.heappop entry_lt (best_ask :: asks) = Ok (best_ask, asks')
    ∧ try_match asset self =
      (Ok (Some (best_bid, best_ask, (price best_bid + price best_ask) `div` 2)),
       mkEngine (<[asset := bids']> (bid_books self))
                (<[asset := asks']> (ask_books self))).
Proof.
  intros Hb Ha Hcross.
  destruct (heappop_perm entry_lt (best_bid :: bids) best_bid eq_refl) as (bids' & Hpb & _).
  destruct (heappop_perm entry_lt (best_ask :: asks) best_ask eq_refl) as (asks' & Hpa & _).
  exists bids', asks'. split; [done|]. split; [done|].
  unfold try_match, bind, get_self, lift, ret.
  rewrite !bool_decide_not_dom, Hb, Ha. simpl.
  unfold dict_getitem. rewrite Hb, Ha. simpl.
  rewrite bool_decide_eq_true_2 by done.
  unfold heappop_bid, heappop_ask, bind, get_self, lift, dict_getitem, set_bid_books,
    set_ask_books, ret. simpl.
  rewrite Hb, Hpb. simpl. rewrite Ha, Hpa. done.
Qed.

Lemma try_match_no_cross asset self best_bid bids best_ask asks :
  bid_books self !! asset = Some (best_bid :: bids) →
  ask_books self !! asset = Some (best_ask :: asks) →
  ¬ price best_bid >= price best_ask →
  try_match asset self = (Ok None, self).
Proof.
  intros Hb Ha Hcross.
  unfold try_match, bind, get_self, lift, ret.
  rewrite !bool_decide_not_dom, Hb, Ha. simpl.
  unfold dict_getitem. rewrite Hb, Ha. simpl.
  by rewrite bool_decide_eq_false_2 by done.
Qed.

Lemma try_match_one_sided asset self :
  bids_of self asset = [] ∨ asks_of self asset = [] →
  try_match asset self = (Ok None, self).
Proof.
  unfold bids_of, asks_of, try_match, bind, get_self, lift, ret.
  rewrite !bool_decide_not_dom. unfold dict_getitem.
  destruct (bid_books self !! asset) as [[|b bs]|], (ask_books self !! asset) as [[|a as_]|];
    simpl; try done; intros [?|?]; done.
Qed.

(** ** The book invariant holds in every reachable state *)

Lemma books_ok_new : books_ok new_engine.
Proof. split; intros asset heap; simpl; by rewrite lookup_empty. Qed.

Lemma books_ok_bids self asset :
  books_ok self →
  Forall is_bid (bids_of self asset) ∧ heap_ordered bid_key (bids_of self asset).
Proof.
  intros [Hb _]. unfold bids_of.
  destruct (bid_books self !! asset) as [heap|] eqn:E; simpl; [by eapply Hb|].
  split; [constructor|apply heap_ordered_nil].
Qed.

Lemma books_ok_asks self asset :
  books_ok self →
  Forall is_ask (asks_of self asset) ∧ heap_ordered ask_key (asks_of self asset).
Proof.
  intros [_ Ha]. unfold asks_of.
  destruct (ask_books self !! asset) as [heap|] eqn:E; simpl; [by eapply Ha|].
  split; [constructor|apply heap_ordered_nil].
Qed.

Lemma add_intent_books_ok entry self r self' :
  books_ok self → add_intent entry self = (r, self') → books_ok self'.
Proof.
  intros Hok Hadd. destruct (intent_type entry) eqn:Hty.
  - destruct (add_intent_bid entry self Hty) as (heap' & Hpush & Heq).
    rewrite Heq in Hadd. injection Hadd as <- <-.
    destruct (books_ok_bids self (settlement_asset entry) Hok) as [Hgood Hord].
    destruct (heappush_perm entry_lt (bids_of self (settlement_asset entry)) entry)
      as (heap2 & Hpush2 & Hperm).
    assert (heap2 = heap') as -> by congruence.
    split; simpl; [|apply Hok].
    intros asset heap. destruct (decide (settlement_asset entry = asset)) as [->|Hne].
    + rewrite lookup_insert_eq. intros [= <-]. split.
      * rewrite Hperm. by constructor.
      * eapply (heappush_ordered entry_lt bid_key is_bid entry_lt_bid); eauto.
    + rewrite lookup_insert_ne by done. apply Hok.
  - destruct (add_intent_ask entry self Hty) as (heap' & Hpush & Heq).
    rewrite Heq in Hadd. injection Hadd as <- <-.
    destruct (books_ok_asks self (settlement_asset entry) Hok) as [Hgood Hord].
    destruct (heappush_perm entry_lt (asks_of self (settlement_asset entry)) entry)
      as (heap2 & Hpush2 & Hperm).
    assert (heap2 = heap') as -> by congruence.
    split; simpl; [apply Hok|].
    intros asset heap. destruct (decide (settlement_asset entry = asset)) as [->|Hne].
    + rewrite lookup_insert_eq. intros [= <-]. split.
      * rewrite Hperm. by constructor.
      * eapply (heappush_ordered entry_lt ask_key is_ask entry_lt_ask); eauto.
    + rewrite lookup_insert_ne by done. apply Hok.
Qed.

(** The three ways [try_match] can go. *)
Lemma try_match_cases asset self :
  (try_match asset self = (Ok None, self)
   ∧ (bids_of self asset = [] ∨ asks_of self asset = []
      ∨ ∃ best_bid bids best_ask asks,
          bid_books self !! asset = Some (best_bid :: bids)
          ∧ ask_books self !! asset = Some (best_ask :: asks)
          ∧ ¬ price best_bid >= price best_ask))
  ∨ (∃ best_bid bids best_ask asks bids' asks',
       bid_books self !! asset = Some (best_bid :: bids)
       ∧ ask_books self !! asset = Some (best_ask :: asks)
       ∧ price best_bid >= price best_ask
       ∧ Heapq.heappop entry_lt (best_bid :: bids) = Ok (best_bid, bids')
       ∧ Heapq.heappop entry_lt (best_ask :: asks) = Ok (best_ask, asks')
       ∧ try_match asset self =
         (Ok (Some (best_bid, best_ask, (price best_bid + price best_ask) `div` 2)),
          mkEngine (<[asset := bids']> (bid_books self))
                   (<[asset := asks']> (ask_books self)))).
Proof.
  destruct (bid_books self !! asset) as [[|b bs]|] eqn:Hb;
    try (left; split; [apply try_match_one_sided|]; left; unfold bids_of; by rewrite Hb).
  destruct (ask_books self !! asset) as [[|a as_]|] eqn:Ha;
    try (left; split; [apply try_match_one_sided|]; right; [|left];
         unfold asks_of; by rewrite Ha).
  destruct (decide (price b >= price a)) as [Hc|Hc].
  - right. destruct (try_match_cross asset self b bs a as_ Hb Ha Hc)
      as (bids' & asks' & ? & ? & ?).
    by exists b, bs, a, as_, bids', asks'.
  - left. split; [by eapply try_match_no_cross|].
    right; right. by exists b, bs, a, as_.
Qed.

Lemma try_match_books_ok asset self r self' :
  books_ok self → try_match asset self = (r, self') → books_ok self'.
Proof.
  intros Hok Hm.
  destruct (try_match_cases asset self) as [[Heq _]|Hcross].
  { rewrite Heq in Hm. by injection Hm as <- <-. }
  destruct Hcross as (b & bs & a & as_ & bids' & asks' & Hb & Ha & _ & Hpb & Hpa & Heq).
  rewrite Heq in Hm. injection Hm as <- <-.
  destruct Hok as [Hokb Hoka].
  destruct (Hokb _ _ Hb) as [Hgb Hob]. destruct (Hoka _ _ Ha) as [Hga Hoa].
  destruct (heappop_perm entry_lt (b :: bs) b eq_refl) as (bids2 & Hpb2 & Hpermb).
  destruct (heappop_perm entry_lt (a :: as_) a eq_refl) as (asks2 & Hpa2 & Hperma).
  assert (bids2 = bids') as -> by congruence.
  assert (asks2 = asks') as -> by congruence.
  split; simpl; intros asset2 heap.
  - destruct (decide (asset = asset2)) as [->|Hne].
    + rewrite lookup_insert_eq. intros [= <-]. split.
      * rewrite Hpermb in Hgb. by apply Forall_cons in Hgb as [_ ?].
      * eapply (heappop_ordered entry_lt bid_key is_bid entry_lt_bid); eauto.
    + rewrite lookup_insert_ne by done. apply Hokb.
  - destruct (decide (asset = asset2)) as [->|Hne].
    + rewrite lookup_insert_eq. intros [= <-]. split.
      * rewrite Hperma in Hga. by apply Forall_cons in Hga as [_ ?].
      * eapply (heappop_ordered entry_lt ask_key is_ask entry_lt_ask); eauto.
    + rewrite lookup_insert_ne by done. apply Hoka.
Qed.

Lemma reachable_books_ok self : reachable self → books_ok self.
Proof.
  induction 1 as [|entry self r self' _ IH Hadd|asset self r self' _ IH Hm].
  - apply books_ok_new.
  - by eapply add_intent_books_ok.
  - by eapply try_match_books_ok.
Qed.

Lemma reachable_add entry self :
  reachable self → reachable (state_after (add_intent entry) self).
Proof.
  intros H. unfold state_after.
  destruct (add_intent entry self) as [r self'] eqn:E. by eapply reach_add.
Qed.

Lemma reachable_match asset self :
  reachable self → reachable (state_after (try_match asset) self).
Proof.
  intros H. unfold state_after.
  destruct (try_match asset self) as [r self'] eqn:E. by eapply reach_match.
Qed.

(** In a book that satisfies the invariant, the entry at position 0 is a
    best one by price. *)
Lemma best_bid_highest self asset best_bid bids :
  books_ok self → bid_books self !! asset = Some (best_bid :: bids) →
  ∀ e, e ∈ best_bid :: bids → price e <= price best_bid.
Proof.
  intros [Hok _] Hb e He. destruct (Hok _ _ Hb) as [_ Hord].
  apply list_elem_of_lookup in He as [i Hi].
  pose proof (heap_ordered_root bid_key _ best_bid Hord eq_refl i e Hi) as Hle.
  unfold bid_key in Hle. lia.
Qed.

Lemma best_ask_lowest self asset best_ask asks :
  books_ok self → ask_books self !! asset = Some (best_ask :: asks) →
  ∀ e, e ∈ best_ask :: asks → price best_ask <= price e.
Proof.
  intros [_ Hok] Ha e He. destruct (Hok _ _ Ha) as [_ Hord].
  apply list_elem_of_lookup in He as [i Hi].
  exact (heap_ordered_root ask_key _ best_ask Hord eq_refl i e Hi).
Qed.

(** * Facts about [sorted] *)

Section Sorted.
Context {A : Type}.
Variable key : A → Z.
Variable reverse : bool.

Lemma key_le_total a b : key_le reverse a b = false → key_le reverse b a = true.
Proof.
  unfold key_le. destruct reverse.
  - intros H%bool_decide_eq_false. apply bool_decide_eq_true. lia.
  - intros H%bool_decide_eq_false. apply bool_decide_eq_true. lia.
Qed.

Lemma key_le_trans a b c :
  key_le reverse a b = true → key_le reverse b c = true → key_le reverse a c = true.
Proof.
  unfold key_le. destruct reverse; rewrite !bool_decide_eq_true; lia.
Qed.

Lemma sorted_insert_perm x (l : list A) : sorted_insert key reverse x l ≡ₚ x :: l.
Proof.
  induction l as [|y l IH]; simpl; [done|].
  destruct (key_le reverse (key x) (key y)); [done|].
  rewrite IH. apply perm_swap.
Qed.

Lemma py_sorted_perm (l : list A) : py_sorted key reverse l ≡ₚ l.
Proof.
  induction l as [|x l IH]; simpl; [done|].
  fold (py_sorted key reverse l). by rewrite sorted_insert_perm, IH.
Qed.

Lemma sorted_insert_sorted x (l : list A) :
  StronglySorted (key_ordered key reverse) l →
  StronglySorted (key_ordered key reverse) (sorted_insert key reverse x l).
Proof.
  induction 1 as [|y l Hl IH Hy]; simpl; [repeat constructor|].
  destruct (key_le reverse (key x) (key y)) eqn:Hxy.
  - constructor; [by constructor|]. constructor; [done|].
    eapply Forall_impl; [exact Hy|]. intros z Hz. by eapply key_le_trans.
  - constructor; [done|]. rewrite sorted_insert_perm. constructor; [|done].
    by apply key_le_total.
Qed.

Lemma py_sorted_sorted (l : list A) :
  StronglySorted (key_ordered key reverse) (py_sorted key reverse l).
Proof.
  induction l as [|x l IH]; simpl; [constructor|].
  by apply sorted_insert_sorted.
Qed.

(** The first element of the result is extreme in the whole input. *)
Lemma py_sorted_head x (l rest : list A) :
  py_sorted key reverse l = x :: rest →
  ∀ y, y ∈ l → key_ordered key reverse x y.
Proof.
  intros Heq y Hy. pose proof (py_sorted_sorted l) as Hs.
  rewrite <- (py_sorted_perm l), Heq in Hy. rewrite Heq in Hs.
  apply StronglySorted_inv in Hs as [_ Hall].
  apply elem_of_cons in Hy as [->|Hy].
  - unfold key_ordered, key_le. destruct reverse; apply bool_decide_eq_true; lia.
  - by eapply Forall_forall in Hall.
Qed.
End Sorted.

#[local] Instance key_ordered_id_antisymm reverse : AntiSymm (=) (key_ordered id reverse).
Proof.
  intros a b. unfold key_ordered, key_le, id.
  destruct reverse; rewrite !bool_decide_eq_true; lia.
Qed.

(** Taking an extreme element out of a list of numbers takes the head off
    its sorted form. *)
Lemma py_sorted_extreme reverse (x : Z) (l l' : list Z) :
  l ≡ₚ x :: l' → (∀ y, y ∈ l → key_ordered id reverse x y) →
  py_sorted id reverse l = x :: py_sorted id reverse l'.
Proof.
  intros Hperm Hx. apply (StronglySorted_unique (key_ordered id reverse)).
  - apply py_sorted_sorted.
  - constructor; [apply py_sorted_sorted|].
    apply Forall_forall. intros y Hy. apply Hx.
    rewrite Hperm. right. by rewrite py_sorted_perm in Hy.
  - by rewrite !py_sorted_perm.
Qed.

(** * Matching *)

(** C3. For every asset and every state of the books, [try_match] returns
    without raising, and it returns a match exactly when both the bid list
    and the ask list of the asset exist, are non-empty, and the price of the
    best bid (position 0) is at least the price of the best ask. *)
Theorem try_match_crossing_iff (asset : string) (self : AuctionEngine) :
  ∃ r self',
    try_match asset self = (Ok r, self')
    ∧ (is_Some r ↔
       ∃ best_bid bids best_ask asks,
         bid_books self !! asset = Some (best_bid :: bids)
         ∧ ask_books self !! asset = Some (best_ask :: asks)
         ∧ price best_bid >= price best_ask).
Proof.
  destruct (try_match_cases asset self) as [[Heq Hwhy]|Hcross].
  - exists None, self. split; [done|]. split; [by intros [? ?]|].
    intros (b & bs & a & as_ & Hb & Ha & Hc). exfalso.
    unfold bids_of, asks_of in Hwhy. rewrite Hb, Ha in Hwhy. simpl in Hwhy.
    destruct Hwhy as [?|[?|(b2 & bs2 & a2 & as2 & ? & ? & ?)]]; try done.
    assert (b2 = b ∧ a2 = a) as [-> ->] by (split; congruence). done.
  - destruct Hcross as (b & bs & a & as_ & bids' & asks' & Hb & Ha & Hc & _ & _ & Heq).
    eexists _, _. split; [exact Heq|]. split; [|by eauto].
    intros _. by exists b, bs, a, as_.
Qed.

(** C4. The settlement price of a match is the floor of the mean of the two
    prices: [(bid + ask) // 2], the integer [p] with
    [2 p <= bid + ask < 2 p + 2]. *)
Theorem try_match_settlement_price (asset : string) (self self' : AuctionEngine)
    (bid_entry ask_entry : OrderBookEntry) (match_price : Z) :
  try_match asset self = (Ok (Some (bid_entry, ask_entry, match_price)), self') →
  match_price = (price bid_entry + price ask_entry) `div` 2
  ∧ 2 * match_price <= price bid_entry + price ask_entry < 2 * match_price + 2.
Proof.
  intros Hm.
  destruct (try_match_cases asset self) as [[Heq _]|Hcross]; [congruence|].
  destruct Hcross as (b & bs & a & as_ & bids' & asks' & _ & _ & _ & _ & _ & Heq).
  rewrite Heq in Hm. injection Hm as <- <- <- _.
  split; [done|].
  pose proof (Z.div_mod (price b + price a) 2 ltac:(lia)).
  pose proof (Z.mod_pos_bound (price b + price a) 2 ltac:(lia)). lia.
Qed.

(** The bid at 10100 and the ask at 10000 settle at 10050. *)
Lemma try_match_settlement_price_10050 :
  ∃ self',
    try_match "BTC" book_10100_10000 = (Ok (Some (bid_10100, ask_10000, 10050)), self')
    ∧ 10050 = (price bid_10100 + price ask_10000) `div` 2.
Proof.
  eexists. split; [vm_compute; reflexivity|].
  apply (try_match_settlement_price "BTC" book_10100_10000
           (try_match "BTC" book_10100_10000).2 bid_10100 ask_10000 10050).
  vm_compute. reflexivity.
Defined.

(** In a reachable state a match is found exactly when some bid and some
    ask of the asset cross, whichever they are. *)
Lemma try_match_any_cross asset self :
  reachable self →
  (∃ m, (try_match asset self).1 = Ok (Some m)) ↔
  ∃ b a, b ∈ bids_of self asset ∧ a ∈ asks_of self asset ∧ price b >= price a.
Proof.
  intros Hok%reachable_books_ok.
  destruct (try_match_cases asset self) as [[Heq Hwhy]|Hcross].
  - rewrite Heq. simpl. split; [by intros [? [=]]|].
    intros (b & a & Hb & Ha & Hc). exfalso.
    destruct Hwhy as [Hnil|[Hnil|(b0 & bs & a0 & as_ & Hb0 & Ha0 & Hnc)]].
    + rewrite Hnil in Hb. by apply elem_of_nil in Hb.
    + rewrite Hnil in Ha. by apply elem_of_nil in Ha.
    + unfold bids_of in Hb. unfold asks_of in Ha. rewrite Hb0 in Hb. rewrite Ha0 in Ha.
      simpl in Hb, Ha.
      pose proof (best_bid_highest _ _ _ _ Hok Hb0 b Hb).
      pose proof (best_ask_lowest _ _ _ _ Hok Ha0 a Ha). lia.
  - destruct Hcross as (b & bs & a & as_ & bids' & asks' & Hb & Ha & Hc & _ & _ & Heq).
    rewrite Heq. simpl. split; [|by eauto].
    intros _. exists b, a. unfold bids_of, asks_of. rewrite Hb, Ha. simpl.
    split_and!; [by left|by left|done].
Qed.

(** C7. A match hands back exactly the two entries it removed: each of the
    asset's two lists loses the returned entry and nothing else, and no
    other asset is touched.  Without a match the engine is unchanged.
    [try_match] never raises. *)
Theorem try_match_frame (asset : string) (self : AuctionEngine) :
  match try_match asset self with
  | (Ok None, self') => self' = self
  | (Ok (Some (bid_entry, ask_entry, _)), self') =>
      ∃ bids asks bids' asks',
        bid_books self !! asset = Some bids
        ∧ ask_books self !! asset = Some asks
        ∧ bid_books self' = <[asset := bids']> (bid_books self)
        ∧ ask_books self' = <[asset := asks']> (ask_books self)
        ∧ bids ≡ₚ bid_entry :: bids'
        ∧ asks ≡ₚ ask_entry :: asks'
        ∧ length bids = S (length bids')
        ∧ length asks = S (length asks')
  | (Raise _, _) => False
  end.
Proof.
  destruct (try_match_cases asset self) as [[-> _]|Hcross]; [done|].
  destruct Hcross as (b & bs & a & as_ & bids' & asks' & Hb & Ha & _ & Hpb & Hpa & ->).
  destruct (heappop_perm entry_lt (b :: bs) b eq_refl) as (bids2 & Hpb2 & Hpermb).
  destruct (heappop_perm entry_lt (a :: as_) a eq_refl) as (asks2 & Hpa2 & Hperma).
  assert (bids2 = bids') as -> by congruence.
  assert (asks2 = asks') as -> by congruence.
  exists (b :: bs), (a :: as_), bids', asks'. simpl.
  split_and!; try done.
  - exact (Permutation_length Hpermb).
  - exact (Permutation_length Hperma).
Qed.

(** * Priority *)

(** C5 (amended). In every reachable state the entry a bid list yields
    first has the highest price of the list and the entry an ask list yields
    first has the lowest; a matched pair is made of such entries.  Nothing
    is said about entries of equal price. *)
Theorem best_entry_by_price (self : AuctionEngine) (asset : string) :
  reachable self →
  (∀ best_bid bids, bid_books self !! asset = Some (best_bid :: bids) →
     ∀ e, e ∈ bids → price e <= price best_bid)
  ∧ (∀ best_ask asks, ask_books self !! asset = Some (best_ask :: asks) →
     ∀ e, e ∈ asks → price best_ask <= price e)
  ∧ (∀ bid_entry ask_entry match_price self',
       try_match asset self = (Ok (Some (bid_entry, ask_entry, match_price)), self') →
       (∀ e, e ∈ bids_of self asset → price e <= price bid_entry)
       ∧ (∀ e, e ∈ asks_of self asset → price ask_entry <= price e)).
Proof.
  intros Hok%reachable_books_ok. split_and!.
  - intros b bs Hb e He. eapply best_bid_highest; eauto. by right.
  - intros a as_ Ha e He. eapply best_ask_lowest; eauto. by right.
  - intros b a p self' Hm.
    destruct (try_match_cases asset self) as [[Heq _]|Hcross]; [congruence|].
    destruct Hcross as (b' & bs & a' & as_ & ? & ? & Hb & Ha & _ & _ & _ & Heq).
    rewrite Heq in Hm. injection Hm as <- <- _ _.
    unfold bids_of, asks_of. rewrite Hb, Ha. simpl. split.
    + by eapply best_bid_highest.
    + by eapply best_ask_lowest.
Qed.

Lemma book_9800_10000_9900_reachable : reachable book_9800_10000_9900.
Proof. repeat apply reachable_add. apply reach_new. Qed.

(** With bids at 9800 and 10000 and an ask at 9900, the bid matched is the
    one at 10000. *)
Lemma best_entry_by_price_9800_10000 :
  reachable book_9800_10000_9900
  ∧ (try_match "BTC" book_9800_10000_9900).1 = Ok (Some (bid_10000, ask_9900, 9950))
  ∧ (∀ e, e ∈ bids_of book_9800_10000_9900 "BTC" → price e <= price bid_10000).
Proof.
  split; [exact book_9800_10000_9900_reachable|].
  split; [vm_compute; reflexivity|].
  refine (proj1 (proj2 (proj2
    (best_entry_by_price book_9800_10000_9900 "BTC" book_9800_10000_9900_reachable))
    bid_10000 ask_9900 9950 (try_match "BTC" book_9800_10000_9900).2 _)).
  vm_compute. reflexivity.
Defined.

(** The same holds in whatever order the three intents are entered. *)
Lemma match_9800_10000_9900_any_order :
  Forall (λ entries,
            (try_match "BTC"
               (foldl (λ self e, state_after (add_intent e) self) new_engine entries)).1
            = Ok (Some (bid_10000, ask_9900, 9950)))
         (permutations [bid_9800; bid_10000; ask_9900]).
Proof.
  let l := eval vm_compute in (permutations [bid_9800; bid_10000; ask_9900]) in
  change (permutations [bid_9800; bid_10000; ask_9900]) with l.
  repeat (apply Forall_cons; split; [vm_compute; reflexivity|]). apply Forall_nil.
  exact I.
Qed.

Lemma tie_book_reachable : reachable tie_book.
Proof. apply reachable_match. repeat apply reachable_add. apply reach_new. Qed.

(** C5, counterexample: ties on price are not broken by the earliest
    timestamp.  After the first match has taken the bid stamped 1, the next
    match takes the bid stamped 3 while the bid stamped 2 is still in the
    list. *)
Lemma price_time_priority_fails : ¬ price_time_priority_bids.
Proof.
  intros H.
  specialize (H tie_book "BTC" (tie_bid "b3" 3) (tie_ask "a2" 6) 100
                (try_match "BTC" tie_book).2 tie_book_reachable).
  specialize (H ltac:(vm_compute; reflexivity) (tie_bid "b2" 2)).
  assert (Hin : tie_bid "b2" 2 ∈ bids_of tie_book "BTC").
  { replace (bids_of tie_book "BTC")
      with [tie_bid "b3" 3; tie_bid "b2" 2; tie_bid "b4" 4] by (vm_compute; reflexivity).
    right. left. }
  destruct (H Hin) as [Hlt|[_ Hts]]; simpl in *; lia.
Qed.

(** * The matching loop *)

Lemma py_sorted_perm_eq reverse (l l' : list Z) :
  l ≡ₚ l' → py_sorted id reverse l = py_sorted id reverse l'.
Proof.
  intros Hperm. apply (StronglySorted_unique (key_ordered id reverse)).
  - apply py_sorted_sorted.
  - apply py_sorted_sorted.
  - by rewrite !py_sorted_perm.
Qed.

Lemma count_crossing_nil_r bid_prices : count_crossing bid_prices [] = 0%nat.
Proof. by destruct bid_prices. Qed.

Lemma sorted_bid_prices self asset best_bid bids :
  books_ok self → bid_books self !! asset = Some (best_bid :: bids) →
  py_sorted id true (price <$> bids_of self asset)
  = price best_bid :: py_sorted id true (price <$> bids).
Proof.
  intros Hok Hb. unfold bids_of. rewrite Hb.
  apply (py_sorted_extreme true (price best_bid) (price <$> best_bid :: bids)
           (price <$> bids)); [done|].
  intros y Hy.
  apply list_elem_of_fmap in Hy as (e & -> & He).
  apply bool_decide_eq_true. unfold id. by eapply best_bid_highest.
Qed.

Lemma sorted_ask_prices self asset best_ask asks :
  books_ok self → ask_books self !! asset = Some (best_ask :: asks) →
  py_sorted id false (price <$> asks_of self asset)
  = price best_ask :: py_sorted id false (price <$> asks).
Proof.
  intros Hok Ha. unfold asks_of. rewrite Ha.
  apply (py_sorted_extreme false (price best_ask) (price <$> best_ask :: asks)
           (price <$> asks)); [done|].
  intros y Hy.
  apply list_elem_of_fmap in Hy as (e & -> & He).
  apply bool_decide_eq_true. unfold id. by eapply best_ask_lowest.
Qed.

(** Without a match the book admits no crossable pair. *)
Lemma crossable_pairs_none asset self :
  books_ok self → try_match asset self = (Ok None, self) →
  crossable_pairs self asset = 0%nat.
Proof.
  intros Hok Hm. unfold crossable_pairs.
  destruct (try_match_cases asset self) as [[_ Hwhy]|Hcross].
  - destruct Hwhy as [->|[->|(b & bs & a & as_ & Hb & Ha & Hc)]]; [done| |].
    + apply count_crossing_nil_r.
    + rewrite (sorted_bid_prices _ _ _ _ Hok Hb), (sorted_ask_prices _ _ _ _ Hok Ha).
      simpl. by rewrite bool_decide_eq_false_2.
  - destruct Hcross as (? & ? & ? & ? & ? & ? & _ & _ & _ & _ & _ & Heq). congruence.
Qed.

(** A match uses up one crossable pair. *)
Lemma crossable_pairs_match asset self m self' :
  books_ok self → try_match asset self = (Ok (Some m), self') →
  crossable_pairs self asset = S (crossable_pairs self' asset)
  ∧ length (bids_of self asset) = S (length (bids_of self' asset)).
Proof.
  intros Hok Hm.
  destruct (try_match_cases asset self) as [[Heq _]|Hcross]; [congruence|].
  destruct Hcross as (b & bs & a & as_ & bids' & asks' & Hb & Ha & Hc & Hpb & Hpa & Heq).
  rewrite Heq in Hm. injection Hm as _ <-.
  destruct (heappop_perm entry_lt (b :: bs) b eq_refl) as (bids2 & Hpb2 & Hpermb).
  destruct (heappop_perm entry_lt (a :: as_) a eq_refl) as (asks2 & Hpa2 & Hperma).
  assert (bids2 = bids') as -> by congruence.
  assert (asks2 = asks') as -> by congruence.
  apply Permutation_cons_inv in Hpermb, Hperma.
  unfold crossable_pairs.
  rewrite (sorted_bid_prices _ _ _ _ Hok Hb), (sorted_ask_prices _ _ _ _ Hok Ha).
  unfold bids_of, asks_of. simpl. rewrite !lookup_insert_eq, Hb. simpl.
  rewrite bool_decide_eq_true_2 by done.
  rewrite (py_sorted_perm_eq true (price <$> bs) (price <$> bids')) by (by rewrite Hpermb).
  rewrite (py_sorted_perm_eq false (price <$> as_) (price <$> asks')) by (by rewrite Hperma).
  split; [done|]. by rewrite Hpermb.
Qed.

Lemma try_match_shrinks asset self m self' :
  try_match asset self = (Ok (Some m), self') →
  (length (bids_of self' asset) < length (bids_of self asset))%nat.
Proof.
  intros Hm.
  destruct (try_match_cases asset self) as [[Heq _]|Hcross]; [congruence|].
  destruct Hcross as (b & bs & a & as_ & bids' & asks' & Hb & _ & _ & Hpb & _ & Heq).
  rewrite Heq in Hm. injection Hm as _ <-.
  destruct (heappop_perm entry_lt (b :: bs) b eq_refl) as (bids2 & Hpb2 & Hpermb).
  assert (bids2 = bids') as -> by congruence.
  apply Permutation_length in Hpermb.
  unfold bids_of. simpl. rewrite Hb, lookup_insert_eq. simpl in *. lia.
Qed.

Lemma try_match_never_raises asset self e self' :
  try_match asset self ≠ (Raise e, self').
Proof.
  destruct (try_match_cases asset self) as [[Heq _]|Hcross]; [congruence|].
  destruct Hcross as (? & ? & ? & ? & ? & ? & _ & _ & _ & _ & _ & Heq). congruence.
Qed.

Lemma try_match_none_unchanged asset self self' :
  try_match asset self = (Ok None, self') → self' = self.
Proof.
  destruct (try_match_cases asset self) as [[Heq _]|Hcross]; [congruence|].
  destruct Hcross as (? & ? & ? & ? & ? & ? & _ & _ & _ & _ & _ & Heq). congruence.
Qed.

Lemma after_matches_succ_r asset n self :
  after_matches asset (S n) self
  = after_matches asset n (state_after (try_match asset) self).
Proof. unfold after_matches. apply Nat.iter_succ_r. Qed.

Lemma match_loop_spec chain asset fuel :
  ∀ k self, (length (bids_of self asset) < fuel)%nat →
  ∃ subs self',
    match_loop fuel chain k asset self = (Ok (Some subs), self')
    ∧ try_match asset self' = (Ok None, self')
    ∧ self' = after_matches asset (length subs) self
    ∧ (∀ i sub, subs !! i = Some sub →
         ∃ bid_entry ask_entry match_price,
           try_match asset (after_matches asset i self)
           = (Ok (Some (bid_entry, ask_entry, match_price)),
              after_matches asset (S i) self)
           ∧ sub = mkSubmission (intent_id bid_entry) (intent_id ask_entry) match_price
                     (create_match_onchain (chain (k + i)%nat) (intent_id bid_entry)
                        (intent_id ask_entry) match_price))
    ∧ (books_ok self → length subs = crossable_pairs self asset).
Proof.
  induction fuel as [|fuel IH]; intros k self Hfuel; [lia|].
  simpl. unfold bind at 1.
  destruct (try_match asset self) as [[[[[b a] p]|]|e] self1] eqn:Hm.
  - pose proof (try_match_shrinks _ _ _ _ Hm) as Hlt.
    assert (Hafter : state_after (try_match asset) self = self1)
      by (unfold state_after; by rewrite Hm).
    destruct (IH (S k) self1 ltac:(lia))
      as (subs & self' & Hloop & Hlast & Hiter & Hsubs & Hcount).
    unfold bind. rewrite Hloop. unfold ret. simpl.
    eexists _, _. split; [done|]. split; [done|]. split_and!.
    + cbn [length]. by rewrite after_matches_succ_r, Hafter.
    + intros [|i] sub Hsub; simpl in Hsub.
      * injection Hsub as <-. exists b, a, p.
        rewrite Nat.add_0_r. split; [|done].
        change (after_matches asset 0 self) with self.
        change (after_matches asset 1 self) with (state_after (try_match asset) self).
        by rewrite Hafter.
      * destruct (Hsubs i sub Hsub) as (b' & a' & p' & Htm & ->).
        exists b', a', p'.
        rewrite (after_matches_succ_r asset i self), Hafter.
        split; [exact Htm|]. by replace (k + S i)%nat with (S k + i)%nat by lia.
    + intros Hok. simpl.
      destruct (crossable_pairs_match _ _ _ _ Hok Hm) as [-> _].
      rewrite Hcount; [done|]. by eapply try_match_books_ok.
  - apply try_match_none_unchanged in Hm as Heq. subst self1.
    exists [], self. split; [done|]. split; [done|]. split_and!; [done|done|].
    intros Hok. simpl. symmetry. by apply crossable_pairs_none.
  - by apply try_match_never_raises in Hm.
Qed.

(** C8. [match_continuously] terminates in every state, within its
    iteration bound and without raising.  It makes [n] calls of [try_match]
    that each return a match, the [i]-th of them submitted with the answer
    of the node recorded at position [i], and then one call that returns no
    match and ends the loop.  In a reachable state [n] is the number of
    crossable pairs of the book. *)
Theorem match_continuously_terminates
    (chain : nat → chain_reply) (k : nat) (asset : string) (self : AuctionEngine) :
  ∃ subs self',
    match_continuously chain k asset self = (Ok (Some subs), self')
    ∧ self' = after_matches asset (length subs) self
    ∧ (∀ i sub, subs !! i = Some sub →
         ∃ bid_entry ask_entry match_price,
           try_match asset (after_matches asset i self)
           = (Ok (Some (bid_entry, ask_entry, match_price)),
              after_matches asset (S i) self)
           ∧ sub = mkSubmission (intent_id bid_entry) (intent_id ask_entry) match_price
                     (create_match_onchain (chain (k + i)%nat) (intent_id bid_entry)
                        (intent_id ask_entry) match_price))
    ∧ try_match asset self' = (Ok None, self')
    ∧ (reachable self → length subs = crossable_pairs self asset).
Proof.
  unfold match_continuously.
  destruct (match_loop_spec chain asset (S (length (default [] (bid_books self !! asset))))
              k self) as (subs & self' & Hloop & Hlast & Hiter & Hsubs & Hcount).
  { unfold bids_of. lia. }
  exists subs, self'. split_and!; try done.
  intros Hr. by apply Hcount, reachable_books_ok.
Qed.

(** The book with the bid at 10100 and the ask at 10000 admits one pair. *)
Lemma match_continuously_terminates_one_pair :
  ∃ subs self',
    match_continuously chain_always_ok 0 "BTC" book_10100_10000 = (Ok (Some subs), self')
    ∧ try_match "BTC" self' = (Ok None, self')
    ∧ length subs = 1%nat.
Proof.
  destruct (match_continuously_terminates chain_always_ok 0 "BTC" book_10100_10000)
    as (subs & self' & Hrun & _ & _ & Hlast & Hcount).
  exists subs, self'. split; [exact Hrun|]. split; [exact Hlast|].
  rewrite Hcount.
  - vm_compute. reflexivity.
  - unfold book_10100_10000. repeat apply reachable_add. apply reach_new.
Defined.

(** * Order book snapshot *)

Lemma key_ordered_price_desc (a b : OrderBookEntry) :
  key_ordered price true a b ↔ price b <= price a.
Proof. unfold key_ordered, key_le. by rewrite bool_decide_eq_true. Qed.

Lemma key_ordered_price_asc (a b : OrderBookEntry) :
  key_ordered price false a b ↔ price a <= price b.
Proof. unfold key_ordered, key_le. by rewrite bool_decide_eq_true. Qed.

(** The first ten of a sorted list, as rows: sorted, and no row left out
    comes before a row kept. *)
Lemma top_rows (R : relation OrderBookEntry) (R' : relation SnapshotRow)
    (l sorted_l : list OrderBookEntry) :
  (∀ x y, R x y → R' (snapshot_row x) (snapshot_row y)) →
  sorted_l ≡ₚ l → StronglySorted R sorted_l →
  length (snapshot_row <$> take 10 sorted_l) = (10 `min` length l)%nat
  ∧ StronglySorted R' (snapshot_row <$> take 10 sorted_l)
  ∧ ∃ rest, snapshot_row <$> l ≡ₚ (snapshot_row <$> take 10 sorted_l) ++ rest
            ∧ ∀ r r', r ∈ snapshot_row <$> take 10 sorted_l → r' ∈ rest → R' r r'.
Proof.
  intros HR Hperm Hsorted.
  rewrite <- (take_drop 10 sorted_l) in Hsorted.
  split; [by rewrite length_fmap, length_take, Hperm|].
  split.
  { eapply StronglySorted_fmap; [exact HR|]. by eapply StronglySorted_app_1_l. }
  exists (snapshot_row <$> drop 10 sorted_l). split.
  - by rewrite <- fmap_app, take_drop, Hperm.
  - intros r r' (x & -> & Hx)%list_elem_of_fmap (y & -> & Hy)%list_elem_of_fmap.
    apply HR. by eapply StronglySorted_app_1_elem_of.
Qed.

(** C10. [get_order_book_snapshot] reads and does not write: it returns
    without raising and leaves the engine as it was.  Its bid rows are the
    (at most ten) highest-priced bids in order of falling price, its ask
    rows the (at most ten) lowest-priced asks in order of rising price, and
    its spread is the lowest ask price minus the highest bid price, or
    [None] when the asset has no bid or no ask. *)
Theorem get_order_book_snapshot_read (asset : string) (self : AuctionEngine) :
  ∃ snap,
    get_order_book_snapshot asset self = (Ok snap, self)
    ∧ snap_asset snap = asset
    ∧ length (snap_bids snap) = (10 `min` length (bids_of self asset))%nat
    ∧ StronglySorted (λ r1 r2, row_price r2 <= row_price r1) (snap_bids snap)
    ∧ (∃ rest, snapshot_row <$> bids_of self asset ≡ₚ snap_bids snap ++ rest
               ∧ ∀ r r', r ∈ snap_bids snap → r' ∈ rest → row_price r' <= row_price r)
    ∧ length (snap_asks snap) = (10 `min` length (asks_of self asset))%nat
    ∧ StronglySorted (λ r1 r2, row_price r1 <= row_price r2) (snap_asks snap)
    ∧ (∃ rest, snapshot_row <$> asks_of self asset ≡ₚ snap_asks snap ++ rest
               ∧ ∀ r r', r ∈ snap_asks snap → r' ∈ rest → row_price r <= row_price r')
    ∧ match snap_spread snap with
      | None => bids_of self asset = [] ∨ asks_of self asset = []
      | Some spread =>
          ∃ best_bid best_ask,
            best_bid ∈ bids_of self asset ∧ best_ask ∈ asks_of self asset
            ∧ (∀ e, e ∈ bids_of self asset → price e <= price best_bid)
            ∧ (∀ e, e ∈ asks_of self asset → price best_ask <= price e)
            ∧ spread = price best_ask - price best_bid
      end.
Proof.
  unfold get_order_book_snapshot, bind, get_self, ret.
  fold (bids_of self asset). fold (asks_of self asset).
  eexists. split; [reflexivity|]. cbn [snap_asset snap_bids snap_asks snap_spread].
  split; [done|].
  destruct (top_rows (key_ordered price true) (λ r1 r2, row_price r2 <= row_price r1)
              (bids_of self asset) (py_sorted price true (bids_of self asset)))
    as (Hlb & Hsb & Htb).
  { intros x y. by rewrite key_ordered_price_desc. }
  { apply py_sorted_perm. }
  { apply py_sorted_sorted. }
  destruct (top_rows (key_ordered price false) (λ r1 r2, row_price r1 <= row_price r2)
              (asks_of self asset) (py_sorted price false (asks_of self asset)))
    as (Hla & Hsa & Hta).
  { intros x y. by rewrite key_ordered_price_asc. }
  { apply py_sorted_perm. }
  { apply py_sorted_sorted. }
  split_and!; try done.
  destruct (py_sorted price true (bids_of self asset)) as [|b sb] eqn:Hb.
  { left. apply Permutation_nil. by rewrite <- Hb, py_sorted_perm. }
  destruct (py_sorted price false (asks_of self asset)) as [|a sa] eqn:Ha.
  { right. apply Permutation_nil. by rewrite <- Ha, py_sorted_perm. }
  simpl. exists b, a. split_and!.
  - rewrite <- (py_sorted_perm price true), Hb. by left.
  - rewrite <- (py_sorted_perm price false), Ha. by left.
  - intros e He. apply key_ordered_price_desc. by eapply py_sorted_head.
  - intros e He. apply key_ordered_price_asc. by eapply py_sorted_head.
  - done.
Qed.

(** * Settlement submission *)

(** C9. [create_match_onchain] returns a transaction reference only when
    every call of the [try] block returned and the receipt carries status 1;
    the reference is then the hash the node gave.  A timeout while waiting
    for the receipt, an error raised by the sending call, and a receipt
    with another status all give [None]. *)
Theorem create_match_onchain_confirmed (reply : chain_reply)
    (bid_intent_id ask_intent_id : string) (match_price : Z) :
  (∀ tx, create_match_onchain reply bid_intent_id ask_intent_id match_price = Some tx ↔
     (∃ bid_bytes ask_bytes,
        bytes_fromhex bid_intent_id = Ok bid_bytes
        ∧ bytes_fromhex ask_intent_id = Ok ask_bytes)
     ∧ chain_contract reply = Ok ()
     ∧ chain_build reply = Ok ()
     ∧ chain_sign reply = Ok ()
     ∧ chain_send reply = Ok tx
     ∧ chain_wait reply = Ok 1)
  ∧ (chain_wait reply = Raise TimeExhausted →
     create_match_onchain reply bid_intent_id ask_intent_id match_price = None)
  ∧ (∀ e, chain_send reply = Raise e →
     create_match_onchain reply bid_intent_id ask_intent_id match_price = None)
  ∧ (∀ status, chain_wait reply = Ok status → status ≠ 1 →
     create_match_onchain reply bid_intent_id ask_intent_id match_price = None).
Proof.
  unfold create_match_onchain, create_match_try.
  destruct reply as [contract build sign send wait]; simpl.
  destruct contract as [[]|], (bytes_fromhex bid_intent_id) as [bb|],
    (bytes_fromhex ask_intent_id) as [ab|],
    build as [[]|], sign as [[]|], send as [tx'|], wait as [status|]; simpl;
    try (split_and!; [intros tx; split; [done|];
                      intros [(? & ? & ? & ?) (? & ? & ? & ? & ?)]; done|done..]).
  destruct (decide (status = 1)) as [->|Hne].
  - rewrite bool_decide_eq_true_2 by done. split_and!; try done.
    + intros tx. split.
      * intros [= ->]. split; [by eauto|done].
      * intros (_ & _ & _ & _ & [= ->] & _). done.
    + intros status' [= <-] ?. done.
  - rewrite bool_decide_eq_false_2 by done. split_and!; try done.
    intros tx. split; [done|]. intros (_ & _ & _ & _ & _ & [= ?]). done.
Qed.

(** * Reconciliation *)

Lemma query_intents_active_unmatched indexer :
  query_intents indexer None (Some true) (Some false) = active_unmatched indexer.
Proof.
  unfold query_intents, active_unmatched.
  induction (session indexer) as [|r l IH]; [done|].
  rewrite !filter_cons.
  destruct (decide (db_is_active r = true)) as [Ha|Ha].
  - rewrite filter_cons. destruct (decide (db_is_matched r = false)) as [Hm|Hm].
    + rewrite decide_True by done. by rewrite IH.
    + rewrite decide_False by (by intros [_ ?]). done.
  - rewrite decide_False by (by intros [? _]). done.
Qed.

Lemma bids_of_insert bids asks asset heap asset' :
  bids_of (mkEngine (<[asset := heap]> bids) asks) asset'
  = if decide (asset = asset') then heap else bids_of (mkEngine bids asks) asset'.
Proof.
  unfold bids_of. simpl. destruct (decide (asset = asset')) as [->|Hne].
  - by rewrite lookup_insert_eq.
  - by rewrite lookup_insert_ne.
Qed.

Lemma asks_of_insert bids asks asset heap asset' :
  asks_of (mkEngine bids (<[asset := heap]> asks)) asset'
  = if decide (asset = asset') then heap else asks_of (mkEngine bids asks) asset'.
Proof.
  unfold asks_of. simpl. destruct (decide (asset = asset')) as [->|Hne].
  - by rewrite lookup_insert_eq.
  - by rewrite lookup_insert_ne.
Qed.

(** [add_intent] adds its entry to the list of its side and asset and
    leaves every other list as it was. *)
Lemma add_intent_books entry self :
  ∃ self',
    add_intent entry self = (Ok (), self')
    ∧ ∀ asset,
        bids_of self' asset ≡ₚ side_entries BID asset [entry] ++ bids_of self asset
        ∧ asks_of self' asset ≡ₚ side_entries ASK asset [entry] ++ asks_of self asset.
Proof.
  destruct self as [bids asks]. unfold side_entries.
  destruct (intent_type entry) eqn:Hty.
  - destruct (add_intent_bid entry (mkEngine bids asks) Hty) as (heap' & Hpush & ->).
    destruct (heappush_perm entry_lt (bids_of (mkEngine bids asks) (settlement_asset entry))
                entry) as (heap2 & Hpush2 & Hperm).
    assert (heap2 = heap') as -> by congruence.
    eexists; split; [done|]. intros asset. simpl.
    rewrite bids_of_insert, !filter_cons, !filter_nil, Hty.
    rewrite (decide_False (P:=BID = ASK ∧ _)) by (by intros [? _]).
    split; [|done].
    destruct (decide (settlement_asset entry = asset)) as [<-|Hne].
    + by rewrite decide_True.
    + rewrite decide_False by (by intros [_ ?]). done.
  - destruct (add_intent_ask entry (mkEngine bids asks) Hty) as (heap' & Hpush & ->).
    destruct (heappush_perm entry_lt (asks_of (mkEngine bids asks) (settlement_asset entry))
                entry) as (heap2 & Hpush2 & Hperm).
    assert (heap2 = heap') as -> by congruence.
    eexists; split; [done|]. intros asset. simpl.
    rewrite asks_of_insert, !filter_cons, !filter_nil, Hty.
    rewrite (decide_False (P:=ASK = BID ∧ _)) by (by intros [? _]).
    split; [done|].
    destruct (decide (settlement_asset entry = asset)) as [<-|Hne].
    + by rewrite decide_True.
    + rewrite decide_False by (by intros [_ ?]). done.
Qed.

Lemma side_entries_cons side asset e l :
  side_entries side asset (e :: l)
  = side_entries side asset [e] ++ side_entries side asset l.
Proof. apply (filter_app _ [e] l). Qed.

Lemma built_entries_cons i intents :
  built_entries (i :: intents)
  = match parse_intent i with
    | Ok (Some entry) => entry :: built_entries intents
    | _ => built_entries intents
    end.
Proof. unfold built_entries. simpl. by destruct (parse_intent i) as [[?|]|]. Qed.

(** A run of the loop that completes adds the entries it built, and
    nothing else, to what was there. *)
Lemma load_loop_books intents : ∀ self self',
  load_loop intents self = (Ok (), self') →
  ∀ asset,
    bids_of self' asset ≡ₚ side_entries BID asset (built_entries intents) ++ bids_of self asset
    ∧ asks_of self' asset ≡ₚ side_entries ASK asset (built_entries intents) ++ asks_of self asset.
Proof.
  induction intents as [|i intents IH]; intros self self' Hload asset.
  { injection Hload as <-. done. }
  simpl in Hload. unfold bind at 1, lift in Hload. rewrite built_entries_cons.
  destruct (parse_intent i) as [[entry|]|e]; [| |done].
  - destruct (add_intent_books entry self) as (self1 & Hadd & Hbooks).
    unfold bind in Hload. rewrite Hadd in Hload.
    destruct (IH _ _ Hload asset) as [Hb Ha]. destruct (Hbooks asset) as [Hb1 Ha1].
    rewrite (side_entries_cons BID), (side_entries_cons ASK). split.
    + rewrite Hb, Hb1. rewrite !(assoc_L (++)). f_equiv. apply Permutation_app_comm.
    + rewrite Ha, Ha1. rewrite !(assoc_L (++)). f_equiv. apply Permutation_app_comm.
  - unfold bind, ret in Hload. simpl in Hload. by apply IH.
Qed.

(** The loop completes when every intent can be parsed. *)
Lemma load_loop_total intents : ∀ self,
  Forall (λ i, ∃ r, parse_intent i = Ok r) intents →
  ∃ self', load_loop intents self = (Ok (), self').
Proof.
  induction intents as [|i intents IH]; intros self Hall; [by eexists|].
  apply Forall_cons in Hall as [[r Hr] Hall].
  simpl. unfold bind at 1, lift. rewrite Hr.
  destruct r as [entry|].
  - destruct (add_intent_books entry self) as (self1 & Hadd & _).
    unfold bind. rewrite Hadd. by apply IH.
  - unfold bind, ret. simpl. by apply IH.
Qed.

(** What a call of the loader that completes leaves in the books. *)
Lemma load_books_after indexer self self' :
  load_intents_from_indexer indexer self = (Ok (), self') →
  ∀ asset,
    bids_of self' asset
      ≡ₚ side_entries BID asset (built_entries (active_unmatched indexer))
         ++ bids_of self asset
    ∧ asks_of self' asset
      ≡ₚ side_entries ASK asset (built_entries (active_unmatched indexer))
         ++ asks_of self asset.
Proof.
  unfold load_intents_from_indexer. rewrite query_intents_active_unmatched.
  apply load_loop_books.
Qed.

(** On lists that are empty or absent before the call, as they are in a
    new engine, a call of the loader that completes leaves exactly the
    entries built from the active, unmatched intents: the bids of the asset
    in its bid list, the asks in its ask list. *)
Theorem load_fills_empty_books (indexer : ArcIndexer) (self self' : AuctionEngine)
    (asset : string) :
  bids_of self asset = [] → asks_of self asset = [] →
  load_intents_from_indexer indexer self = (Ok (), self') →
  bids_of self' asset ≡ₚ side_entries BID asset (built_entries (active_unmatched indexer))
  ∧ asks_of self' asset ≡ₚ side_entries ASK asset (built_entries (active_unmatched indexer)).
Proof.
  intros Hb Ha Hload.
  destruct (load_books_after indexer self self' Hload asset) as [Hb' Ha'].
  rewrite Hb' , Ha', Hb, Ha, !app_nil_r. done.
Qed.

(** The first cycle, on a new engine. *)
Lemma load_fills_empty_books_first_cycle :
  bids_of (state_after (load_intents_from_indexer indexer_one_bid) new_engine) "BTC"
    ≡ₚ side_entries BID "BTC" (built_entries (active_unmatched indexer_one_bid))
  ∧ asks_of (state_after (load_intents_from_indexer indexer_one_bid) new_engine) "BTC"
    ≡ₚ side_entries ASK "BTC" (built_entries (active_unmatched indexer_one_bid)).
Proof.
  apply (load_fills_empty_books indexer_one_bid new_engine).
  - reflexivity.
  - reflexivity.
  - vm_compute. reflexivity.
Defined.

(** C2. The loader does not replace what the books hold.  Called a second
    time on a table that has not changed, with its one active and unmatched
    bid [a1], it completes and leaves [a1] twice in the bid list of BTC: the
    entry of the first call and a new one, where the entries built from the
    table are one. *)
Theorem reload_doubles_entry :
  load_intents_from_indexer indexer_one_bid
    (state_after (load_intents_from_indexer indexer_one_bid) new_engine)
  = (Ok (), state_after (load_intents_from_indexer indexer_one_bid)
              (state_after (load_intents_from_indexer indexer_one_bid) new_engine))
  ∧ intent_id <$> bids_of (state_after (load_intents_from_indexer indexer_one_bid)
                             (state_after (load_intents_from_indexer indexer_one_bid)
                                new_engine)) "BTC"
    = ["a1"; "a1"]
  ∧ intent_id <$> side_entries BID "BTC" (built_entries (active_unmatched indexer_one_bid))
    = ["a1"].
Proof. vm_compute. by split_and!. Qed.

(** So the property, as the specification words it, does not hold. *)
Lemma loader_replaces_fails : ¬ loader_replaces.
Proof.
  intros H.
  pose (self1 := state_after (load_intents_from_indexer indexer_one_bid) new_engine).
  pose (self2 := state_after (load_intents_from_indexer indexer_one_bid) self1).
  destruct (H indexer_one_bid self1 self2 ltac:(vm_compute; reflexivity) "BTC") as [Hb _].
  apply Permutation_length in Hb. vm_compute in Hb. discriminate.
Qed.

Lemma parse_intent_well_formed intent_db :
  is_Some (intent_fields intent_db) →
  parse_intent intent_db = Ok (intent_entry intent_db).
Proof.
  unfold parse_intent, intent_entry, intent_fields.
  destruct (db_payload intent_db) as [|[[| | | | |kv]|]]; simpl;
    try (by intros [? [=]]).
  destruct (default (JObj []) (assoc_lookup "constraints" kv)) as [| | | | |c]; simpl;
    try (by intros [? [=]]).
  destruct (default (JStr "bid") (assoc_lookup "type" c)) as [| | |ty| |]; simpl;
    try (by intros [? [=]]).
  destruct (default (JInt 0) (assoc_lookup "price" c)) as [| |p| | |]; simpl;
    try (by intros [? [=]]).
  destruct (default (JInt 1) (assoc_lookup "quantity" c)) as [| |q| | |]; simpl;
    try (by intros [? [=]]).
  intros _. by destruct (bool_decide (p = 0)).
Qed.

Lemma built_entries_well_formed intents :
  Forall (λ i, is_Some (intent_fields i)) intents →
  built_entries intents = omap intent_entry intents.
Proof.
  induction 1 as [|i intents Hi _ IH]; [done|].
  rewrite built_entries_cons, (parse_intent_well_formed i Hi), IH. simpl.
  by destruct (intent_entry i).
Qed.

(** C6 (amended). When every active, unmatched intent is well-formed, the
    loader completes without raising; it skips exactly the intents whose
    price is zero or missing, and adds an entry for every other one, those
    of negative price included: to the bid list of its asset when its type
    reads "bid" in any letter case or is missing, to the ask list for any
    other text. *)
Theorem load_skips_zero_price (indexer : ArcIndexer) (self : AuctionEngine) :
  Forall (λ i, is_Some (intent_fields i)) (active_unmatched indexer) →
  (∀ i, i ∈ active_unmatched indexer → parse_intent i = Ok (intent_entry i))
  ∧ ∃ self',
      load_intents_from_indexer indexer self = (Ok (), self')
      ∧ ∀ asset,
          bids_of self' asset
            ≡ₚ side_entries BID asset (omap intent_entry (active_unmatched indexer))
               ++ bids_of self asset
          ∧ asks_of self' asset
            ≡ₚ side_entries ASK asset (omap intent_entry (active_unmatched indexer))
               ++ asks_of self asset.
Proof.
  intros Hwf. split.
  { intros i Hi. apply parse_intent_well_formed. by eapply Forall_forall in Hwf. }
  destruct (load_loop_total (active_unmatched indexer) self) as [self' Hload].
  { eapply Forall_impl; [exact Hwf|]. intros i Hi. eexists.
    by apply parse_intent_well_formed. }
  exists self'. unfold load_intents_from_indexer.
  rewrite query_intents_active_unmatched. split; [done|].
  rewrite <- (built_entries_well_formed _ Hwf). by apply load_loop_books.
Qed.


(** Of the four intents of [indexer_mixed], the one priced -5 becomes a
    bid, the one priced 0 is skipped, the one of type "hold" becomes an ask,
    and the matched one is never read. *)
Lemma load_skips_zero_price_mixed :
  ∃ self',
    load_intents_from_indexer indexer_mixed new_engine = (Ok (), self')
    ∧ bids_of self' "BTC" ≡ₚ [mkEntry "a1" "actor" (-5) 1 BID 7 "BTC" "mandate"]
    ∧ asks_of self' "BTC" ≡ₚ [mkEntry "c3" "actor" 40 1 ASK 7 "BTC" "mandate"].
Proof.
  destruct (load_skips_zero_price indexer_mixed new_engine) as [_ (self' & Hload & Hbooks)].
  { vm_compute. repeat constructor; by eexists. }
  exists self'. split; [exact Hload|].
  destruct (Hbooks "BTC") as [Hb Ha]. split.
  - rewrite Hb. vm_compute. reflexivity.
  - rewrite Ha. vm_compute. reflexivity.
Defined.

(** C6, counterexample: an intent priced -5 is not skipped; its entry is in
    the bid list after the call. *)
Lemma loader_skips_nonpositive_fails : ¬ loader_skips_nonpositive.
Proof.
  intros H.
  specialize (H indexer_mixed _ _ (surjective_pairing _) "BTC"
                (mkEntry "a1" "actor" (-5) 1 BID 7 "BTC" "mandate")).
  assert (Hin : mkEntry "a1" "actor" (-5) 1 BID 7 "BTC" "mandate"
                ∈ bids_of (load_intents_from_indexer indexer_mixed new_engine).2 "BTC"
                  ++ asks_of (load_intents_from_indexer indexer_mixed new_engine).2 "BTC").
  { replace (bids_of (load_intents_from_indexer indexer_mixed new_engine).2 "BTC")
      with [mkEntry "a1" "actor" (-5) 1 BID 7 "BTC" "mandate"] by (vm_compute; reflexivity).
    left. }
  specialize (H Hin). simpl in H. lia.
Qed.


(** A payload that [json.loads] rejects stops the loop: the call raises,
    and the well-formed intent that follows is not entered. *)
Lemma load_raises_on_malformed_payload :
  ∃ self',
    load_intents_from_indexer indexer_malformed new_engine = (Raise JSONDecodeError, self')
    ∧ bids_of self' "BTC" = [].
Proof. eexists. split; vm_compute; reflexivity. Qed.

(** A type that is not text stops the loop as well. *)
Lemma load_raises_on_numeric_type :
  (load_intents_from_indexer
     (mkIndexer [mkIntentDB "e5" "actor" 7 "mandate" "BTC" true false
                   (PayloadText (Some (JObj [("constraints"%string,
                      JObj [("type"%string, JInt 1); ("price"%string, JInt 10)])])))])
     new_engine).1 = Raise AttributeError.
Proof. vm_compute. reflexivity. Qed.

(** * Cycles *)

(** C1, on the run where it fails.  Two cycles of a new engine: in the
    first the store holds the bid [a1] and nothing to match it with; in the
    second [a1] is still active and unmatched and two asks have come in.
    The loader enters [a1] a second time, and with a node that confirms
    every submission the run ends in two confirmed matches that both consume
    [a1]. *)
Lemma double_match_run :
  (run_cycles [store_cycle_1; store_cycle_2] chain_always_ok 0 new_engine).1
  = Some [mkSubmission "a1" "c3" 75 (Some "ff"%string);
          mkSubmission "a1" "d4" 80 (Some "ff"%string)].
Proof. vm_compute. reflexivity. Qed.

(** So the property, as the specification words it, does not hold. *)
Lemma no_double_match_fails : ¬ no_double_match.
Proof.
  intros H.
  specialize (H [store_cycle_1; store_cycle_2] chain_always_ok
                [mkSubmission "a1" "c3" 75 (Some "ff"%string);
                 mkSubmission "a1" "d4" 80 (Some "ff"%string)]
                (run_cycles [store_cycle_1; store_cycle_2] chain_always_ok 0 new_engine).2).
  assert (Hkeys : Forall (λ indexer, NoDup (db_intent_id <$> session indexer))
                    [store_cycle_1; store_cycle_2]).
  { repeat apply Forall_cons_2; [..|apply Forall_nil_2];
      apply (bool_decide_unpack _); vm_compute; exact I. }
  specialize (H Hkeys ltac:(vm_compute; reflexivity)).
  vm_compute in H. apply NoDup_cons in H as [Hin _]. apply Hin. right. left.
Qed.

(** ** Within one cycle of a new engine no intent is consumed twice *)

Section MapEntries.
Context {V : Type}.
Implicit Types m : gmap string (list V).

Lemma map_entries_insert_new m k v :
  m !! k = None →
  concat (map_to_list (<[k:=v]> m)).*2 ≡ₚ v ++ concat (map_to_list m).*2.
Proof. intros H. by rewrite map_to_list_insert. Qed.

Lemma map_entries_lookup m k v :
  m !! k = Some v →
  concat (map_to_list m).*2 ≡ₚ v ++ concat (map_to_list (delete k m)).*2.
Proof. intros H. by rewrite <- (map_to_list_delete m k v H). Qed.

Lemma map_entries_insert m k v :
  concat (map_to_list (<[k:=v]> m)).*2 ≡ₚ v ++ concat (map_to_list (delete k m)).*2.
Proof.
  rewrite <- insert_delete_eq.
  apply map_entries_insert_new, lookup_delete_eq.
Qed.

(** Replacing the list under [k] by one that holds [extra] more. *)
Lemma map_entries_grow m k v extra :
  v ≡ₚ extra ++ default [] (m !! k) →
  concat (map_to_list (<[k:=v]> m)).*2 ≡ₚ extra ++ concat (map_to_list m).*2.
Proof.
  intros Hv. rewrite map_entries_insert, Hv.
  destruct (m !! k) as [old|] eqn:E; simpl.
  - by rewrite (map_entries_lookup m k old E), (assoc_L (++)).
  - rewrite app_nil_r. by rewrite delete_id.
Qed.

(** Replacing the list under [k] by one that holds [gone] fewer. *)
Lemma map_entries_shrink m k old v gone :
  m !! k = Some old → old ≡ₚ gone ++ v →
  concat (map_to_list m).*2 ≡ₚ gone ++ concat (map_to_list (<[k:=v]> m)).*2.
Proof.
  intros E Hv.
  by rewrite map_entries_insert, (map_entries_lookup m k old E), Hv, (assoc_L (++)).
Qed.
End MapEntries.

Lemma add_intent_entries entry self :
  book_entries (state_after (add_intent entry) self) ≡ₚ entry :: book_entries self.
Proof.
  unfold state_after, book_entries. destruct (intent_type entry) eqn:Hty.
  - destruct (add_intent_bid entry self Hty) as (heap' & Hpush & ->).
    destruct (heappush_perm entry_lt (bids_of self (settlement_asset entry)) entry)
      as (heap2 & Hpush2 & Hperm).
    assert (heap2 = heap') as -> by congruence. simpl.
    by rewrite (map_entries_grow _ _ _ [entry] Hperm).
  - destruct (add_intent_ask entry self Hty) as (heap' & Hpush & ->).
    destruct (heappush_perm entry_lt (asks_of self (settlement_asset entry)) entry)
      as (heap2 & Hpush2 & Hperm).
    assert (heap2 = heap') as -> by congruence. simpl.
    rewrite (map_entries_grow _ _ _ [entry] Hperm). simpl.
    by rewrite Permutation_middle.
Qed.

Lemma try_match_entries asset self b a p self' :
  try_match asset self = (Ok (Some (b, a, p)), self') →
  book_entries self ≡ₚ b :: a :: book_entries self'.
Proof.
  intros Hm.
  destruct (try_match_cases asset self) as [[Heq _]|Hcross]; [congruence|].
  destruct Hcross as (b' & bs & a' & as_ & bids' & asks' & Hb & Ha & _ & Hpb & Hpa & Heq).
  rewrite Heq in Hm. injection Hm as <- <- _ <-.
  destruct (heappop_perm entry_lt (b' :: bs) b' eq_refl) as (bids2 & Hpb2 & Hpermb).
  destruct (heappop_perm entry_lt (a' :: as_) a' eq_refl) as (asks2 & Hpa2 & Hperma).
  assert (bids2 = bids') as -> by congruence.
  assert (asks2 = asks') as -> by congruence.
  unfold book_entries. simpl.
  rewrite (map_entries_shrink (bid_books self) asset _ bids' [b'] Hb Hpermb).
  rewrite (map_entries_shrink (ask_books self) asset _ asks' [a'] Ha Hperma).
  simpl. f_equiv. by rewrite Permutation_middle.
Qed.

Lemma consumed_ids_cons sub subs :
  consumed_ids (sub :: subs) = sub_bid sub :: sub_ask sub :: consumed_ids subs.
Proof. reflexivity. Qed.

Lemma consumed_ids_app subs1 subs2 :
  consumed_ids (subs1 ++ subs2) = consumed_ids subs1 ++ consumed_ids subs2.
Proof. unfold consumed_ids. by rewrite fmap_app, concat_app. Qed.

Lemma match_loop_entries chain asset fuel : ∀ k self subs self',
  match_loop fuel chain k asset self = (Ok (Some subs), self') →
  ∃ consumed,
    book_entries self ≡ₚ consumed ++ book_entries self'
    ∧ consumed_ids subs = intent_id <$> consumed.
Proof.
  induction fuel as [|fuel IH]; intros k self subs self' Hloop; [done|].
  simpl in Hloop. unfold bind at 1 in Hloop.
  destruct (try_match asset self) as [[[[[b a] p]|]|e] self1] eqn:Hm; [| |done].
  - unfold bind, ret in Hloop.
    destruct (match_loop fuel chain (S k) asset self1) as [[[rest|]|e] self2] eqn:Hrec;
      try done.
    injection Hloop as <- <-.
    destruct (IH _ _ _ _ Hrec) as (consumed & Hperm & Hids).
    exists (b :: a :: consumed). split.
    + by rewrite (try_match_entries _ _ _ _ _ _ Hm), Hperm.
    + by rewrite consumed_ids_cons, Hids.
  - injection Hloop as <- <-. apply try_match_none_unchanged in Hm as ->.
    by exists [].
Qed.

Lemma match_assets_entries chain assets : ∀ k self subs self',
  match_assets chain k assets self = (Ok (Some subs), self') →
  ∃ consumed,
    book_entries self ≡ₚ consumed ++ book_entries self'
    ∧ consumed_ids subs = intent_id <$> consumed.
Proof.
  induction assets as [|asset assets IH]; intros k self subs self' Hrun.
  { injection Hrun as <- <-. by exists []. }
  simpl in Hrun. unfold bind at 1 in Hrun.
  destruct (match_continuously chain k asset self) as [[[subs1|]|e] self1] eqn:Hone;
    try done.
  unfold bind, ret in Hrun.
  destruct (match_assets chain (k + length subs1) assets self1)
    as [[[subs2|]|e] self2] eqn:Hrest; try done.
  injection Hrun as <- <-.
  destruct (match_loop_entries _ _ _ _ _ _ _ Hone) as (c1 & Hp1 & Hi1).
  destruct (IH _ _ _ _ Hrest) as (c2 & Hp2 & Hi2).
  exists (c1 ++ c2). split.
  - by rewrite Hp1, Hp2, (assoc_L (++)).
  - by rewrite consumed_ids_app, Hi1, Hi2, fmap_app.
Qed.

Lemma load_loop_entries intents : ∀ self self',
  load_loop intents self = (Ok (), self') →
  book_entries self' ≡ₚ built_entries intents ++ book_entries self.
Proof.
  induction intents as [|i intents IH]; intros self self' Hload.
  { by injection Hload as <-. }
  simpl in Hload. unfold bind at 1, lift in Hload. rewrite built_entries_cons.
  destruct (parse_intent i) as [[entry|]|e]; [| |done].
  - destruct (add_intent_books entry self) as (self1 & Hadd & _).
    unfold bind in Hload. rewrite Hadd in Hload.
    rewrite (IH _ _ Hload).
    replace self1 with (state_after (add_intent entry) self)
      by (unfold state_after; by rewrite Hadd).
    rewrite add_intent_entries. simpl. by rewrite Permutation_middle.
  - unfold bind, ret in Hload. simpl in Hload. by apply IH.
Qed.

Lemma parse_intent_id intent_db entry :
  parse_intent intent_db = Ok (Some entry) → intent_id entry = db_intent_id intent_db.
Proof.
  unfold parse_intent.
  destruct (match db_payload intent_db with
            | PayloadFalsy => Ok (JObj [])
            | PayloadText None => Raise JSONDecodeError
            | PayloadText (Some j) => Ok j
            end) as [payload|]; [simpl|done].
  destruct (json_get payload _ _) as [constraints|]; [simpl|done].
  destruct (json_get constraints "type" _) as [ty|]; [simpl|done].
  destruct (json_get constraints "price" _) as [pr|]; [simpl|done].
  destruct (json_get constraints "quantity" _) as [qu|]; [simpl|done].
  destruct (json_eq_zero pr); [done|].
  destruct (json_lower ty); [simpl|done].
  destruct (json_int pr); [simpl|done].
  destruct (json_int qu); [simpl|done].
  by intros [= <-].
Qed.

Lemma built_entries_ids intents :
  intent_id <$> built_entries intents `sublist_of` db_intent_id <$> intents.
Proof.
  induction intents as [|i intents IH]; [done|].
  rewrite built_entries_cons.
  destruct (parse_intent i) as [[entry|]|e] eqn:Hp; simpl.
  - rewrite (parse_intent_id _ _ Hp). by constructor.
  - by constructor.
  - by constructor.
Qed.

(** One cycle of a new engine, on a store in which [intent_id] is a key:
    whatever the node answers, no intent id is consumed by two of the
    matches submitted. *)
Lemma single_cycle_no_double_match indexer chain k subs self' :
  NoDup (db_intent_id <$> session indexer) →
  run_cycle indexer chain k new_engine = (Some subs, self') →
  NoDup (consumed_ids subs).
Proof.
  intros Hkeys. unfold run_cycle, load_intents_from_indexer.
  rewrite query_intents_active_unmatched.
  destruct (load_loop (active_unmatched indexer) new_engine) as [[[]|e] self1] eqn:Hload.
  2: { intros [= <- _]. constructor. }
  destruct (match_assets chain k (all_assets self1) self1) as [[r|e] self2] eqn:Hrun.
  2: { intros [= <- _]. constructor. }
  intros [= -> _].
  destruct (match_assets_entries _ _ _ _ _ _ Hrun) as (consumed & Hperm & ->).
  apply load_loop_entries in Hload.
  assert (Hall : NoDup (intent_id <$> built_entries (active_unmatched indexer))).
  { eapply sublist_NoDup; [|apply built_entries_ids].
    eapply sublist_NoDup; [exact Hkeys|].
    apply fmap_sublist, sublist_filter. }
  unfold book_entries at 2 in Hload. simpl in Hload.
  rewrite !map_to_list_empty in Hload. simpl in Hload. rewrite app_nil_r in Hload.
  rewrite <- Hload, Hperm, fmap_app in Hall.
  by apply NoDup_app in Hall as [? _].
Qed.

(** * Further properties of the engine *)

(** X1. [add_intent] never raises.  It puts the entry into the list of its
    own side kept under its own settlement asset, creating that list when
    the asset is new, and the list then holds the entry and what it held
    before; every other list and the whole dictionary of the other side are
    left as they were. *)
Theorem add_intent_effect (entry : OrderBookEntry) (self : AuctionEngine) :
  ∃ heap',
    add_intent entry self
    = (Ok (),
       match intent_type entry with
       | BID => mkEngine (<[settlement_asset entry := heap']> (bid_books self))
                  (ask_books self)
       | ASK => mkEngine (bid_books self)
                  (<[settlement_asset entry := heap']> (ask_books self))
       end)
    ∧ heap' ≡ₚ entry :: match intent_type entry with
                        | BID => bids_of self (settlement_asset entry)
                        | ASK => asks_of self (settlement_asset entry)
                        end.
Proof.
  destruct (intent_type entry) eqn:Hty.
  - destruct (add_intent_bid entry self Hty) as (heap' & Hpush & ->).
    destruct (heappush_perm entry_lt (bids_of self (settlement_asset entry)) entry)
      as (heap2 & Hpush2 & Hperm).
    exists heap'. split; [done|]. by replace heap' with heap2 by congruence.
  - destruct (add_intent_ask entry self Hty) as (heap' & Hpush & ->).
    destruct (heappush_perm entry_lt (asks_of self (settlement_asset entry)) entry)
      as (heap2 & Hpush2 & Hperm).
    exists heap'. split; [done|]. by replace heap' with heap2 by congruence.
Qed.

(** X2. The settlement price of a match lies between the two prices: the
    seller gets at least the ask price and the buyer pays at most the bid
    price. *)
Theorem try_match_price_between (asset : string) (self self' : AuctionEngine)
    (bid_entry ask_entry : OrderBookEntry) (match_price : Z) :
  try_match asset self = (Ok (Some (bid_entry, ask_entry, match_price)), self') →
  price ask_entry <= match_price <= price bid_entry.
Proof.
  intros Hm.
  destruct (try_match_cases asset self) as [[Heq _]|Hcross]; [congruence|].
  destruct Hcross as (b & bs & a & as_ & bids' & asks' & _ & _ & Hc & _ & _ & Heq).
  rewrite Heq in Hm. injection Hm as <- <- <- _.
  pose proof (Z.div_mod (price b + price a) 2 ltac:(lia)).
  pose proof (Z.mod_pos_bound (price b + price a) 2 ltac:(lia)). lia.
Qed.

(** With a bid at 10100 and an ask at 10000 the price is between them. *)
Lemma try_match_price_between_10100_10000 :
  price ask_10000 <= 10050 <= price bid_10100.
Proof.
  apply (try_match_price_between "BTC" book_10100_10000
           (try_match "BTC" book_10100_10000).2 bid_10100 ask_10000 10050).
  vm_compute. reflexivity.
Defined.

(** ** Filing *)

Lemma books_filed_new : books_filed new_engine.
Proof. split; intros asset heap; simpl; by rewrite lookup_empty. Qed.

Lemma add_intent_filed entry self :
  books_filed self → books_filed (state_after (add_intent entry) self).
Proof.
  intros [Hb Ha]. unfold state_after. destruct (intent_type entry) eqn:Hty.
  - destruct (add_intent_bid entry self Hty) as (heap' & Hpush & ->).
    destruct (heappush_perm entry_lt (bids_of self (settlement_asset entry)) entry)
      as (heap2 & Hpush2 & Hperm).
    assert (heap2 = heap') as -> by congruence.
    split; simpl; [|done]. intros asset heap.
    destruct (decide (settlement_asset entry = asset)) as [<-|Hne].
    + rewrite lookup_insert_eq. intros [= <-]. rewrite Hperm.
      constructor; [done|]. unfold bids_of.
      destruct (bid_books self !! settlement_asset entry) eqn:E; [by eapply Hb|constructor].
    + rewrite lookup_insert_ne by done. apply Hb.
  - destruct (add_intent_ask entry self Hty) as (heap' & Hpush & ->).
    destruct (heappush_perm entry_lt (asks_of self (settlement_asset entry)) entry)
      as (heap2 & Hpush2 & Hperm).
    assert (heap2 = heap') as -> by congruence.
    split; simpl; [done|]. intros asset heap.
    destruct (decide (settlement_asset entry = asset)) as [<-|Hne].
    + rewrite lookup_insert_eq. intros [= <-]. rewrite Hperm.
      constructor; [done|]. unfold asks_of.
      destruct (ask_books self !! settlement_asset entry) eqn:E; [by eapply Ha|constructor].
    + rewrite lookup_insert_ne by done. apply Ha.
Qed.

Lemma try_match_filed asset self :
  books_filed self → books_filed (state_after (try_match asset) self).
Proof.
  intros [Hb Ha]. unfold state_after.
  destruct (try_match_cases asset self) as [[-> _]|Hcross]; [done|].
  destruct Hcross as (b & bs & a & as_ & bids' & asks' & Hbk & Hak & _ & Hpb & Hpa & ->).
  destruct (heappop_perm entry_lt (b :: bs) b eq_refl) as (bids2 & Hpb2 & Hpermb).
  destruct (heappop_perm entry_lt (a :: as_) a eq_refl) as (asks2 & Hpa2 & Hperma).
  assert (bids2 = bids') as -> by congruence.
  assert (asks2 = asks') as -> by congruence.
  split; simpl; intros asset2 heap.
  - destruct (decide (asset = asset2)) as [<-|Hne].
    + rewrite lookup_insert_eq. intros [= <-].
      pose proof (Hb _ _ Hbk) as Hall. rewrite Hpermb in Hall.
      by apply Forall_cons in Hall as [_ ?].
    + rewrite lookup_insert_ne by done. apply Hb.
  - destruct (decide (asset = asset2)) as [<-|Hne].
    + rewrite lookup_insert_eq. intros [= <-].
      pose proof (Ha _ _ Hak) as Hall. rewrite Hperma in Hall.
      by apply Forall_cons in Hall as [_ ?].
    + rewrite lookup_insert_ne by done. apply Ha.
Qed.

Lemma reachable_state_after_add entry self r self' :
  add_intent entry self = (r, self') → self' = state_after (add_intent entry) self.
Proof. unfold state_after. by intros ->. Qed.

Lemma reachable_state_after_match asset self r self' :
  try_match asset self = (r, self') → self' = state_after (try_match asset) self.
Proof. unfold state_after. by intros ->. Qed.

Lemma reachable_filed self : reachable self → books_filed self.
Proof.
  induction 1 as [|entry self r self' _ IH Hadd|asset self r self' _ IH Hm].
  - apply books_filed_new.
  - rewrite (reachable_state_after_add _ _ _ _ Hadd). by apply add_intent_filed.
  - rewrite (reachable_state_after_match _ _ _ _ Hm). by apply try_match_filed.
Qed.

(** X3. In every state the engine reaches, the list kept under an asset in
    the bid dictionary holds bids for that asset only and is a heap by
    falling price; the list kept under it in the ask dictionary holds asks
    for that asset only and is a heap by rising price. *)
Theorem reachable_books_in_order (self : AuctionEngine) (asset : string) :
  reachable self →
  Forall (λ e, intent_type e = BID ∧ settlement_asset e = asset) (bids_of self asset)
  ∧ heap_ordered bid_key (bids_of self asset)
  ∧ Forall (λ e, intent_type e = ASK ∧ settlement_asset e = asset) (asks_of self asset)
  ∧ heap_ordered ask_key (asks_of self asset).
Proof.
  intros Hr. pose proof (reachable_filed _ Hr) as [Hfb Hfa].
  pose proof (reachable_books_ok _ Hr) as Hok.
  destruct (books_ok_bids self asset Hok) as [_ Hob].
  destruct (books_ok_asks self asset Hok) as [_ Hoa].
  split_and!; try done.
  - unfold bids_of. destruct (bid_books self !! asset) eqn:E; [by eapply Hfb|constructor].
  - unfold asks_of. destruct (ask_books self !! asset) eqn:E; [by eapply Hfa|constructor].
Qed.

Lemma book_two_assets_reachable : reachable book_two_assets.
Proof. repeat apply reachable_add. apply reach_new. Qed.

(** The BTC lists of a book that also holds an ETH bid. *)
Lemma reachable_books_in_order_two_assets :
  Forall (λ e, intent_type e = BID ∧ settlement_asset e = "BTC"%string)
    (bids_of book_two_assets "BTC")
  ∧ heap_ordered bid_key (bids_of book_two_assets "BTC")
  ∧ Forall (λ e, intent_type e = ASK ∧ settlement_asset e = "BTC"%string)
    (asks_of book_two_assets "BTC")
  ∧ heap_ordered ask_key (asks_of book_two_assets "BTC").
Proof.
  apply (reachable_books_in_order book_two_assets "BTC").
  repeat apply reachable_add. apply reach_new.
Defined.

(** ** What the matching loop leaves behind *)

Lemma try_match_other_asset asset asset' self :
  asset' ≠ asset →
  bids_of (state_after (try_match asset) self) asset' = bids_of self asset'
  ∧ asks_of (state_after (try_match asset) self) asset' = asks_of self asset'.
Proof.
  intros Hne. unfold state_after.
  destruct (try_match_cases asset self) as [[-> _]|Hcross]; [done|].
  destruct Hcross as (b & bs & a & as_ & bids' & asks' & _ & _ & _ & _ & _ & ->).
  unfold bids_of, asks_of. simpl. by rewrite !lookup_insert_ne.
Qed.

Lemma after_matches_other_asset asset asset' n self :
  asset' ≠ asset →
  bids_of (after_matches asset n self) asset' = bids_of self asset'
  ∧ asks_of (after_matches asset n self) asset' = asks_of self asset'.
Proof.
  intros Hne. induction n as [|n [IHb IHa]]; [done|].
  change (after_matches asset (S n) self)
    with (state_after (try_match asset) (after_matches asset n self)).
  destruct (try_match_other_asset asset asset' (after_matches asset n self) Hne)
    as [-> ->]. done.
Qed.

Lemma after_matches_reachable asset n self :
  reachable self → reachable (after_matches asset n self).
Proof.
  intros Hr. induction n as [|n IH]; [done|].
  change (after_matches asset (S n) self)
    with (state_after (try_match asset) (after_matches asset n self)).
  by apply reachable_match.
Qed.

Lemma no_match_uncrossed asset self :
  reachable self → try_match asset self = (Ok None, self) → uncrossed self asset.
Proof.
  intros Hr Hm b a Hb Ha.
  destruct (decide (price b < price a)) as [|Hge]; [done|]. exfalso.
  destruct (proj2 (try_match_any_cross asset self Hr)) as [m Hsome].
  { exists b, a. split_and!; [done|done|lia]. }
  rewrite Hm in Hsome. done.
Qed.

(** X4. In a reachable state, when [match_continuously] returns, no bid of
    the asset reaches the price of any of its asks any more; the state is
    again a reachable one, and the lists of every other asset are as they
    were. *)
Theorem match_continuously_uncrosses
    (chain : nat → chain_reply) (k : nat) (asset : string) (self : AuctionEngine) :
  reachable self →
  uncrossed (state_after (match_continuously chain k asset) self) asset
  ∧ reachable (state_after (match_continuously chain k asset) self)
  ∧ ∀ asset', asset' ≠ asset →
      bids_of (state_after (match_continuously chain k asset) self) asset'
      = bids_of self asset'
      ∧ asks_of (state_after (match_continuously chain k asset) self) asset'
        = asks_of self asset'.
Proof.
  intros Hr. unfold state_after, match_continuously.
  destruct (match_loop_spec chain asset (S (length (default [] (bid_books self !! asset))))
              k self) as (subs & self' & -> & Hlast & -> & _ & _).
  { unfold bids_of. lia. }
  simpl. pose proof (after_matches_reachable asset (length subs) self Hr) as Hr'.
  split_and!; [by apply no_match_uncrossed|done|].
  intros asset' Hne. by apply after_matches_other_asset.
Qed.

(** The book with a bid at 10100 and an ask at 10000 holds no crossing
    pair once the loop has run. *)
Lemma match_continuously_uncrosses_one_pair :
  uncrossed (state_after (match_continuously chain_always_ok 0 "BTC") book_10100_10000)
    "BTC".
Proof.
  apply (match_continuously_uncrosses chain_always_ok 0 "BTC" book_10100_10000).
  unfold book_10100_10000. repeat apply reachable_add. apply reach_new.
Defined.

Lemma match_loop_ignores_chain asset fuel : ∀ chain chain' k k' self,
  match match_loop fuel chain k asset self, match_loop fuel chain' k' asset self with
  | (Ok (Some subs), s1), (Ok (Some subs'), s2) =>
      s1 = s2 ∧ sub_triple <$> subs = sub_triple <$> subs'
  | (Ok None, s1), (Ok None, s2) => s1 = s2
  | (Raise _, s1), (Raise _, s2) => s1 = s2
  | _, _ => False
  end.
Proof.
  induction fuel as [|fuel IH]; intros chain chain' k k' self; [done|].
  simpl. unfold bind, ret.
  destruct (try_match asset self) as [[[[[b a] p]|]|e] self1] eqn:Hm; simpl.
  2: { by split. }
  2: { by apply try_match_never_raises in Hm. }
  specialize (IH chain chain' (S k) (S k') self1).
  destruct (match_loop fuel chain (S k) asset self1) as [[[rest|]|e] s1],
    (match_loop fuel chain' (S k') asset self1) as [[[rest'|]|e'] s2]; simpl; try done.
  destruct IH as [-> Heq]. split; [done|]. by f_equal.
Qed.

(** X5. What the node answers has no part in the matching: whatever two
    nodes answer to the submissions, [match_continuously] makes the same
    matches at the same prices and leaves the same books.  The entries of a
    match that was not confirmed are out of the book like those of one that
    was. *)
Theorem match_continuously_ignores_chain
    (chain chain' : nat → chain_reply) (k k' : nat) (asset : string)
    (self : AuctionEngine) :
  ∃ subs subs' self',
    match_continuously chain k asset self = (Ok (Some subs), self')
    ∧ match_continuously chain' k' asset self = (Ok (Some subs'), self')
    ∧ sub_triple <$> subs = sub_triple <$> subs'.
Proof.
  unfold match_continuously.
  pose proof (match_loop_ignores_chain asset
                (S (length (default [] (bid_books self !! asset)))) chain chain' k k' self)
    as Hsame.
  destruct (match_loop_spec chain asset (S (length (default [] (bid_books self !! asset))))
              k self) as (subs & self' & Hloop & _).
  { unfold bids_of. lia. }
  destruct (match_loop_spec chain' asset (S (length (default [] (bid_books self !! asset))))
              k' self) as (subs' & self2 & Hloop' & _).
  { unfold bids_of. lia. }
  rewrite Hloop, Hloop' in Hsame. destruct Hsame as [<- Heq].
  by exists subs, subs', self'.
Qed.

(** ** Intent ids that are not hexadecimal *)

Lemma bytes_fromhex_0x rest : bytes_fromhex (String.append "0x" rest) = Raise ValueError.
Proof. reflexivity. Qed.

(** X6. An intent id that starts with "0x" is never confirmed: [bytes.fromhex]
    raises on the "x", the [except] catches it, and [create_match_onchain]
    returns [None] whatever the node would have answered, on the bid side as
    on the ask side. *)
Theorem create_match_onchain_rejects_0x (reply : chain_reply)
    (rest other : string) (match_price : Z) :
  create_match_onchain reply (String.append "0x" rest) other match_price = None
  ∧ create_match_onchain reply other (String.append "0x" rest) match_price = None.
Proof.
  unfold create_match_onchain, create_match_try.
  rewrite bytes_fromhex_0x.
  destruct (chain_contract reply) as [[]|]; simpl; [|done].
  destruct (bytes_fromhex other); done.
Qed.

(** ** A cycle *)

Lemma load_loop_app l1 l2 self :
  load_loop (l1 ++ l2) self
  = match load_loop l1 self with
    | (Ok _, self1) => load_loop l2 self1
    | (Raise e, self1) => (Raise e, self1)
    end.
Proof.
  revert self. induction l1 as [|i l1 IH]; intros self; [done|].
  simpl. unfold bind, lift.
  destruct (parse_intent i) as [[entry|]|e]; [| |done].
  - destruct (add_intent entry self) as [[[]|e] self1]; [|done].
    apply IH.
  - apply IH.
Qed.

Lemma typed_parse_raises intent_db e :
  typed_intent intent_db = true → parse_intent intent_db = Raise e →
  e = JSONDecodeError ∨ e = AttributeError.
Proof.
  unfold typed_intent, parse_intent.
  destruct (db_payload intent_db) as [|[[| | | | |kv]|]]; simpl;
    try (intros _ [= <-]; by auto); try done.
  destruct (default (JObj []) (assoc_lookup "constraints" kv)) as [| | | | |c]; simpl;
    try (intros _ [= <-]; by auto).
  destruct (default (JInt 0) (assoc_lookup "price" c)) as [|bp|p| | |]; simpl; try done;
    destruct (default (JInt 1) (assoc_lookup "quantity" c)) as [|bq|q| | |]; simpl; try done;
    intros _;
    repeat match goal with
    | |- context [if ?b then _ else _] => destruct b; simpl
    end; try done;
    destruct (default (JStr "bid") (assoc_lookup "type" c)); simpl;
    try done; intros [= <-]; by auto.
Qed.

(** X7. The loader stops at the first intent on which it raises.  Where the
    intents before it parse and this one, a typed intent, does not, the
    loader raises the exception of this intent, which is [JSONDecodeError]
    (the payload is not JSON) or [AttributeError] (the payload or its
    constraints are no object, or the type is no text); the intents before
    it are in the books, those after it are not; and the cycle of
    [run_matching_loop] ends there, with no match made or submitted. *)
Theorem load_stops_at_first_raise (indexer : ArcIndexer) (chain : nat → chain_reply)
    (k : nat) (self : AuctionEngine)
    (before after : list IntentDB) (bad : IntentDB) (e : exn) :
  active_unmatched indexer = before ++ bad :: after →
  Forall (λ i, ∃ r, parse_intent i = Ok r) before →
  typed_intent bad = true →
  parse_intent bad = Raise e →
  (e = JSONDecodeError ∨ e = AttributeError)
  ∧ ∃ self1,
      load_intents_from_indexer indexer self = (Raise e, self1)
      ∧ (∀ asset,
           bids_of self1 asset ≡ₚ side_entries BID asset (built_entries before)
                                  ++ bids_of self asset
           ∧ asks_of self1 asset ≡ₚ side_entries ASK asset (built_entries before)
                                    ++ asks_of self asset)
      ∧ run_cycle indexer chain k self = (Some [], self1).
Proof.
  intros Hsplit Hbefore Htyped Hbad.
  split; [by eapply typed_parse_raises|].
  destruct (load_loop_total before self Hbefore) as [self1 Hload1].
  assert (Hload : load_intents_from_indexer indexer self = (Raise e, self1)).
  { unfold load_intents_from_indexer.
    rewrite query_intents_active_unmatched, Hsplit, load_loop_app, Hload1.
    simpl. unfold bind, lift. by rewrite Hbad. }
  exists self1. split_and!; [done| |].
  - by apply load_loop_books.
  - unfold run_cycle. by rewrite Hload.
Qed.

(** The store whose first row has a payload that is not JSON. *)
Lemma load_stops_at_first_raise_malformed :
  (JSONDecodeError = JSONDecodeError ∨ JSONDecodeError = AttributeError)
  ∧ ∃ self1,
      load_intents_from_indexer indexer_malformed new_engine
      = (Raise JSONDecodeError, self1)
      ∧ (∀ asset,
           bids_of self1 asset ≡ₚ side_entries BID asset (built_entries [])
                                  ++ bids_of new_engine asset
           ∧ asks_of self1 asset ≡ₚ side_entries ASK asset (built_entries [])
                                    ++ asks_of new_engine asset)
      ∧ run_cycle indexer_malformed chain_always_ok 0 new_engine = (Some [], self1).
Proof.
  apply (load_stops_at_first_raise indexer_malformed chain_always_ok 0 new_engine []
           [intent_row "a1" "bid" 100]
           (mkIntentDB "e5" "actor" 7 "mandate" "BTC" true false (PayloadText None))).
  - reflexivity.
  - constructor.
  - reflexivity.
  - reflexivity.
Defined.

Lemma load_loop_reachable intents : ∀ self,
  reachable self → reachable (load_loop intents self).2.
Proof.
  induction intents as [|i intents IH]; intros self Hr; [done|].
  simpl. unfold bind at 1, lift.
  destruct (parse_intent i) as [[entry|]|e]; [| |done].
  - destruct (add_intent_books entry self) as (self1 & Hadd & _).
    unfold bind at 1. rewrite Hadd. apply IH. by eapply reach_add.
  - unfold bind at 1, ret. by apply IH.
Qed.

Lemma match_continuously_spec chain k asset self :
  ∃ subs self',
    match_continuously chain k asset self = (Ok (Some subs), self')
    ∧ self' = after_matches asset (length subs) self
    ∧ try_match asset self' = (Ok None, self').
Proof.
  unfold match_continuously.
  destruct (match_loop_spec chain asset (S (length (default [] (bid_books self !! asset))))
              k self) as (subs & self' & Hloop & Hlast & Hiter & _).
  { unfold bids_of. lia. }
  by exists subs, self'.
Qed.

(** The loop over the assets: it completes, the state stays reachable,
    every asset gone through is left uncrossed and no other asset is
    touched. *)
Lemma match_assets_spec chain assets : ∀ k self,
  ∃ subs self',
    match_assets chain k assets self = (Ok (Some subs), self')
    ∧ (reachable self → reachable self')
    ∧ (reachable self → ∀ asset, asset ∈ assets → uncrossed self' asset)
    ∧ (∀ asset, asset ∉ assets →
         bids_of self' asset = bids_of self asset
         ∧ asks_of self' asset = asks_of self asset).
Proof.
  induction assets as [|asset assets IH]; intros k self.
  { exists [], self. split_and!; try done. intros _ asset Hin. by apply elem_of_nil in Hin. }
  destruct (match_continuously_spec chain k asset self) as (subs1 & self1 & Hone & Hiter & Hlast).
  destruct (IH (k + length subs1)%nat self1) as (subs2 & self2 & Hrest & Hr2 & Hunc & Hframe).
  exists (subs1 ++ subs2), self2. simpl. unfold bind at 1. rewrite Hone.
  unfold bind, ret. rewrite Hrest. simpl.
  assert (Hr1 : reachable self → reachable self1).
  { intros Hr. subst self1. by apply after_matches_reachable. }
  split_and!; [done|by auto| |].
  - intros Hr x Hx.
    destruct (decide (x ∈ assets)) as [Hin|Hnin]; [by apply Hunc; auto|].
    apply elem_of_cons in Hx as [->|?]; [|done].
    destruct (Hframe asset Hnin) as [Hb Ha].
    intros b a. unfold uncrossed in *. rewrite Hb, Ha.
    by apply no_match_uncrossed; auto.
  - intros x Hx. apply not_elem_of_cons in Hx as [Hne Hnin].
    destruct (Hframe x Hnin) as [-> ->]. subst self1.
    by apply after_matches_other_asset.
Qed.

Lemma load_loop_typed intents : ∀ self,
  Forall (λ i, typed_intent i = true) intents →
  (load_loop intents self).1 ≠ Raise NotAnInt.
Proof.
  induction intents as [|i intents IH]; intros self Hall; [done|].
  apply Forall_cons in Hall as [Hi Hall].
  simpl. unfold bind at 1, lift.
  destruct (parse_intent i) as [[entry|]|e] eqn:Hparse; simpl.
  - destruct (add_intent_books entry self) as (self1 & Hadd & _).
    unfold bind at 1. rewrite Hadd. by apply IH.
  - unfold bind at 1, ret. by apply IH.
  - destruct (typed_parse_raises i e Hi Hparse) as [-> | ->]; done.
Qed.

(** X8. On tables whose active, unmatched intents are typed, any number of
    cycles of [run_matching_loop] complete: no cycle raises past the
    [except] or runs on for ever, whatever else the tables hold and whatever
    the node answers.  From a reachable state they end in a reachable state,
    so the books stay heaps by price from cycle to cycle; and no load meets
    a price or quantity that an entry cannot hold. *)
Theorem run_cycles_complete (indexers : list ArcIndexer) (chain : nat → chain_reply)
    (k : nat) (self : AuctionEngine) :
  Forall (λ indexer, Forall (λ i, typed_intent i = true) (active_unmatched indexer))
    indexers →
  (∃ subs self',
     run_cycles indexers chain k self = (Some subs, self')
     ∧ (reachable self → reachable self'))
  ∧ Forall (λ indexer, ∀ engine,
              (load_intents_from_indexer indexer engine).1 ≠ Raise NotAnInt) indexers.
Proof.
  intros Htyped. split.
  - clear Htyped. revert k self.
    induction indexers as [|indexer indexers IH]; intros k self.
    { by exists [], self. }
    simpl. unfold run_cycle.
    pose proof (load_loop_reachable (query_intents indexer None (Some true) (Some false)) self)
      as Hload.
    unfold load_intents_from_indexer.
    destruct (load_loop (query_intents indexer None (Some true) (Some false)) self)
      as [[[]|e] self1]; simpl in Hload.
    + destruct (match_assets_spec chain (all_assets self1) k self1)
        as (subs1 & self2 & -> & Hr2 & _ & _).
      destruct (IH (k + length subs1)%nat self2) as (subs2 & self3 & -> & Hr3).
      exists (subs1 ++ subs2), self3. split; [done|]. auto.
    + destruct (IH (k + 0)%nat self1) as (subs2 & self3 & Hrest & Hr3).
      simpl. rewrite Hrest. exists subs2, self3. split; [done|]. auto.
  - eapply Forall_impl; [exact Htyped|]. intros indexer Hall engine.
    unfold load_intents_from_indexer. rewrite query_intents_active_unmatched.
    by apply load_loop_typed.
Qed.

(** The two cycles in which a bid is entered twice. *)
Lemma run_cycles_complete_two_cycles :
  (∃ subs self',
     run_cycles [store_cycle_1; store_cycle_2] chain_always_ok 0 new_engine
     = (Some subs, self')
     ∧ (reachable new_engine → reachable self'))
  ∧ Forall (λ indexer, ∀ engine,
              (load_intents_from_indexer indexer engine).1 ≠ Raise NotAnInt)
      [store_cycle_1; store_cycle_2].
Proof.
  apply (run_cycles_complete [store_cycle_1; store_cycle_2] chain_always_ok 0 new_engine).
  repeat (apply Forall_cons; split; [vm_compute; repeat constructor|]).
  apply Forall_nil_2.
Defined.

Lemma not_in_all_assets self asset :
  asset ∉ all_assets self → bids_of self asset = [] ∧ asks_of self asset = [].
Proof.
  unfold all_assets, bids_of, asks_of. rewrite elem_of_elements, not_elem_of_union.
  rewrite !not_elem_of_dom. by intros [-> ->].
Qed.

Lemma uncrossed_no_match asset self :
  uncrossed self asset → try_match asset self = (Ok None, self).
Proof.
  intros Hunc.
  destruct (try_match_cases asset self)
    as [[Hnone _]|(bb & bids & ba & asks & _ & _ & Hlb & Hla & Hcross & _)]; [done|].
  specialize (Hunc bb ba). unfold bids_of, asks_of in Hunc. rewrite Hlb, Hla in Hunc.
  simpl in Hunc. specialize (Hunc ltac:(by left) ltac:(by left)). lia.
Qed.

Lemma uncrossed_spread asset self :
  uncrossed self asset →
  ∃ snap,
    get_order_book_snapshot asset self = (Ok snap, self)
    ∧ ∀ spread, snap_spread snap = Some spread → 0 < spread.
Proof.
  intros Hunc. unfold get_order_book_snapshot, bind, get_self, ret.
  fold (bids_of self asset). fold (asks_of self asset).
  eexists. split; [reflexivity|]. cbn [snap_spread].
  pose proof (py_sorted_perm price true (bids_of self asset)) as Hpb.
  pose proof (py_sorted_perm price false (asks_of self asset)) as Hpa.
  destruct (py_sorted price true (bids_of self asset)) as [|b sb]; [done|].
  destruct (py_sorted price false (asks_of self asset)) as [|a sa]; [done|].
  simpl. intros spread [= <-].
  specialize (Hunc b a). rewrite <- Hpb, <- Hpa in Hunc.
  specialize (Hunc ltac:(by left) ltac:(by left)). lia.
Qed.

(** X9. A cycle on a table whose active, unmatched intents are all
    well-formed, started in a reachable state, loads without raising and
    leaves no asset crossed: in every book, of the assets gone through and
    of all others, each bid that is left is priced below each ask that is
    left.  A further [try_match] then finds nothing and changes nothing, and
    the spread [get_order_book_snapshot] reports is positive when there is
    one. *)
Theorem run_cycle_uncrosses (indexer : ArcIndexer) (chain : nat → chain_reply) (k : nat)
    (self : AuctionEngine) :
  reachable self →
  Forall (λ i, is_Some (intent_fields i)) (active_unmatched indexer) →
  (load_intents_from_indexer indexer self).1 = Ok ()
  ∧ ∀ asset,
      uncrossed (run_cycle indexer chain k self).2 asset
      ∧ try_match asset (run_cycle indexer chain k self).2
        = (Ok None, (run_cycle indexer chain k self).2)
      ∧ ∃ snap,
          get_order_book_snapshot asset (run_cycle indexer chain k self).2
          = (Ok snap, (run_cycle indexer chain k self).2)
          ∧ ∀ spread, snap_spread snap = Some spread → 0 < spread.
Proof.
  intros Hr Hwf.
  assert (Hload : ∃ self1, load_intents_from_indexer indexer self = (Ok (), self1)).
  { unfold load_intents_from_indexer. rewrite query_intents_active_unmatched.
    apply load_loop_total. eapply Forall_impl; [exact Hwf|].
    intros i Hi. eexists. by apply parse_intent_well_formed. }
  destruct Hload as [self1 Hload]. split; [by rewrite Hload|]. intros asset.
  assert (Hunc : uncrossed (run_cycle indexer chain k self).2 asset).
  { unfold run_cycle.
    pose proof (load_loop_reachable (query_intents indexer None (Some true) (Some false))
                  self Hr) as Hr1.
    rewrite Hload. unfold load_intents_from_indexer in Hload.
    rewrite Hload in Hr1. simpl in Hr1.
    destruct (match_assets_spec chain (all_assets self1) k self1)
      as (subs & self2 & -> & _ & Hunc & Hframe). simpl.
    destruct (decide (asset ∈ all_assets self1)) as [Hin|Hnin]; [by apply Hunc|].
    destruct (Hframe asset Hnin) as [Hb _].
    destruct (not_in_all_assets self1 asset Hnin) as [Hnil _].
    intros b a Hin. rewrite Hb, Hnil in Hin. by apply elem_of_nil in Hin. }
  split_and!; [done|by apply uncrossed_no_match|by apply uncrossed_spread].
Qed.

(** The table of three rows, loaded into a new engine. *)
Lemma run_cycle_uncrosses_three_rows :
  (load_intents_from_indexer indexer_three_rows new_engine).1 = Ok ()
  ∧ ∀ asset,
      uncrossed (run_cycle indexer_three_rows chain_always_ok 0 new_engine).2 asset
      ∧ try_match asset (run_cycle indexer_three_rows chain_always_ok 0 new_engine).2
        = (Ok None, (run_cycle indexer_three_rows chain_always_ok 0 new_engine).2)
      ∧ ∃ snap,
          get_order_book_snapshot asset
            (run_cycle indexer_three_rows chain_always_ok 0 new_engine).2
          = (Ok snap, (run_cycle indexer_three_rows chain_always_ok 0 new_engine).2)
          ∧ ∀ spread, snap_spread snap = Some spread → 0 < spread.
Proof.
  apply (run_cycle_uncrosses indexer_three_rows chain_always_ok 0 new_engine).
  - apply reach_new.
  - vm_compute. repeat constructor; by eexists.
Defined.

(** X10. A cycle whose load completes neither loses nor invents an entry:
    the entries built from the active, unmatched intents together with the
    entries the books held before are, as a multiset, the entries consumed
    by the cycle's matches together with the entries the books hold after;
    and the ids the matches name are the ids of the consumed entries, a bid
    and an ask for each match. *)
Theorem run_cycle_conserves (indexer : ArcIndexer) (chain : nat → chain_reply) (k : nat)
    (self : AuctionEngine) :
  (load_intents_from_indexer indexer self).1 = Ok () →
  ∃ subs self' consumed,
    run_cycle indexer chain k self = (Some subs, self')
    ∧ built_entries (active_unmatched indexer) ++ book_entries self
      ≡ₚ consumed ++ book_entries self'
    ∧ consumed_ids subs = intent_id <$> consumed
    ∧ length consumed = (2 * length subs)%nat.
Proof.
  intros Hload. unfold run_cycle.
  unfold load_intents_from_indexer in *. rewrite query_intents_active_unmatched in *.
  destruct (load_loop (active_unmatched indexer) self) as [[[]|e] self1] eqn:Hl;
    simpl in Hload; [|done].
  destruct (match_assets_spec chain (all_assets self1) k self1)
    as (subs & self2 & Hm & _).
  destruct (match_assets_entries _ _ _ _ _ _ Hm) as (consumed & Hperm & Hids).
  rewrite Hm. exists subs, self2, consumed. split_and!; [done| |done|].
  - rewrite <- Hperm. symmetry. by apply load_loop_entries.
  - rewrite <- (length_fmap intent_id), <- Hids. unfold consumed_ids.
    clear. induction subs as [|sub subs IH]; [done|].
    rewrite fmap_cons. cbn [concat app length]. rewrite IH. simpl. lia.
Qed.

(** The second cycle of the run in which a bid is entered twice. *)
Lemma run_cycle_conserves_second_cycle :
  ∃ subs self' consumed,
    run_cycle store_cycle_2 chain_always_ok 0
      (run_cycle store_cycle_1 chain_always_ok 0 new_engine).2 = (Some subs, self')
    ∧ built_entries (active_unmatched store_cycle_2)
      ++ book_entries (run_cycle store_cycle_1 chain_always_ok 0 new_engine).2
      ≡ₚ consumed ++ book_entries self'
    ∧ consumed_ids subs = intent_id <$> consumed
    ∧ length consumed = (2 * length subs)%nat.
Proof.
  apply (run_cycle_conserves store_cycle_2 chain_always_ok 0
           (run_cycle store_cycle_1 chain_always_ok 0 new_engine).2).
  vm_compute. reflexivity.
Defined.

Lemma built_entries_from intents entry :
  entry ∈ built_entries intents →
  ∃ intent_db, intent_db ∈ intents ∧ parse_intent intent_db = Ok (Some entry).
Proof.
  unfold built_entries. rewrite list_elem_of_omap. intros (i & Hi & Hp).
  exists i. split; [done|]. destruct (parse_intent i) as [[?|]|]; congruence.
Qed.

Lemma run_cycle_consumed_entries indexer chain k self subs :
  (run_cycle indexer chain k self).1 = Some subs →
  ∃ consumed,
    consumed_ids subs = intent_id <$> consumed
    ∧ ∀ entry, entry ∈ consumed →
        entry ∈ built_entries (active_unmatched indexer) ∨ entry ∈ book_entries self.
Proof.
  unfold run_cycle, load_intents_from_indexer.
  rewrite query_intents_active_unmatched.
  destruct (load_loop (active_unmatched indexer) self) as [[[]|e] self1] eqn:Hl; simpl.
  2: { intros [= <-]. exists []. split; [done|]. intros entry Hin.
       by apply elem_of_nil in Hin. }
  destruct (match_assets_spec chain (all_assets self1) k self1)
    as (subs' & self2 & Hm & _).
  rewrite Hm. simpl. intros [= <-].
  destruct (match_assets_entries _ _ _ _ _ _ Hm) as (consumed & Hperm & Hids).
  exists consumed. split; [done|]. intros entry Hentry.
  apply elem_of_app. rewrite <- (load_loop_entries _ _ _ Hl), Hperm.
  apply elem_of_app. by left.
Qed.

Lemma built_entries_row indexer entry :
  entry ∈ built_entries (active_unmatched indexer) →
  ∃ row, row ∈ session indexer ∧ db_intent_id row = intent_id entry
         ∧ db_is_active row = true ∧ db_is_matched row = false.
Proof.
  intros (row & Hrow & Hparse)%built_entries_from.
  apply list_elem_of_filter in Hrow as [[Hact Hmat] Hrow].
  exists row. split_and!; try done. symmetry. by apply parse_intent_id.
Qed.

(** X11. Whatever a cycle matches comes from one of two places: an intent
    the table holds as active and unmatched, or an entry the books already
    held when the cycle began.  A cancelled or matched intent is consumed
    only if it was in the books before. *)
Theorem run_cycle_consumes_known (indexer : ArcIndexer) (chain : nat → chain_reply)
    (k : nat) (self : AuctionEngine) (subs : list Submission) :
  (run_cycle indexer chain k self).1 = Some subs →
  ∀ id, id ∈ consumed_ids subs →
    (∃ row, row ∈ session indexer ∧ db_intent_id row = id
            ∧ db_is_active row = true ∧ db_is_matched row = false)
    ∨ id ∈ intent_id <$> book_entries self.
Proof.
  intros (consumed & -> & Hfrom)%run_cycle_consumed_entries id
    (entry & -> & Hentry)%list_elem_of_fmap.
  destruct (Hfrom entry Hentry) as [Hbuilt|Hold].
  - left. by apply built_entries_row.
  - right. apply list_elem_of_fmap. by exists entry.
Qed.

(** The table of three rows: the cancelled ask [f6], the lowest-priced of
    all, is not what the bid is matched with. *)
Lemma run_cycle_consumes_known_three_rows :
  "c3" ∈ consumed_ids [mkSubmission "a1" "c3" 75 (Some "ff")]
  ∧ ((∃ row, row ∈ session indexer_three_rows ∧ db_intent_id row = "c3"
             ∧ db_is_active row = true ∧ db_is_matched row = false)
     ∨ "c3" ∈ intent_id <$> book_entries new_engine).
Proof.
  assert (Hin : "c3" ∈ consumed_ids [mkSubmission "a1" "c3" 75 (Some "ff")]).
  { right. left. }
  split; [exact Hin|].
  apply (run_cycle_consumes_known indexer_three_rows chain_always_ok 0 new_engine
           [mkSubmission "a1" "c3" 75 (Some "ff")]); [|exact Hin].
  vm_compute. reflexivity.
Defined.

(** ** The snapshot and the matcher *)

(** X12. In a reachable state the snapshot and the matcher agree: the
    spread of [get_order_book_snapshot] is there and at most zero exactly
    when [try_match] on the same asset makes a match, and then it is the ask
    price minus the bid price of the pair [try_match] returns. *)
Theorem snapshot_spread_try_match (asset : string) (self : AuctionEngine) :
  reachable self →
  ∃ snap,
    get_order_book_snapshot asset self = (Ok snap, self)
    ∧ ((∃ spread, snap_spread snap = Some spread ∧ spread <= 0)
       ↔ ∃ m, (try_match asset self).1 = Ok (Some m))
    ∧ ∀ bid_entry ask_entry match_price self',
        try_match asset self = (Ok (Some (bid_entry, ask_entry, match_price)), self') →
        snap_spread snap = Some (price ask_entry - price bid_entry).
Proof.
  intros Hr. unfold get_order_book_snapshot, bind, get_self, ret.
  fold (bids_of self asset). fold (asks_of self asset).
  eexists. split; [reflexivity|]. cbn [snap_spread].
  pose proof (py_sorted_perm price true (bids_of self asset)) as Hpb.
  pose proof (py_sorted_perm price false (asks_of self asset)) as Hpa.
  pose proof (py_sorted_head price true) as Hhb.
  pose proof (py_sorted_head price false) as Hha.
  destruct (py_sorted price true (bids_of self asset)) as [|b sb] eqn:Hb.
  { apply Permutation_nil in Hpb. split.
    - rewrite try_match_any_cross by done. split; [by intros (? & ? & _)|].
      intros (b' & a' & Hb' & _). rewrite Hpb in Hb'. by apply elem_of_nil in Hb'.
    - intros bb ba p self' Hm.
      rewrite try_match_one_sided in Hm by (by left). done. }
  destruct (py_sorted price false (asks_of self asset)) as [|a sa] eqn:Ha.
  { apply Permutation_nil in Hpa. split.
    - rewrite try_match_any_cross by done. split; [by intros (? & ? & _)|].
      intros (b' & a' & _ & Ha' & _). rewrite Hpa in Ha'. by apply elem_of_nil in Ha'.
    - intros bb ba p self' Hm.
      rewrite try_match_one_sided in Hm by (by right). done. }
  simpl.
  assert (Hbin : b ∈ bids_of self asset) by (rewrite <- Hpb; by left).
  assert (Hain : a ∈ asks_of self asset) by (rewrite <- Hpa; by left).
  assert (Hbmax : ∀ e, e ∈ bids_of self asset → price e <= price b).
  { intros e He. apply key_ordered_price_desc. by eapply Hhb. }
  assert (Hamin : ∀ e, e ∈ asks_of self asset → price a <= price e).
  { intros e He. apply key_ordered_price_asc. by eapply Hha. }
  split.
  - rewrite try_match_any_cross by done. split.
    + intros (s & [= <-] & Hs). exists b, a. split_and!; [done|done|lia].
    + intros (b' & a' & Hb' & Ha' & Hcross). eexists. split; [done|].
      specialize (Hbmax b' Hb'). specialize (Hamin a' Ha'). lia.
  - intros bb ba p self' Hm.
    destruct (try_match_cases asset self)
      as [[Hnone _]|(bb' & bids & ba' & asks & bids' & asks' & Hlb & Hla & _ & _ & _ & Hsome)];
      [congruence|].
    assert (bb' = bb ∧ ba' = ba) as [-> ->] by (split; congruence).
    pose proof (best_bid_highest self asset bb bids (reachable_books_ok _ Hr) Hlb) as Hbest.
    pose proof (best_ask_lowest self asset ba asks (reachable_books_ok _ Hr) Hla) as Hlow.
    unfold bids_of, asks_of in *. rewrite Hlb in *. rewrite Hla in *. simpl in *.
    pose proof (Hbest b Hbin). pose proof (Hbmax bb ltac:(by left)).
    pose proof (Hlow a Hain). pose proof (Hamin ba ltac:(by left)).
    f_equal. lia.
Qed.

(** The book with an ask at 40 and a bid at 90 on BTC. *)
Lemma snapshot_spread_try_match_two_assets :
  ∃ snap,
    get_order_book_snapshot "BTC" book_two_assets = (Ok snap, book_two_assets)
    ∧ ((∃ spread, snap_spread snap = Some spread ∧ spread <= 0)
       ↔ ∃ m, (try_match "BTC" book_two_assets).1 = Ok (Some m))
    ∧ ∀ bid_entry ask_entry match_price self',
        try_match "BTC" book_two_assets
        = (Ok (Some (bid_entry, ask_entry, match_price)), self') →
        snap_spread snap = Some (price ask_entry - price bid_entry).
Proof.
  apply (snapshot_spread_try_match "BTC" book_two_assets).
  apply book_two_assets_reachable.
Defined.

(** ** The comparison of entries *)

(** X20. [__lt__] orders the entries of one side by price alone: there it
    is irreflexive and transitive, and so is "neither is less than the
    other", which holds exactly when the prices are equal, whatever the
    timestamps.  Between a bid and an ask it is no order: the bid is less
    than the ask exactly when the ask is less than the bid. *)
Theorem entry_lt_order :
  (∀ a, entry_lt a a = false)
  ∧ (∀ a b c, intent_type a = intent_type b →
       entry_lt a b = true → entry_lt b c = true → entry_lt a c = true)
  ∧ (∀ a b, intent_type a = intent_type b →
       (entry_lt a b = false ∧ entry_lt b a = false ↔ price a = price b))
  ∧ (∀ a b, intent_type a = BID → intent_type b = ASK → entry_lt a b = entry_lt b a).
Proof.
  unfold entry_lt. split_and!.
  - intros a. destruct (intent_type a); apply bool_decide_false; lia.
  - intros a b c <-. destruct (intent_type a);
      rewrite !bool_decide_eq_true; lia.
  - intros a b <-. destruct (intent_type a);
      rewrite !bool_decide_eq_false; lia.
  - intros a b -> ->. apply bool_decide_ext. lia.
Qed.

(** * The indexer *)

Lemma filter_all {A} (test : A → bool) (l : list A) :
  (∀ x, test x = true) → filter (λ x, test x = true) l = l.
Proof.
  intros Hall. induction l as [|x l IH]; [done|].
  rewrite filter_cons, decide_True by done. by rewrite IH.
Qed.

Lemma query_intents_filter (indexer : ArcIndexer) (by_actor : option string)
    (is_active is_matched : option bool) :
  query_intents indexer by_actor is_active is_matched
  = filter (λ row, passes by_actor is_active is_matched row = true) (session indexer).
Proof.
  unfold query_intents.
  set (t1 := λ row, match by_actor with
                    | Some a => bool_decide (a = "") || bool_decide (db_actor row = a)
                    | None => true
                    end).
  set (t2 := λ row, match is_active with
                    | Some b => bool_decide (db_is_active row = b)
                    | None => true
                    end).
  set (t3 := λ row, match is_matched with
                    | Some b => bool_decide (db_is_matched row = b)
                    | None => true
                    end).
  assert (H1 : match by_actor with
               | Some a => if bool_decide (a = "") then session indexer
                           else filter (λ r, db_actor r = a) (session indexer)
               | None => session indexer
               end = filter (λ row, t1 row = true) (session indexer)).
  { subst t1. destruct by_actor as [a|]; [|by rewrite filter_all].
    case_bool_decide; [by rewrite filter_all|].
    apply list_filter_iff. intros row. simpl. by rewrite bool_decide_eq_true. }
  assert (H2 : ∀ q : list IntentDB,
             match is_active with
             | Some b => filter (λ r, db_is_active r = b) q
             | None => q
             end = filter (λ row, t2 row = true) q).
  { intros q. subst t2. destruct is_active as [b|]; [|by rewrite filter_all].
    apply list_filter_iff. intros row. by rewrite bool_decide_eq_true. }
  assert (H3 : ∀ q : list IntentDB,
             match is_matched with
             | Some b => filter (λ r, db_is_matched r = b) q
             | None => q
             end = filter (λ row, t3 row = true) q).
  { intros q. subst t3. destruct is_matched as [b|]; [|by rewrite filter_all].
    apply list_filter_iff. intros row. by rewrite bool_decide_eq_true. }
  rewrite H1, H3, H2, !list_filter_filter.
  apply list_filter_iff. intros row. unfold passes. fold (t1 row) (t2 row) (t3 row).
  rewrite !andb_true_iff. tauto.
Qed.

(** X13. [query_intents] returns the rows of the table that pass every
    filter given, in the order of the table and each as often as the table
    has it: its answer is the table with the rows that fail a filter struck
    out.  A filter left out ([None]) lets every row pass, and so does an
    actor given as the empty text. *)
Theorem query_intents_spec (indexer : ArcIndexer) (by_actor : option string)
    (is_active is_matched : option bool) :
  query_intents indexer by_actor is_active is_matched
  = filter (λ row, passes by_actor is_active is_matched row = true) (session indexer)
  ∧ query_intents indexer by_actor is_active is_matched `sublist_of` session indexer
  ∧ ∀ row,
      row ∈ query_intents indexer by_actor is_active is_matched
      ↔ row ∈ session indexer
        ∧ (∀ a, by_actor = Some a → a ≠ "" → db_actor row = a)
        ∧ (∀ b, is_active = Some b → db_is_active row = b)
        ∧ (∀ b, is_matched = Some b → db_is_matched row = b).
Proof.
  rewrite query_intents_filter. split_and!; [done|apply sublist_filter|].
  intros row. rewrite list_elem_of_filter. unfold passes.
  rewrite !andb_true_iff.
  destruct by_actor as [a|], is_active as [ba|], is_matched as [bm|];
    rewrite ?orb_true_iff, ?bool_decide_eq_true;
    (split;
     [intros [[[Ha Hb] Hc] Hin]; split_and!; try done; intros; simplify_option_eq;
      try done; by destruct Ha
     |intros (Hin & Ha & Hb & Hc); split_and!; try done; eauto;
      destruct (decide (a = "")); eauto]).
Qed.

Lemma first_by_id_None rows id :
  first_by_id rows id = None ↔ id ∉ db_intent_id <$> rows.
Proof.
  unfold first_by_id. induction rows as [|r rows IH]; simpl.
  { split; [|done]. intros _ Hin. by apply elem_of_nil in Hin. }
  rewrite filter_cons, not_elem_of_cons. destruct (decide (db_intent_id r = id)) as [Heq|Hne].
  - simpl. split; [done|]. by intros [? _].
  - rewrite IH. split; [by split|]. by intros [_ ?].
Qed.

Lemma index_registered_loop_added events : ∀ rows,
  ∃ added,
    index_registered_loop events rows = rows ++ added
    ∧ Forall (λ r, ∃ ev, ev ∈ events ∧ r = registered_row ev) added
    ∧ ∀ ev, ev ∈ events →
        reg_intent_id ev ∈ db_intent_id <$> index_registered_loop events rows.
Proof.
  induction events as [|ev events IH]; intros rows; simpl.
  { exists []. rewrite app_nil_r. split_and!; [done|done|].
    intros ev Hin. by apply elem_of_nil in Hin. }
  destruct (first_by_id rows (reg_intent_id ev)) as [r|] eqn:Hfirst.
  - destruct (IH rows) as (added & Heq & Hadded & Hids).
    exists added. split_and!; [done| |].
    + eapply Forall_impl; [exact Hadded|]. intros r' (ev' & Hin & ->).
      exists ev'. split; [by right|done].
    + intros ev' [->|Hin]%elem_of_cons; [|by apply Hids].
      rewrite Heq, fmap_app. apply elem_of_app. left.
      destruct (decide (reg_intent_id ev ∈ db_intent_id <$> rows)) as [|Hnot]; [done|].
      apply first_by_id_None in Hnot. congruence.
  - destruct (IH (rows ++ [registered_row ev])) as (added & Heq & Hadded & Hids).
    exists (registered_row ev :: added). split_and!.
    + by rewrite Heq, <- app_assoc.
    + apply Forall_cons. split; [exists ev; split; [by left|done]|].
      eapply Forall_impl; [exact Hadded|]. intros r' (ev' & Hin & ->).
      exists ev'. split; [by right|done].
    + intros ev' [->|Hin]%elem_of_cons; [|by apply Hids].
      rewrite Heq, !fmap_app. apply elem_of_app. left. apply elem_of_app. right.
      simpl. by left.
Qed.

Lemma index_registered_loop_unique events : ∀ rows,
  NoDup (db_intent_id <$> rows) →
  NoDup (db_intent_id <$> index_registered_loop events rows).
Proof.
  induction events as [|ev events IH]; intros rows Hnd; simpl; [done|].
  destruct (first_by_id rows (reg_intent_id ev)) as [r|] eqn:Hfirst; [by apply IH|].
  apply IH. rewrite fmap_app. apply NoDup_app. split_and!; [done| |].
  - intros id Hid [->|Hin%elem_of_nil]%elem_of_cons; [|done].
    by apply first_by_id_None in Hfirst.
  - simpl. apply NoDup_singleton.
Qed.

Lemma index_registered_loop_known events : ∀ rows,
  (∀ ev, ev ∈ events → reg_intent_id ev ∈ db_intent_id <$> rows) →
  index_registered_loop events rows = rows.
Proof.
  induction events as [|ev events IH]; intros rows Hknown; simpl; [done|].
  destruct (first_by_id rows (reg_intent_id ev)) as [r|] eqn:Hfirst.
  - apply IH. intros ev' Hin. apply Hknown. by right.
  - apply first_by_id_None in Hfirst. destruct Hfirst. apply Hknown. by left.
Qed.

(** X14. [_index_intent_registered], given storable events, only appends.
    The rows there are stay as they are and where they are; each row added
    is active, unmatched, carries the payload [{}] and a timestamp that fits
    its column; afterwards every event's intent id is in the table; and a
    table whose intent ids were all different still has them all different,
    also when one batch names an id twice. *)
Theorem index_registered_appends (entries : res (list IntentRegistered))
    (indexer : ArcIndexer) :
  ids_unique indexer →
  (∀ events, entries = Ok events → Forall storable events) →
  ∃ added,
    session (_index_intent_registered entries indexer) = session indexer ++ added
    ∧ Forall (λ r, db_is_active r = true ∧ db_is_matched r = false
                   ∧ db_payload r = PayloadText (Some (JObj []))
                   ∧ fits_integer_column (db_timestamp r)) added
    ∧ (∀ events ev, entries = Ok events → ev ∈ events →
         reg_intent_id ev ∈ db_intent_id <$> session (_index_intent_registered entries indexer))
    ∧ ids_unique (_index_intent_registered entries indexer).
Proof.
  intros Hnd Hfit. destruct entries as [events|e]; simpl.
  - destruct (index_registered_loop_added events (session indexer))
      as (added & Heq & Hadded & Hids).
    specialize (Hfit events eq_refl). rewrite Forall_forall in Hfit.
    exists added. split_and!; [done| | |].
    + eapply Forall_impl; [exact Hadded|]. intros r (ev & Hev & ->).
      split_and!; try done. by destruct (Hfit ev Hev).
    + intros events' ev [= <-]. apply Hids.
    + by apply index_registered_loop_unique.
  - exists []. rewrite app_nil_r. by split_and!.
Qed.

(** One batch that names [b2] twice and [a1], which the table has. *)
Lemma index_registered_appends_one_bid :
  ∃ added,
    session (_index_intent_registered
               (Ok [mkRegistered "b2" "actor" 8 90 "mandate" "BTC";
                    mkRegistered "a1" "other" 9 90 "mandate" "ETH";
                    mkRegistered "b2" "actor" 8 90 "mandate" "BTC"]) indexer_one_bid)
    = session indexer_one_bid ++ added
    ∧ Forall (λ r, db_is_active r = true ∧ db_is_matched r = false
                   ∧ db_payload r = PayloadText (Some (JObj []))
                   ∧ fits_integer_column (db_timestamp r)) added
    ∧ (∀ events ev,
         Ok [mkRegistered "b2" "actor" 8 90 "mandate" "BTC";
             mkRegistered "a1" "other" 9 90 "mandate" "ETH";
             mkRegistered "b2" "actor" 8 90 "mandate" "BTC"] = Ok events → ev ∈ events →
         reg_intent_id ev ∈ db_intent_id <$> session (_index_intent_registered
               (Ok [mkRegistered "b2" "actor" 8 90 "mandate" "BTC";
                    mkRegistered "a1" "other" 9 90 "mandate" "ETH";
                    mkRegistered "b2" "actor" 8 90 "mandate" "BTC"]) indexer_one_bid))
    ∧ ids_unique (_index_intent_registered
               (Ok [mkRegistered "b2" "actor" 8 90 "mandate" "BTC";
                    mkRegistered "a1" "other" 9 90 "mandate" "ETH";
                    mkRegistered "b2" "actor" 8 90 "mandate" "BTC"]) indexer_one_bid).
Proof.
  apply (index_registered_appends _ indexer_one_bid).
  - unfold ids_unique. simpl. apply NoDup_singleton.
  - intros events [= <-].
    repeat (apply Forall_cons; split; [split; unfold fits_integer_column; simpl; lia|]).
    apply Forall_nil_2.
Defined.

(** X15. Reading the same [IntentRegistered] events a second time changes
    nothing: [index_events] starts each round at the block the round before
    ended with, so events do come twice. *)
Theorem index_registered_idempotent (entries : res (list IntentRegistered))
    (indexer : ArcIndexer) :
  _index_intent_registered entries (_index_intent_registered entries indexer)
  = _index_intent_registered entries indexer.
Proof.
  destruct entries as [events|e]; simpl; [|done]. f_equal.
  apply index_registered_loop_known. intros ev Hin.
  by destruct (index_registered_loop_added events (session indexer)) as (_ & _ & _ & Hids); auto.
Qed.

Lemma parse_registered_row ev : parse_intent (registered_row ev) = Ok None.
Proof. reflexivity. Qed.

Lemma load_loop_skipped added : ∀ self,
  Forall (λ r, parse_intent r = Ok None) added → load_loop added self = (Ok (), self).
Proof.
  induction added as [|r added IH]; intros self Hall; [done|].
  apply Forall_cons in Hall as [Hr Hall]. simpl. unfold bind at 1, lift. rewrite Hr.
  unfold bind, ret. by apply IH.
Qed.

(** X16. No row written by [_index_intent_registered] ever reaches a book.
    Its payload is [{}], the loader reads price 0 from it and skips it: the
    loader does on the table after the handler exactly what it does on the
    table before, result and books alike. *)
Theorem load_ignores_registered (entries : res (list IntentRegistered))
    (indexer : ArcIndexer) (self : AuctionEngine) :
  load_intents_from_indexer (_index_intent_registered entries indexer) self
  = load_intents_from_indexer indexer self.
Proof.
  destruct entries as [events|e]; simpl; [|done].
  unfold load_intents_from_indexer. rewrite !query_intents_active_unmatched.
  destruct (index_registered_loop_added events (session indexer))
    as (added & Heq & Hadded & _).
  unfold active_unmatched. simpl. rewrite Heq, filter_app, load_loop_app.
  destruct (load_loop _ self) as [[[]|e] self1]; [|done].
  apply load_loop_skipped. apply Forall_forall. intros r [_ Hr]%list_elem_of_filter.
  rewrite Forall_forall in Hadded. destruct (Hadded r Hr) as (ev & _ & ->).
  apply parse_registered_row.
Qed.

Section UpdateFirst.
Variable f : IntentDB → IntentDB.
Hypothesis f_id : ∀ r, db_intent_id (f r) = db_intent_id r.
Hypothesis f_idem : ∀ r, f (f r) = f r.

Lemma update_first_ids id rows :
  db_intent_id <$> update_first id f rows = db_intent_id <$> rows.
Proof.
  induction rows as [|r rows IH]; simpl; [done|].
  case_bool_decide; rewrite !fmap_cons; [by rewrite f_id|by rewrite IH].
Qed.

Lemma update_first_unique id rows :
  NoDup (db_intent_id <$> rows) →
  update_first id f rows
  = (λ r, if bool_decide (db_intent_id r = id) then f r else r) <$> rows.
Proof.
  induction rows as [|r rows IH]; simpl; [done|]. intros [Hnot Hnd]%NoDup_cons.
  case_bool_decide as Hid; [|by rewrite IH].
  f_equal. clear IH Hnd. induction rows as [|r' rows IH]; simpl; [done|].
  simpl in Hnot. apply not_elem_of_cons in Hnot as [Hne Hnot].
  rewrite bool_decide_false by congruence. f_equal. by apply IH.
Qed.


Lemma foldl_update_unique ids : ∀ rows,
  NoDup (db_intent_id <$> rows) →
  foldl (λ rows id, update_first id f rows) rows ids
  = (λ r, if bool_decide (db_intent_id r ∈ ids) then f r else r) <$> rows.
Proof.
  induction ids as [|id ids IH]; intros rows Hnd; simpl.
  { symmetry. apply list_fmap_id. }
  rewrite IH by (by rewrite update_first_ids).
  rewrite update_first_unique by done. rewrite <- list_fmap_compose.
  apply list_fmap_ext. intros i r _. simpl.
  destruct (bool_decide_reflect (db_intent_id r = id)) as [Heq|Hne].
  - rewrite f_id, (bool_decide_true (db_intent_id r ∈ id :: ids)) by (rewrite Heq; by left).
    by case_bool_decide.
  - destruct (bool_decide_reflect (db_intent_id r ∈ ids)) as [Hin|Hnin].
    + rewrite bool_decide_true; [done|by right].
    + rewrite bool_decide_false; [done|]. by apply not_elem_of_cons.
Qed.

End UpdateFirst.

Lemma active_unmatched_marked (f : IntentDB → IntentDB) (ids : list string)
    (rows : list IntentDB) :
  (∀ r, ¬ (db_is_active (f r) = true ∧ db_is_matched (f r) = false)) →
  filter (λ r, db_is_active r = true ∧ db_is_matched r = false)
    ((λ r, if bool_decide (db_intent_id r ∈ ids) then f r else r) <$> rows)
  = filter (λ r, db_intent_id r ∉ ids)
      (filter (λ r, db_is_active r = true ∧ db_is_matched r = false) rows).
Proof.
  intros Hf. induction rows as [|r rows IH]; [done|].
  rewrite fmap_cons, !filter_cons, IH.
  destruct (bool_decide_reflect (db_intent_id r ∈ ids)) as [Hin|Hnin].
  - rewrite decide_False by apply Hf.
    destruct (decide (db_is_active r = true ∧ db_is_matched r = false)); [|done].
    rewrite filter_cons. by rewrite decide_False by (by intros ?).
  - destruct (decide (db_is_active r = true ∧ db_is_matched r = false)); [|done].
    rewrite filter_cons. by rewrite decide_True by done.
Qed.

(** X17. On a table whose intent ids are all different,
    [_index_intent_cancelled] takes exactly the cancelled ids out of what
    the loader is given: the active, unmatched rows afterwards are those
    before whose id no event names, unchanged and in the same order.  No
    row is added, removed or given another id, and an id the table does not
    have changes nothing. *)
Theorem index_cancelled_drops (ids : list string) (indexer : ArcIndexer) :
  ids_unique indexer →
  active_unmatched (_index_intent_cancelled (Ok ids) indexer)
  = filter (λ r, db_intent_id r ∉ ids) (active_unmatched indexer)
  ∧ db_intent_id <$> session (_index_intent_cancelled (Ok ids) indexer)
    = db_intent_id <$> session indexer
  ∧ ((∀ id, id ∈ ids → id ∉ db_intent_id <$> session indexer) →
     _index_intent_cancelled (Ok ids) indexer = indexer).
Proof.
  intros Hnd. unfold active_unmatched. simpl.
  rewrite (foldl_update_unique set_inactive) by done.
  split_and!.
  - apply active_unmatched_marked. by intros r [? _].
  - rewrite <- list_fmap_compose. apply list_fmap_ext. intros i r _. simpl.
    by case_bool_decide.
  - intros Hnone. destruct indexer as [rows]. simpl in *. f_equal.
    rewrite <- (list_fmap_id rows) at 2. apply list_fmap_ext. intros i r Hr. simpl.
    rewrite bool_decide_false; [done|]. intros Hin. apply (Hnone _ Hin).
    apply list_elem_of_fmap. exists r. split; [done|]. by eapply list_elem_of_lookup_2.
Qed.

Lemma store_cycle_2_unique : ids_unique store_cycle_2.
Proof.
  unfold ids_unique. simpl.
  repeat (apply NoDup_cons_2; [rewrite ?not_elem_of_cons; split_and?; try done; apply not_elem_of_nil|]).
  apply NoDup_nil_2.
Qed.

(** The ask [c3] cancelled, and an id the table does not have. *)
Lemma index_cancelled_drops_c3 :
  active_unmatched (_index_intent_cancelled (Ok ["c3"; "zz"]) store_cycle_2)
  = filter (λ r, db_intent_id r ∉ ["c3"; "zz"]) (active_unmatched store_cycle_2)
  ∧ db_intent_id <$> session (_index_intent_cancelled (Ok ["c3"; "zz"]) store_cycle_2)
    = db_intent_id <$> session store_cycle_2
  ∧ ((∀ id, id ∈ ["c3"; "zz"] → id ∉ db_intent_id <$> session store_cycle_2) →
     _index_intent_cancelled (Ok ["c3"; "zz"]) store_cycle_2 = store_cycle_2).
Proof.
  apply (index_cancelled_drops ["c3"; "zz"] store_cycle_2).
  apply store_cycle_2_unique.
Defined.

(** X18. On a table whose intent ids are all different,
    [_index_intent_matched] takes exactly the matched ids out of what the
    loader is given, and leaves whether a row is active as it was. *)
Theorem index_matched_drops (ids : list string) (indexer : ArcIndexer) :
  ids_unique indexer →
  active_unmatched (_index_intent_matched (Ok ids) indexer)
  = filter (λ r, db_intent_id r ∉ ids) (active_unmatched indexer)
  ∧ db_intent_id <$> session (_index_intent_matched (Ok ids) indexer)
    = db_intent_id <$> session indexer
  ∧ db_is_active <$> session (_index_intent_matched (Ok ids) indexer)
    = db_is_active <$> session indexer.
Proof.
  intros Hnd. unfold active_unmatched. simpl.
  rewrite (foldl_update_unique set_matched) by done.
  split_and!.
  - apply active_unmatched_marked. by intros r [_ ?].
  - rewrite <- list_fmap_compose. apply list_fmap_ext. intros i r _. simpl.
    by case_bool_decide.
  - rewrite <- list_fmap_compose. apply list_fmap_ext. intros i r _. simpl.
    by case_bool_decide.
Qed.

(** The bid [a1] matched. *)
Lemma index_matched_drops_a1 :
  active_unmatched (_index_intent_matched (Ok ["a1"]) store_cycle_2)
  = filter (λ r, db_intent_id r ∉ ["a1"]) (active_unmatched store_cycle_2)
  ∧ db_intent_id <$> session (_index_intent_matched (Ok ["a1"]) store_cycle_2)
    = db_intent_id <$> session store_cycle_2
  ∧ db_is_active <$> session (_index_intent_matched (Ok ["a1"]) store_cycle_2)
    = db_is_active <$> session store_cycle_2.
Proof.
  apply (index_matched_drops ["a1"] store_cycle_2).
  apply store_cycle_2_unique.
Defined.






(** ** Table [matches] *)

Lemma first_match_by_id_None rows id :
  first_match_by_id rows id = None ↔ id ∉ db_match_id <$> rows.
Proof.
  unfold first_match_by_id. induction rows as [|r rows IH]; simpl.
  { split; [|done]. intros _ Hin. by apply elem_of_nil in Hin. }
  rewrite filter_cons, not_elem_of_cons. destruct (decide (db_match_id r = id)) as [Heq|Hne].
  - simpl. split; [done|]. by intros [? _].
  - rewrite IH. split; [by split|]. by intros [_ ?].
Qed.

Lemma index_created_loop_added events : ∀ rows,
  NoDup (db_match_id <$> rows) →
  ∃ added,
    index_created_loop events rows = rows ++ added
    ∧ Forall (λ r, ∃ ev ts, ev ∈ events ∧ cre_block_timestamp ev = Ok ts
                            ∧ r = created_row ev ts) added
    ∧ NoDup (db_match_id <$> index_created_loop events rows).
Proof.
  induction events as [|ev events IH]; intros rows Hnd; simpl.
  { exists []. by rewrite app_nil_r. }
  assert (Hweak : ∀ added,
    Forall (λ r, ∃ ev' ts, ev' ∈ events ∧ cre_block_timestamp ev' = Ok ts
                           ∧ r = created_row ev' ts) added →
    Forall (λ r, ∃ ev' ts, ev' ∈ ev :: events ∧ cre_block_timestamp ev' = Ok ts
                           ∧ r = created_row ev' ts) added).
  { intros added Hall. eapply Forall_impl; [exact Hall|].
    intros r (ev' & ts & Hin & Hts & ->).
    exists ev', ts. split_and!; [by right|done|done]. }
  destruct (first_match_by_id rows (cre_match_id ev)) as [r|] eqn:Hfirst.
  - destruct (IH rows Hnd) as (added & Heq & Hadded & Hnd').
    exists added. split_and!; [done|by apply Hweak|done].
  - destruct (cre_block_timestamp ev) as [ts|e] eqn:Hts.
    + destruct (IH (rows ++ [created_row ev ts])) as (added & Heq & Hadded & Hnd').
      { rewrite fmap_app. apply NoDup_app. split_and!; [done| |apply NoDup_singleton].
        intros id Hid [->|Hin%elem_of_nil]%elem_of_cons; [|done].
        by apply first_match_by_id_None in Hfirst. }
      exists (created_row ev ts :: added). split_and!; [by rewrite Heq, <- app_assoc| |done].
      apply Forall_cons. split; [|by apply Hweak].
      exists ev, ts. split_and!; [by left|done|done].
    + exists []. by rewrite app_nil_r.
Qed.

(** X21. [_index_match_created] only appends.  The matches there are stay
    as they are, an event for a match id the table has adds nothing, each
    row added is pending, has no proof hash and is to be settled 172800
    seconds (48 hours) after the timestamp of its block, and match ids that
    were all different stay all different. *)
Theorem index_match_created_appends (entries : res (list MatchCreated))
    (matches : list MatchDB) :
  NoDup (db_match_id <$> matches) →
  ∃ added,
    _index_match_created entries matches = matches ++ added
    ∧ Forall (λ r, db_status r = "pending"%string ∧ db_ap2_proof_hash r = None
                   ∧ db_settle_by r = db_created_at r + 172800
                   ∧ db_match_id r ∉ db_match_id <$> matches) added
    ∧ NoDup (db_match_id <$> _index_match_created entries matches).
Proof.
  intros Hnd. destruct entries as [events|e]; simpl.
  2: { exists []. by rewrite app_nil_r. }
  destruct (index_created_loop_added events matches Hnd) as (added & Heq & Hadded & Hnd').
  exists added. split_and!; [done| |done].
  apply Forall_forall. intros r Hr. rewrite Forall_forall in Hadded.
  destruct (Hadded r Hr) as (ev & ts & _ & _ & Hrow). split_and!; try by subst r.
  rewrite Heq, fmap_app in Hnd'. apply NoDup_app in Hnd' as (_ & Hdisj & _).
  intros Hin. apply (Hdisj _ Hin). apply list_elem_of_fmap. by exists r.
Qed.

(** The event of a match the table has, and of one it has not. *)
Lemma index_match_created_appends_m1 :
  ∃ added,
    _index_match_created
      (Ok [mkCreated "m1" "x" "y" "buyer" "seller" 1 (Ok 5); created_m3]) [match_m1]
    = [match_m1] ++ added
    ∧ Forall (λ r, db_status r = "pending"%string ∧ db_ap2_proof_hash r = None
                   ∧ db_settle_by r = db_created_at r + 172800
                   ∧ db_match_id r ∉ db_match_id <$> [match_m1]) added
    ∧ NoDup (db_match_id <$> _index_match_created
               (Ok [mkCreated "m1" "x" "y" "buyer" "seller" 1 (Ok 5); created_m3])
               [match_m1]).
Proof.
  apply (index_match_created_appends _ [match_m1]).
  simpl. apply NoDup_singleton.
Defined.

(** X22. [_index_match_created] gives up at the first new match whose
    block the node does not deliver: the events before it are handled as if
    they were the whole batch, and no event after it is looked at, whether
    or not its block could be had.  [index_events] goes on to the next
    handler and sets [latest_block] all the same. *)
Theorem index_match_created_stops (before after : list MatchCreated)
    (bad : MatchCreated) (e : exn) (matches : list MatchDB) :
  cre_block_timestamp bad = Raise e →
  cre_match_id bad ∉ db_match_id <$> _index_match_created (Ok before) matches →
  _index_match_created (Ok (before ++ bad :: after)) matches
  = _index_match_created (Ok before) matches.
Proof.
  simpl. intros Hbad. revert matches.
  induction before as [|ev before IH]; intros rows Hnew; simpl in *.
  - apply first_match_by_id_None in Hnew. by rewrite Hnew, Hbad.
  - destruct (first_match_by_id rows (cre_match_id ev)); [by apply IH|].
    destruct (cre_block_timestamp ev); [by apply IH|done].
Qed.

(** The node fails on [m2]: [m3], which comes after it, is not stored. *)
Lemma index_match_created_stops_m2 :
  _index_match_created (Ok ([] ++ created_m2_fails :: [created_m3])) [match_m1]
  = _index_match_created (Ok []) [match_m1].
Proof.
  apply (index_match_created_stops [] [created_m3] created_m2_fails ConnectionError
           [match_m1]).
  - reflexivity.
  - simpl. intros [[=]|Hin%elem_of_nil]%elem_of_cons. done.
Defined.

Lemma update_first_match_ids id f rows :
  (∀ r, db_match_id (f r) = db_match_id r) →
  db_match_id <$> update_first_match id f rows = db_match_id <$> rows.
Proof.
  intros Hf. induction rows as [|r rows IH]; simpl; [done|].
  case_bool_decide; rewrite !fmap_cons; [by rewrite Hf|by rewrite IH].
Qed.

Lemma update_first_match_elem id f rows r :
  r ∈ update_first_match id f rows →
  r ∈ rows ∨ ∃ r0, r0 ∈ rows ∧ db_match_id r0 = id ∧ r = f r0.
Proof.
  induction rows as [|r1 rows IH]; simpl; [by left|].
  case_bool_decide as Hid.
  - intros [->|Hin]%elem_of_cons; [|left; by right].
    right. exists r1. split_and!; [by left|done|done].
  - intros [->|Hin]%elem_of_cons; [left; by left|].
    destruct (IH Hin) as [?|(r0 & ? & ? & ?)]; [left; by right|].
    right. exists r0. split_and!; [by right|done|done].
Qed.

Lemma update_first_match_hit id f rows r :
  NoDup (db_match_id <$> rows) →
  r ∈ update_first_match id f rows → db_match_id r = id →
  ∃ r0, r0 ∈ rows ∧ r = f r0.
Proof.
  induction rows as [|r1 rows IH]; simpl.
  { intros _ Hin. by apply elem_of_nil in Hin. }
  intros [Hnot Hnd]%NoDup_cons. case_bool_decide as Hid.
  - intros [->|Hin]%elem_of_cons Hr; [exists r1; split; [by left|done]|].
    destruct Hnot. apply list_elem_of_fmap. exists r. split; [congruence|done].
  - intros [->|Hin]%elem_of_cons Hr; [done|].
    destruct (IH Hnd Hin Hr) as (r0 & ? & ?). exists r0. split; [by right|done].
Qed.

Lemma update_first_match_keeps id f rows r :
  r ∈ rows → db_match_id r ≠ id → r ∈ update_first_match id f rows.
Proof.
  induction rows as [|r1 rows IH]; simpl; [done|].
  intros [->|Hin]%elem_of_cons Hne.
  - rewrite bool_decide_false by done. by left.
  - case_bool_decide; right; [done|by apply IH].
Qed.

Lemma update_first_match_settled id proof_hash rows m :
  m ∈ rows → db_status m = "settled"%string →
  ∃ m', m' ∈ update_first_match id (settle proof_hash) rows ∧ settled_as m m'.
Proof.
  intros Hin Hst. destruct (decide (db_match_id m = id)) as [Heq|Hne].
  - induction rows as [|r1 rows IH]; simpl; [by apply elem_of_nil in Hin|].
    apply elem_of_cons in Hin as [<-|Hin].
    + rewrite bool_decide_true by done. exists (settle proof_hash m).
      split; [by left|]. by repeat split.
    + case_bool_decide.
      * exists m. split; [by right|]. by repeat split.
      * destruct (IH Hin) as (m' & ? & ?). exists m'. split; [by right|done].
  - exists m. split; [by apply update_first_match_keeps|]. by repeat split.
Qed.

Lemma settled_as_trans m1 m2 m3 : settled_as m1 m2 → settled_as m2 m3 → settled_as m1 m3.
Proof. unfold settled_as. intros (?&?&?&?&?) (?&?&?&?&?). split_and!; congruence. Qed.

Lemma index_match_settled_keeps events : ∀ rows m,
  m ∈ rows → db_status m = "settled"%string →
  ∃ m', m' ∈ _index_match_settled (Ok events) rows ∧ settled_as m m'.
Proof.
  simpl. induction events as [|ev events IH]; intros rows m Hin Hst; simpl.
  { exists m. split; [done|]. by repeat split. }
  destruct (update_first_match_settled (stl_match_id ev) (stl_ap2_proof_hash ev) rows m
              Hin Hst) as (m1 & Hin1 & Has1).
  destruct (IH _ m1 Hin1 ltac:(apply Has1)) as (m' & Hin' & Has').
  exists m'. split; [done|]. by eapply settled_as_trans.
Qed.

(** X23. A match once stored as settled stays settled.  Through any
    number of rounds of the two match handlers, whatever events they read
    and whether or not the node answers, the table keeps a settled row with
    its match id, intent ids and price; only its proof hash may be written
    again. *)
Theorem settled_stays_settled
    (rounds : list (res (list MatchCreated) * res (list MatchSettled)))
    (matches : list MatchDB) (m : MatchDB) :
  m ∈ matches → db_status m = "settled"%string →
  ∃ m', m' ∈ index_match_rounds rounds matches ∧ settled_as m m'.
Proof.
  unfold index_match_rounds. revert matches m.
  induction rounds as [|[created settled] rounds IH]; intros rows m Hin Hst; simpl.
  { exists m. split; [done|]. by repeat split. }
  assert (Hin1 : m ∈ _index_match_created created rows).
  { destruct created as [events|e]; simpl; [|done]. clear IH Hst. revert rows Hin.
    induction events as [|ev events IHe]; intros rows Hin; simpl; [done|].
    destruct (first_match_by_id rows (cre_match_id ev)); [by apply IHe|].
    destruct (cre_block_timestamp ev); [|done].
    apply IHe, elem_of_app. by left. }
  assert (∃ m2, m2 ∈ _index_match_settled settled (_index_match_created created rows)
                ∧ settled_as m m2) as (m2 & Hin2 & Has2).
  { destruct settled as [events|e]; [by apply index_match_settled_keeps|].
    exists m. split; [done|]. by repeat split. }
  destruct (IH _ m2 Hin2 ltac:(apply Has2)) as (m' & Hin' & Has').
  exists m'. split; [done|]. by eapply settled_as_trans.
Qed.

(** A settled match, a round that reads its creation again and a round
    that reads its settlement again with another proof hash. *)
Lemma settled_stays_settled_m1 :
  ∃ m', m' ∈ index_match_rounds
               [(Ok [mkCreated "m1" "b1" "a1" "buyer" "seller" 75 (Ok 1000)], Ok []);
                (Raise ConnectionError, Ok [mkSettled "m1" "cd"])]
               [settle "ab" match_m1]
        ∧ settled_as (settle "ab" match_m1) m'.
Proof.
  apply (settled_stays_settled _ [settle "ab" match_m1] (settle "ab" match_m1)).
  - by left.
  - reflexivity.
Defined.

Lemma index_match_settled_from events : ∀ rows r,
  r ∈ _index_match_settled (Ok events) rows →
  ∃ r0, r0 ∈ rows ∧ db_match_id r0 = db_match_id r
        ∧ (db_status r0 = "settled"%string → db_status r = "settled"%string).
Proof.
  simpl. induction events as [|ev events IH]; intros rows r Hin; simpl in Hin.
  { by exists r. }
  destruct (IH _ r Hin) as (r1 & Hin1 & Hid1 & Hst1).
  apply update_first_match_elem in Hin1 as [?|(r0 & ? & ? & ->)].
  - by exists r1.
  - exists r0. split_and!; [done|done|]. intros _. by apply Hst1.
Qed.

(** X24. [_index_match_settled] adds no row, removes none and changes no
    match id.  On a table whose match ids are all different, every match an
    event names is settled afterwards, and a match no event names is left as
    it was; an event for a match the table does not have is dropped. *)
Theorem index_match_settled_effect (events : list MatchSettled) (matches : list MatchDB) :
  NoDup (db_match_id <$> matches) →
  db_match_id <$> _index_match_settled (Ok events) matches = db_match_id <$> matches
  ∧ (∀ r ev, r ∈ _index_match_settled (Ok events) matches → ev ∈ events →
       stl_match_id ev = db_match_id r → db_status r = "settled"%string)
  ∧ (∀ r, r ∈ matches → (∀ ev, ev ∈ events → stl_match_id ev ≠ db_match_id r) →
       r ∈ _index_match_settled (Ok events) matches).
Proof.
  simpl. revert matches. induction events as [|ev events IH]; intros rows Hnd; simpl.
  { split_and!; [done| |done]. intros r ev _ Hin. by apply elem_of_nil in Hin. }
  set (rows1 := update_first_match (stl_match_id ev) (settle (stl_ap2_proof_hash ev)) rows).
  assert (Hids : db_match_id <$> rows1 = db_match_id <$> rows)
    by (by apply update_first_match_ids).
  destruct (IH rows1) as (IHids & IHset & IHkeep); [by rewrite Hids|].
  split_and!.
  - by rewrite IHids.
  - intros r ev' Hr [->|Hin]%elem_of_cons Hid; [|by eapply IHset].
    destruct (index_match_settled_from events rows1 r Hr) as (r1 & Hin1 & Hid1 & Hst1).
    apply Hst1.
    destruct (update_first_match_hit _ _ _ r1 Hnd Hin1 ltac:(congruence)) as (r0 & _ & ->).
    done.
  - intros r Hr Hnone. apply IHkeep.
    + apply update_first_match_keeps; [done|]. intros Heq. eapply Hnone; [by left|done].
    + intros ev' Hin. apply Hnone. by right.
Qed.

(** The settlement of [m1] and of a match the table does not have. *)
Lemma index_match_settled_effect_m1 :
  db_match_id <$> _index_match_settled (Ok [mkSettled "m1" "ab"; mkSettled "m9" "cd"])
                    [match_m1]
  = db_match_id <$> [match_m1]
  ∧ (∀ r ev,
       r ∈ _index_match_settled (Ok [mkSettled "m1" "ab"; mkSettled "m9" "cd"]) [match_m1] →
       ev ∈ [mkSettled "m1" "ab"; mkSettled "m9" "cd"] →
       stl_match_id ev = db_match_id r → db_status r = "settled"%string)
  ∧ (∀ r, r ∈ [match_m1] →
       (∀ ev, ev ∈ [mkSettled "m1" "ab"; mkSettled "m9" "cd"] →
          stl_match_id ev ≠ db_match_id r) →
       r ∈ _index_match_settled (Ok [mkSettled "m1" "ab"; mkSettled "m9" "cd"]) [match_m1]).
Proof.
  apply (index_match_settled_effect [mkSettled "m1" "ab"; mkSettled "m9" "cd"] [match_m1]).
  simpl. apply NoDup_singleton.
Defined.
